(** * Link_analytics.py: the disaster link-analysis engine

    A shallow embedding of [build_location_graph], [analyze_disaster_spread]
    and [generate_link_analysis_report], together with the parts of pandas
    and networkx these functions call.

    Conventions.
    - A cell of a string column is an [option string]; [None] is the NaN
      pandas puts where a document has no such field.
    - A Python [dict] is an association list in insertion order; a Python
      [set] is a duplicate-free list, kept in the order of insertion.  The
      order in which [list(s)] goes through a set follows the hash seed of
      the process: the first part of the development takes it to be the
      order of insertion, the part on platforms has it as a parameter of
      the run.
    - Python [int] is [Z]; a Python [float] that is a number is the
      rational [Q] it stands for, and [None] is NaN where a NaN can arise.
      The first part of the development computes with exact arithmetic,
      the part on platforms with the rounded operations of the machine as
      parameters.
    - Edge attribute dictionaries of a networkx graph are shared between
      the two adjacency entries of an edge; they live in a store and the
      adjacency holds references into it. *)

From Stdlib Require Import String Bool Arith ZArith QArith Lia List.
From Stdlib Require Import Permutation Sorted.
Import ListNotations.

Local Open Scope string_scope.
Local Open Scope nat_scope.
Local Open Scope list_scope.

(* ------------------------------------------------------------------ *)
(** ** Python dictionaries and sets *)

Section Dict.
Variables K V : Type.
Variable keq : K -> K -> bool.

Fixpoint dget (d : list (K * V)) (k : K) : option V :=
  match d with
  | [] => None
  | (k', v) :: t => if keq k k' then Some v else dget t k
  end.

Definition dmem (d : list (K * V)) (k : K) : bool :=
  match dget d k with Some _ => true | None => false end.

(** [d[k] = v]: overwrite in place, or append a new key. *)
Fixpoint dset (d : list (K * V)) (k : K) (v : V) : list (K * V) :=
  match d with
  | [] => [(k, v)]
  | (k', v') :: t => if keq k k' then (k', v) :: t else (k', v') :: dset t k v
  end.

Fixpoint lmem (x : K) (l : list K) : bool :=
  match l with
  | [] => false
  | y :: t => keq x y || lmem x t
  end.

(** [s.add(x)] *)
Definition set_add (x : K) (s : list K) : list K :=
  if lmem x s then s else s ++ [x].
End Dict.

Arguments dget {K V} keq d k.
Arguments dmem {K V} keq d k.
Arguments dset {K V} keq d k v.
Arguments lmem {K} keq x l.
Arguments set_add {K} keq x s.

(** [enumerate(l)], counting from [i] *)
Fixpoint enumerate_from {X : Type} (i : nat) (l : list X) : list (nat * X) :=
  match l with
  | [] => []
  | x :: t => (i, x) :: enumerate_from (S i) t
  end.

(* ------------------------------------------------------------------ *)
(** ** The pandas frame *)

Definition cell := option string.

(** Identity of a value as a dictionary key or an element of [unique()]:
    NaN is one value. *)
Definition key_eqb (a b : cell) : bool :=
  match a, b with
  | Some x, Some y => String.eqb x y
  | None, None => true
  | _, _ => false
  end.

(** Elementwise [==] of a column against a value: NaN equals nothing. *)
Definition cell_eqb (a b : cell) : bool :=
  match a, b with
  | Some x, Some y => String.eqb x y
  | _, _ => false
  end.

Record Row := mkRow {
  location : cell;
  disaster_type : cell;
  alert_level : option Q
}.

Record DataFrame := mkDF {
  columns : list string;
  rows : list Row
}.

Definition has_column (df : DataFrame) (c : string) : bool :=
  lmem String.eqb c (columns df).

(** [df.empty] *)
Definition df_empty (df : DataFrame) : bool :=
  match columns df, rows df with
  | [], _ => true
  | _, [] => true
  | _, _ => false
  end.

(** [Series.unique()]: the distinct values in order of first appearance. *)
Fixpoint unique_from (seen : list cell) (l : list cell) : list cell :=
  match l with
  | [] => []
  | x :: t =>
      if lmem key_eqb x seen then unique_from seen t
      else x :: unique_from (x :: seen) t
  end.

Definition unique (l : list cell) : list cell := unique_from [] l.

(* ------------------------------------------------------------------ *)
(** ** networkx.Graph *)

(** A node is a value of the location column. *)
Abbreviation node := cell (only parsing).

Record EdgeAttr := mkAttr {
  weight : Z;
  disasters : list cell
}.

Record Graph := mkGraph {
  g_node : list node;                          (* G._node, insertion order *)
  g_adj : list (node * list (node * nat));     (* G._adj: node -> nbr -> ref *)
  g_store : list EdgeAttr                      (* the attribute dicts *)
}.

Definition empty_graph : Graph := mkGraph [] [] [].

Definition add_node (G : Graph) (n : node) : Graph :=
  if lmem key_eqb n (g_node G) then G
  else mkGraph (g_node G ++ [n]) (g_adj G ++ [(n, [])]) (g_store G).

Definition neighbors (G : Graph) (u : node) : list (node * nat) :=
  match dget key_eqb (g_adj G) u with Some nb => nb | None => [] end.

(** [adj[u][v] = r] *)
Definition set_nbr (adj : list (node * list (node * nat))) (u v : node) (r : nat)
  : list (node * list (node * nat)) :=
  match dget key_eqb adj u with
  | Some nb => dset key_eqb adj u (dset key_eqb nb v r)
  | None => adj
  end.

Definition adj_ref (adj : list (node * list (node * nat))) (u v : node)
  : option nat :=
  match dget key_eqb adj u with
  | Some nb => dget key_eqb nb v
  | None => None
  end.

(** The reference held by [G._adj[u][v]]. *)
Definition edge_ref (G : Graph) (u v : node) : option nat :=
  adj_ref (g_adj G) u v.

Definition has_edge (G : Graph) (u v : node) : bool :=
  match edge_ref G u v with Some _ => true | None => false end.

(** [G[u][v]] *)
Definition edge_attr (G : Graph) (u v : node) : option EdgeAttr :=
  match edge_ref G u v with
  | Some r => nth_error (g_store G) r
  | None => None
  end.

Fixpoint store_update (s : list EdgeAttr) (r : nat) (f : EdgeAttr -> EdgeAttr)
  : list EdgeAttr :=
  match s, r with
  | [], _ => []
  | a :: t, O => f a :: t
  | a :: t, S r' => a :: store_update t r' f
  end.

(** [G.add_edge(u, v, weight=w, disasters=ds)] *)
Definition add_edge (G : Graph) (u v : node) (a : EdgeAttr) : Graph :=
  let G1 := add_node (add_node G u) v in
  match edge_ref G1 u v with
  | Some r =>
      mkGraph (g_node G1) (set_nbr (set_nbr (g_adj G1) u v r) v u r)
              (store_update (g_store G1) r (fun _ => a))
  | None =>
      let r := length (g_store G1) in
      mkGraph (g_node G1) (set_nbr (set_nbr (g_adj G1) u v r) v u r)
              (g_store G1 ++ [a])
  end.

(** [G[u][v]['weight'] += 1; G[u][v]['disasters'].add(d)] *)
Definition bump_edge (G : Graph) (u v : node) (d : cell) : Graph :=
  match edge_ref G u v with
  | Some r =>
      mkGraph (g_node G) (g_adj G)
        (store_update (g_store G) r
           (fun a => mkAttr (weight a + 1) (set_add key_eqb d (disasters a))))
  | None => G
  end.

(** [G.edges(data=True)]: every edge once, reported from the endpoint that
    comes first in node order. *)
Definition default_attr : EdgeAttr := mkAttr 1 [].

Fixpoint edges_from (store : list EdgeAttr) (seen : list node)
    (adj : list (node * list (node * nat))) : list (node * node * EdgeAttr) :=
  match adj with
  | [] => []
  | (n, nb) :: t =>
      map (fun p => (n, fst p, nth (snd p) store default_attr))
          (filter (fun p => negb (lmem key_eqb (fst p) seen)) nb)
      ++ edges_from store (n :: seen) t
  end.

Definition edges (G : Graph) : list (node * node * EdgeAttr) :=
  edges_from (g_store G) [] (g_adj G).

(** [G.degree()]: a self-loop counts twice. *)
Definition degree (G : Graph) (n : node) : nat :=
  let nb := neighbors G n in
  length nb + (if dmem key_eqb nb n then 1 else 0).

(* ------------------------------------------------------------------ *)
(** ** build_location_graph *)

Definition connect (disaster : cell) (G : Graph) (loc1 loc2 : node) : Graph :=
  if has_edge G loc1 loc2 then bump_edge G loc1 loc2 disaster
  else add_edge G loc1 loc2 (mkAttr 1 [disaster]).

(** The two nested [range] loops over the affected locations. *)
Definition connect_all (disaster : cell) (affected : list cell) (G : Graph)
  : Graph :=
  let n := length affected in
  fold_left (fun G i =>
    fold_left (fun G j =>
        connect disaster G (nth i affected None) (nth j affected None))
      (seq (i + 1) (n - (i + 1))) G)
    (seq 0 n) G.

Definition affected_locations (df : DataFrame) (disaster : cell) : list cell :=
  unique (map location
            (filter (fun r => cell_eqb (disaster_type r) disaster) (rows df))).

Definition build_body (df : DataFrame) : Graph :=
  let locations := unique (map location (rows df)) in
  let G0 := fold_left add_node locations empty_graph in
  let disaster_types := unique (map disaster_type (rows df)) in
  fold_left (fun G disaster =>
      let affected := affected_locations df disaster in
      if 1 <? length affected then connect_all disaster affected G else G)
    disaster_types G0.

(** [None] is the [KeyError] of [df['location']] or [df['disaster_type']]. *)
Definition build_location_graph (df : DataFrame) : option Graph :=
  if has_column df "location" && has_column df "disaster_type"
  then Some (build_body df)
  else None.

(* ------------------------------------------------------------------ *)
(** ** networkx centrality measures *)

Definition Qnat (n : nat) : Q := inject_Z (Z.of_nat n).

Definition Qltb (x y : Q) : bool := negb (Qle_bool y x).

Definition dgetd {V : Type} (d : list (node * V)) (k : node) (dflt : V) : V :=
  match dget key_eqb d k with Some v => v | None => dflt end.

(** [nx.degree_centrality(G)] *)
Definition degree_centrality (G : Graph) : list (node * Q) :=
  if length (g_node G) <=? 1 then map (fun n => (n, 1%Q)) (g_node G)
  else
    let s := (1 / (Qnat (length (g_node G)) - 1))%Q in
    map (fun n => (n, (Qnat (degree G n) * s)%Q)) (map fst (g_adj G)).

(** *** Betweenness (Brandes), unweighted *)

Record BFS := mkBFS {
  bS : list node;                    (* nodes in order of non-decreasing distance *)
  bP : list (node * list node);      (* predecessors *)
  bsigma : list (node * Q);          (* number of shortest paths *)
  bD : list (node * nat);            (* distance from the source *)
  bQ : list node                     (* the deque *)
}.

(** The body of [for w in G[v]]. *)
Definition bfs_visit (v : node) (Dv : nat) (sigmav : Q) (st : BFS) (w : node)
  : BFS :=
  let st1 :=
    if dmem key_eqb (bD st) w then st
    else mkBFS (bS st) (bP st) (bsigma st)
               (dset key_eqb (bD st) w (Dv + 1)) (bQ st ++ [w]) in
  if dgetd (bD st1) w 0 =? Dv + 1 then
    mkBFS (bS st1)
          (dset key_eqb (bP st1) w (dgetd (bP st1) w [] ++ [v]))
          (dset key_eqb (bsigma st1) w (dgetd (bsigma st1) w 0%Q + sigmav)%Q)
          (bD st1) (bQ st1)
  else st1.

(** [while Q]: one node leaves the deque per round. *)
Fixpoint bfs_loop (fuel : nat) (G : Graph) (st : BFS) : BFS :=
  match fuel with
  | O => st
  | S fuel' =>
      match bQ st with
      | [] => st
      | v :: q =>
          let st1 := mkBFS (bS st ++ [v]) (bP st) (bsigma st) (bD st) q in
          bfs_loop fuel' G
            (fold_left (bfs_visit v (dgetd (bD st) v 0) (dgetd (bsigma st) v 0%Q))
               (map fst (neighbors G v)) st1)
      end
  end.

(** [_single_source_shortest_path_basic(G, s)]; every node enters the deque
    at most once, so [len(G)] rounds empty it. *)
Definition single_source_shortest_path_basic (G : Graph) (s : node) : BFS :=
  let P0 := map (fun v => (v, @nil node)) (g_node G) in
  let sigma0 := dset key_eqb (map (fun v => (v, 0%Q)) (g_node G)) s 1%Q in
  bfs_loop (length (g_node G)) G (mkBFS [] P0 sigma0 [(s, 0)] [s]).

(** One round of [while S] in [_accumulate_basic].  The test [w != s]
    compares the two nodes as values: it holds of the NaN node against
    itself, so the dependency of a NaN source is added to its own
    betweenness. *)
Definition accumulate_step (P : list (node * list node)) (sigma : list (node * Q))
    (s : node) (acc : list (node * Q) * list (node * Q)) (w : node)
  : list (node * Q) * list (node * Q) :=
  let (betweenness, delta) := acc in
  let coeff := ((1 + dgetd delta w 0) / dgetd sigma w 0)%Q in
  let delta' :=
    fold_left (fun dl v =>
        dset key_eqb dl v (dgetd dl v 0 + dgetd sigma v 0 * coeff)%Q)
      (dgetd P w []) delta in
  if cell_eqb w s then (betweenness, delta')
  else (dset key_eqb betweenness w
          (dgetd betweenness w 0 + dgetd delta' w 0)%Q, delta').

(** [_accumulate_basic(betweenness, S, P, sigma, s)] *)
Definition accumulate_basic (betweenness : list (node * Q)) (b : BFS) (s : node)
  : list (node * Q) * list (node * Q) :=
  let delta := map (fun v => (v, 0%Q)) (bS b) in
  fold_left (accumulate_step (bP b) (bsigma b) s) (rev (bS b))
            (betweenness, delta).

(** [_rescale(betweenness, n, normalized, directed=False)] *)
Definition rescale (betweenness : list (node * Q)) (n : nat) (normalized : bool)
  : list (node * Q) :=
  let scale : option Q :=
    if normalized then
      if n <=? 2 then None
      else Some (1 / ((Qnat n - 1) * (Qnat n - 2)))%Q
    else Some (1 # 2)%Q in
  match scale with
  | Some sc => map (fun p => (fst p, (snd p * sc)%Q)) betweenness
  | None => betweenness
  end.

(** The sum of the per-source dependencies, before rescaling. *)
Definition brandes_sums (G : Graph) : list (node * Q) :=
  fold_left (fun betweenness s =>
      fst (accumulate_basic betweenness
             (single_source_shortest_path_basic G s) s))
    (g_node G) (map (fun v => (v, 0%Q)) (g_node G)).

Definition betweenness_with (normalized : bool) (G : Graph) : list (node * Q) :=
  rescale (brandes_sums G) (length (g_node G)) normalized.

(** [nx.betweenness_centrality(G)]: the call leaves [normalized] at its
    default, which is [True]. *)
Definition betweenness_centrality (G : Graph) : list (node * Q) :=
  betweenness_with true G.

(* ------------------------------------------------------------------ *)
(** ** networkx Louvain communities

    The working graphs of the algorithm have their nodes numbered in node
    order: node [i] of the first working graph stands for the [i]-th node
    [u] of [G], with [{u}] as its node set; node [i] of a later working
    graph is the [i]-th community of the level before.  [rng level n] is
    the order in which [seed.shuffle] leaves the [n] nodes at a level. *)

Record WGraph := mkWGraph {
  w_members : list (list node);          (* the "nodes" attribute *)
  w_adj : list (list (nat * Q))          (* neighbour -> weight *)
}.

Fixpoint nset {X : Type} (l : list X) (i : nat) (x : X) : list X :=
  match l, i with
  | [], _ => []
  | _ :: t, O => x :: t
  | y :: t, S i' => y :: nset t i' x
  end.

Fixpoint wget (d : list (nat * Q)) (k : nat) : option Q :=
  match d with
  | [] => None
  | (k', v) :: t => if k =? k' then Some v else wget t k
  end.

Fixpoint wset (d : list (nat * Q)) (k : nat) (v : Q) : list (nat * Q) :=
  match d with
  | [] => [(k, v)]
  | (k', v') :: t => if k =? k' then (k', v) :: t else (k', v') :: wset t k v
  end.

Definition wgetd (d : list (nat * Q)) (k : nat) : Q :=
  match wget d k with Some v => v | None => 0%Q end.

Definition w_add_edge (adj : list (list (nat * Q))) (u v : nat) (w : Q)
  : list (list (nat * Q)) :=
  let adj1 := nset adj u (wset (nth u adj []) v w) in
  nset adj1 v (wset (nth v adj1 []) u w).

(** [G.edges(data="weight")] of a working graph *)
Fixpoint w_edges_from (i : nat) (adj : list (list (nat * Q)))
  : list (nat * nat * Q) :=
  match adj with
  | [] => []
  | nb :: t =>
      map (fun p => (i, fst p, snd p)) (filter (fun p => i <=? fst p) nb)
      ++ w_edges_from (S i) t
  end.

Definition w_edges (g : WGraph) : list (nat * nat * Q) :=
  w_edges_from 0 (w_adj g).

(** [G.degree(weight="weight")]: a self-loop counts twice. *)
Definition w_degree (g : WGraph) (i : nat) : Q :=
  let nb := nth i (w_adj g) [] in
  (fold_left Qplus (map snd nb) 0 + wgetd nb i)%Q.

Definition w_degrees (g : WGraph) : list Q :=
  map (w_degree g) (seq 0 (length (w_adj g))).

(** [G.size(weight="weight")] *)
Definition w_size (g : WGraph) : Q :=
  (fold_left Qplus (w_degrees g) 0 / 2)%Q.

Definition index_of (G : Graph) (u : node) : nat :=
  (fix go (l : list node) (i : nat) : nat :=
     match l with
     | [] => i
     | x :: t => if key_eqb u x then i else go t (S i)
     end) (g_node G) 0.

(** The copy made by [graph.add_nodes_from(G)] and
    [graph.add_weighted_edges_from(G.edges(data=weight, default=1))]. *)
Definition working_graph (G : Graph) : WGraph :=
  mkWGraph (map (fun u => [u]) (g_node G))
    (fold_left (fun adj e =>
        match e with
        | (u, v, data) =>
            w_add_edge adj (index_of G u) (index_of G v)
                       (inject_Z (weight data))
        end)
      (edges G) (map (fun _ => []) (g_node G))).

(** [modularity(G, communities, weight="weight", resolution=1)].  The sum
    [L_c] of the weights of the edges inside a community is taken over the
    edge list of the graph. *)
Definition nmem (i : nat) (l : list nat) : bool := existsb (Nat.eqb i) l.

Definition modularity (g : WGraph) (communities : list (list nat)) : Q :=
  let deg_sum := fold_left Qplus (w_degrees g) 0%Q in
  let m := (deg_sum / 2)%Q in
  let norm := (1 / (deg_sum * deg_sum))%Q in
  fold_left Qplus
    (map (fun comm =>
        let L_c := fold_left Qplus
          (map (fun e => snd e)
             (filter (fun e => nmem (fst (fst e)) comm && nmem (snd (fst e)) comm)
                (w_edges g))) 0%Q in
        let out_degree_sum :=
          fold_left Qplus (map (w_degree g) comm) 0%Q in
        (L_c / m - 1 * out_degree_sum * out_degree_sum * norm)%Q)
      communities) 0%Q.

(** [_neighbor_weights(nbrs[u], node2com)], a [defaultdict(float)] *)
Definition neighbor_weights (nbrs_u : list (nat * Q)) (node2com : list nat)
  : list (nat * Q) :=
  fold_left (fun weights p =>
      let c := nth (fst p) node2com 0 in
      wset weights c (wgetd weights c + snd p)%Q)
    nbrs_u [].

Record Level := mkLevel {
  lv_node2com : list nat;
  lv_Stot : list Q;
  lv_partition : list (list node);
  lv_inner : list (list nat);
  lv_improvement : bool;
  lv_nb_moves : nat
}.

(** The body of [for u in rand_nodes]. *)
Definition move_node (g : WGraph) (m : Q) (st : Level) (u : nat) : Level :=
  let com_u := nth u (lv_node2com st) 0 in
  let weights2com0 :=
    neighbor_weights (filter (fun p => negb (fst p =? u)) (nth u (w_adj g) []))
                     (lv_node2com st) in
  let degree := w_degree g u in
  let Stot1 := nset (lv_Stot st) com_u (nth com_u (lv_Stot st) 0 - degree)%Q in
  (* reading weights2com[best_com] creates the key when it is absent *)
  let weights2com :=
    match wget weights2com0 com_u with
    | Some _ => weights2com0
    | None => weights2com0 ++ [(com_u, 0%Q)]
    end in
  let remove_cost :=
    (- wgetd weights2com com_u / m
     + 1 * (nth com_u Stot1 0 * degree) / (2 * (m * m)))%Q in
  let best :=
    fold_left (fun (b : Q * nat) p =>
        let gain :=
          (remove_cost + snd p / m
           - 1 * (nth (fst p) Stot1 0 * degree) / (2 * (m * m)))%Q in
        if Qltb (fst b) gain then (gain, fst p) else b)
      weights2com (0%Q, com_u) in
  let best_com := snd best in
  let Stot2 := nset Stot1 best_com (nth best_com Stot1 0 + degree)%Q in
  if best_com =? com_u then
    mkLevel (lv_node2com st) Stot2 (lv_partition st) (lv_inner st)
            (lv_improvement st) (lv_nb_moves st)
  else
    let com := nth u (w_members g) [] in
    let partition1 :=
      nset (lv_partition st) com_u
        (filter (fun x => negb (lmem key_eqb x com))
                (nth com_u (lv_partition st) [])) in
    let inner1 :=
      nset (lv_inner st) com_u
        (filter (fun x => negb (x =? u)) (nth com_u (lv_inner st) [])) in
    let partition2 :=
      nset partition1 best_com
        (fold_left (fun s x => set_add key_eqb x s) com
                   (nth best_com partition1 [])) in
    let inner2 :=
      nset inner1 best_com (set_add Nat.eqb u (nth best_com inner1 [])) in
    mkLevel (nset (lv_node2com st) u best_com) Stot2 partition2 inner2
            true (S (lv_nb_moves st)).

(** [while nb_moves > 0]; [None] when the rounds allowed are used up. *)
Fixpoint sweep (fuel : nat) (g : WGraph) (m : Q) (rand_nodes : list nat)
    (st : Level) : option Level :=
  match fuel with
  | O => None
  | S fuel' =>
      let st1 :=
        fold_left (move_node g m) rand_nodes
          (mkLevel (lv_node2com st) (lv_Stot st) (lv_partition st)
                   (lv_inner st) (lv_improvement st) 0) in
      if 0 <? lv_nb_moves st1 then sweep fuel' g m rand_nodes st1
      else Some st1
  end.

Definition nonempty {X : Type} (l : list X) : bool :=
  match l with [] => false | _ => true end.

(** [_one_level(G, m, partition, resolution, is_directed, seed)] *)
Definition one_level (fuel : nat) (rand_nodes : list nat) (g : WGraph)
    (m : Q) (partition : list (list node))
  : option (list (list node) * list (list nat) * bool) :=
  let n := length (w_adj g) in
  match sweep fuel g m rand_nodes
          (mkLevel (seq 0 n) (w_degrees g) partition
                   (map (fun u => [u]) (seq 0 n)) false 1) with
  | None => None
  | Some st =>
      Some (filter nonempty (lv_partition st),
            filter nonempty (lv_inner st),
            lv_improvement st)
  end.

(** [_gen_graph(G, partition)] *)
Definition gen_graph (g : WGraph) (partition : list (list nat)) : WGraph :=
  let node2com :=
    fold_left (fun n2c ip =>
        fold_left (fun n2c node => nset n2c node (fst ip)) (snd ip) n2c)
      (enumerate_from 0 partition) (map (fun _ => 0) (w_adj g)) in
  let members :=
    map (fun part =>
        fold_left (fun nodes node =>
            fold_left (fun s x => set_add key_eqb x s)
                      (nth node (w_members g) []) nodes)
          part [])
      partition in
  mkWGraph members
    (fold_left (fun adj e =>
        match e with
        | (node1, node2, wt) =>
            let com1 := nth node1 node2com 0 in
            let com2 := nth node2 node2com 0 in
            let temp := wgetd (nth com1 adj []) com2 in
            w_add_edge adj com1 com2 (wt + temp)%Q
        end)
      (w_edges g) (map (fun _ => []) partition)).

Definition louvain_threshold : Q := 1 # 10000000.

(** The [while improvement] loop of [louvain_partitions]; the result is the
    last partition yielded. *)
Fixpoint louvain_loop (fuel : nat) (rng : nat -> nat -> list nat)
    (level : nat) (g : WGraph) (m mod_ : Q) (partition : list (list node))
    (inner_partition : list (list nat)) : option (list (list node)) :=
  match fuel with
  | O => None
  | S fuel' =>
      let new_mod := modularity g inner_partition in
      if Qle_bool (new_mod - mod_) louvain_threshold then Some partition
      else
        let g' := gen_graph g inner_partition in
        match one_level fuel' (rng level (length (w_adj g'))) g' m partition with
        | None => None
        | Some (partition', inner', improvement) =>
            if improvement
            then louvain_loop fuel' rng (S level) g' m new_mod partition' inner'
            else Some partition
        end
  end.

(** [nx.community.louvain_communities(G)], with at most [fuel] rounds of
    each loop. *)
Definition louvain_communities (fuel : nat) (rng : nat -> nat -> list nat)
    (G : Graph) : option (list (list node)) :=
  let partition := map (fun u => [u]) (g_node G) in
  if forallb (fun a => match snd a with [] => true | _ => false end) (g_adj G)
  then Some partition
  else
    let g := working_graph G in
    let mod_ := modularity g (map (fun u => [u]) (seq 0 (length (w_adj g)))) in
    let m := w_size g in
    match one_level fuel (rng 0 (length (w_adj g))) g m partition with
    | None => None
    | Some (partition1, inner1, _) =>
        louvain_loop fuel rng 1 g m mod_ partition1 inner1
    end.

(* ------------------------------------------------------------------ *)
(** ** list.sort(key=..., reverse=True) *)

Section PySort.
Variable A : Type.
Variable lt : A -> A -> bool.      (* [key(x) < key(y)] *)

(** Stable insertion: [x] stood before every element of [l]. *)
Fixpoint insert_sorted (x : A) (l : list A) : list A :=
  match l with
  | [] => [x]
  | y :: t => if lt y x then y :: insert_sorted x t else x :: y :: t
  end.

Fixpoint stable_sort (l : list A) : list A :=
  match l with
  | [] => []
  | x :: t => insert_sorted x (stable_sort t)
  end.

(** CPython reverses the list, sorts it stably in ascending order and
    reverses it again.  When the keys are totally ordered the result of
    [list.sort] is this list.  When a key is NaN the comparisons
    contradict each other and [list.sort] may leave the elements in
    another order: of such a result only its elements are used. *)
Definition sort_reverse (l : list A) : list A := rev (stable_sort (rev l)).
End PySort.

(** The comparison [key(x) < key(y)] of a sort with a numeric key. *)
Definition key_lt {A : Type} (key : A -> Q) (x y : A) : bool :=
  Qltb (key x) (key y).

Arguments insert_sorted {A} lt x l.
Arguments stable_sort {A} lt l.
Arguments sort_reverse {A} lt l.

(* ------------------------------------------------------------------ *)
(** ** analyze_disaster_spread *)

(** A float that may be NaN. *)
Definition fval := option Q.

Definition Qsum (l : list Q) : Q := fold_left Qplus l 0%Q.

(** [Series.mean()] of the values of one group, NaN cells skipped. *)
Definition mean (l : list Q) : fval :=
  match l with
  | [] => None
  | _ => Some (Qsum l / Qnat (length l))%Q
  end.

Definition group_alerts (df : DataFrame) (loc : cell) : list Q :=
  flat_map (fun r =>
      if key_eqb (location r) loc then
        match alert_level r with Some a => [a] | None => [] end
      else [])
    (rows df).

Definition is_some {X : Type} (o : option X) : bool :=
  match o with Some _ => true | None => false end.

(** [df.groupby('location')['alert_level'].mean().to_dict()]: rows whose
    location is NaN belong to no group.  Only lookups are made in this
    dictionary, so its key order (sorted, in pandas) is left as first
    appearance. *)
Definition alert_levels (df : DataFrame) : list (cell * fval) :=
  map (fun loc => (loc, mean (group_alerts df loc)))
      (filter is_some (unique (map location (rows df)))).

Record RiskEntry := mkRisk {
  risk_location : node;
  risk_centrality : Q;
  risk_alert_level : Q;
  risk_score : Q
}.

Record Cluster := mkCluster {
  cluster_id : nat;
  cluster_locations : list node;
  cluster_size : nat;
  cluster_avg_alert_level : fval
}.

Record SpreadPath := mkPath {
  path_from : node;
  path_to : node;
  path_betweenness : Q;
  path_shared_disasters : list cell;
  path_connection_strength : Z
}.

Record Results := mkResults {
  res_high_risk_locations : list RiskEntry;
  res_disaster_clusters : list Cluster;
  res_potential_spread_paths : list SpreadPath
}.

(** The loop over [centrality.items()], before sorting.  A NaN mean makes
    the product NaN, and [NaN > 0.5] is false. *)
Definition risk_candidates (centrality : list (node * Q))
    (loc_alert_levels : list (cell * fval)) : list RiskEntry :=
  flat_map (fun lc =>
      let (loc, cent) := (lc : node * Q) in
      match dget key_eqb loc_alert_levels loc with
      | Some (Some alert) =>
          let score := (cent * alert)%Q in
          if Qltb (1 # 2) score then [mkRisk loc cent alert score] else []
      | Some None => []
      | None => []
      end)
    centrality.

(** [np.mean] of a list of floats: NaN as soon as one of them is. *)
Fixpoint all_numbers (l : list fval) : option (list Q) :=
  match l with
  | [] => Some []
  | None :: _ => None
  | Some q :: t =>
      match all_numbers t with Some t' => Some (q :: t') | None => None end
  end.

Definition np_mean (l : list fval) : fval :=
  match all_numbers l with
  | Some qs => mean qs
  | None => None
  end.

(** [loc_alert_levels.get(loc, 0)] *)
Definition member_alert (levels : list (cell * fval)) (loc : cell) : fval :=
  match dget key_eqb levels loc with
  | Some a => a
  | None => Some 0%Q
  end.

Definition cluster_candidates (communities : list (list node))
    (loc_alert_levels : list (cell * fval)) : list Cluster :=
  flat_map (fun ic =>
      let (i, community_list) := (ic : nat * list node) in
      if 1 <? length community_list then
        [mkCluster i community_list (length community_list)
           (np_mean (map (member_alert loc_alert_levels) community_list))]
      else [])
    (enumerate_from 0 communities).

Definition fval_ltb (a b : fval) : bool :=
  match a, b with
  | Some x, Some y => Qltb x y
  | _, _ => false
  end.

(** [<] on the key tuples [(size, avg_alert_level)]. *)
Definition cluster_key_ltb (c1 c2 : Cluster) : bool :=
  if cluster_size c1 =? cluster_size c2
  then fval_ltb (cluster_avg_alert_level c1) (cluster_avg_alert_level c2)
  else cluster_size c1 <? cluster_size c2.

Definition path_candidates (G : Graph) (betweenness : list (node * Q))
  : list SpreadPath :=
  flat_map (fun e =>
      match e with
      | (u, v, data) =>
          let edge_betweenness :=
            (dgetd betweenness u 0 + dgetd betweenness v 0)%Q in
          if Qltb (1 # 10) edge_betweenness then
            [mkPath u v edge_betweenness (disasters data) (weight data)]
          else []
      end)
    (edges G).

(** [detect] stands for the call [nx.community.louvain_communities(G)],
    whose result depends on the library's random generator.  [None] is the
    [KeyError] of a missing column. *)
Definition analyze_disaster_spread (detect : Graph -> list (list node))
    (G : Graph) (df : DataFrame) : option Results :=
  if has_column df "location" && has_column df "alert_level" then
    let centrality := degree_centrality G in
    let betweenness := betweenness_centrality G in
    let communities := detect G in
    let loc_alert_levels := alert_levels df in
    Some (mkResults
      (sort_reverse (key_lt risk_score)
         (risk_candidates centrality loc_alert_levels))
      (sort_reverse cluster_key_ltb
         (cluster_candidates communities loc_alert_levels))
      (sort_reverse (key_lt path_betweenness)
         (path_candidates G betweenness)))
  else None.

(* ------------------------------------------------------------------ *)
(** ** generate_link_analysis_report *)

Record Report := mkReport {
  timestamp : Z;
  locations_analyzed : nat;
  disaster_types_analyzed : list cell;
  high_risk_locations : list RiskEntry;
  disaster_clusters : list Cluster;
  potential_spread_paths : list SpreadPath;
  visualization_path : string
}.

(** The function returns a message string or the report dictionary. *)
Inductive Outcome :=
| Message (s : string)
| Generated (r : Report).

Definition required_columns : list string :=
  ["location"; "disaster_type"; "alert_level"].

(** [str] of a list of column names, as the f-string prints it. *)
Definition repr_list (l : list string) : string :=
  String.append "["
    (String.append
       (String.concat ", "
          (map (fun c => String.append "'" (String.append c "'")) l)) "]").

(** [df] is what [fetch_disaster_data] returned, [now] the clock reading
    when the report is assembled.  Both arms of the try statement around
    the MongoDB insert assemble the same report.  [None]: an exception
    escapes. *)
Definition generate_link_analysis_report (detect : Graph -> list (list node))
    (now : Z) (df : DataFrame) : option Outcome :=
  if df_empty df then Some (Message "No disaster data available for analysis.")
  else
    let missing_columns :=
      filter (fun col => negb (has_column df col)) required_columns in
    match missing_columns with
    | _ :: _ =>
        Some (Message (String.append "Missing required columns: "
                                     (repr_list missing_columns)))
    | [] =>
        match build_location_graph df with
        | None => None
        | Some G =>
            match analyze_disaster_spread detect G df with
            | None => None
            | Some analysis_results =>
                Some (Generated (mkReport now
                  (length (unique (map location (rows df))))
                  (unique (map disaster_type (rows df)))
                  (firstn 5 (res_high_risk_locations analysis_results))
                  (res_disaster_clusters analysis_results)
                  (firstn 10 (res_potential_spread_paths analysis_results))
                  "disaster_network.png"))
            end
        end
    end.

(* ------------------------------------------------------------------ *)
(** ** Predicates used in the statements *)

(** The edge invariant of the data model: the weight counts the distinct
    disaster types stored on the edge. *)
Definition attr_ok (a : EdgeAttr) : Prop :=
  weight a = Z.of_nat (length (disasters a)) /\
  NoDup (disasters a) /\
  (1 <= weight a)%Z.

(** Disaster [d] has been recorded for the pair [{u, v}]. *)
Definition recorded (done : list (node * node * cell)) (u v : node) (d : cell)
  : Prop :=
  In (u, v, d) done \/ In (v, u, d) done.

(** A simple undirected graph in the adjacency representation. *)
Record simple_graph (G : Graph) : Prop := {
  sg_keys : map fst (g_adj G) = g_node G;
  sg_nodup : NoDup (g_node G);
  sg_nbrs : forall n nb, dget key_eqb (g_adj G) n = Some nb ->
      NoDup (map fst nb) /\
      forall v, In v (map fst nb) -> v <> n /\ In v (g_node G);
  sg_sym : forall u v r, edge_ref G u v = Some r ->
      edge_ref G v u = Some r /\ r < length (g_store G);
  sg_inj : forall u v u' v' r,
      edge_ref G u v = Some r -> edge_ref G u' v' = Some r ->
      (u = u' /\ v = v') \/ (u = v' /\ v = u')
}.

(** The state of the builder after the pair/type combinations [done]. *)
Record graph_inv (G : Graph) (done : list (node * node * cell)) : Prop := {
  inv_simple : simple_graph G;
  inv_attr : forall u v r a,
      edge_ref G u v = Some r -> nth_error (g_store G) r = Some a ->
      attr_ok a /\ forall d, In d (disasters a) -> recorded done u v d
}.

(** All pairs [(l[i], l[j])] with [i < j]. *)
Fixpoint pairs (l : list cell) : list (cell * cell) :=
  match l with
  | [] => []
  | x :: t => map (pair x) t ++ pairs t
  end.

(** The pair/type combinations [build_location_graph] goes through. *)
Definition work_list (df : DataFrame) : list (node * node * cell) :=
  flat_map (fun d => map (fun p => (fst p, snd p, d))
                         (pairs (affected_locations df d)))
           (unique (map disaster_type (rows df))).

Definition connect_step (G : Graph) (w : node * node * cell) : Graph :=
  match w with (u, v, d) => connect d G u v end.

(** No pair/type combination of [W] was recorded before it is reached. *)
Fixpoint fresh_from (done W : list (node * node * cell)) : Prop :=
  match W with
  | [] => True
  | (u, v, d) :: t =>
      ~ recorded done u v d /\ u <> v /\ fresh_from ((u, v, d) :: done) t
  end.

Definition upair_nodup (W : list (node * node * cell)) : Prop :=
  NoDup W /\ forall u v d, In (u, v, d) W -> ~ In (v, u, d) W.

(** Order of a sorted list, in terms of the comparison [lt] on keys:
    [asc lt x y] lets [x] stand before [y] in ascending order, [desc lt x y]
    in descending order. *)
Definition asc {A : Type} (lt : A -> A -> bool) (x y : A) : Prop :=
  lt y x = false.

Definition desc {A : Type} (lt : A -> A -> bool) (x y : A) : Prop :=
  lt x y = false.

(** Whether the loop over [centrality.items()] appends an entry. *)
Definition qualifies (levels : list (cell * fval)) (lc : node * Q) : bool :=
  match dget key_eqb levels (fst lc) with
  | Some (Some alert) => Qltb (1 # 2) (snd lc * alert)
  | _ => false
  end.

(** The endpoints of a listed edge. *)
Definition endpoints (e : node * node * EdgeAttr) : node * node :=
  (fst (fst e), snd (fst e)).

(** The sum the spread-path loop computes for an edge. *)
Definition edge_score (betweenness : list (node * Q))
    (e : node * node * EdgeAttr) : Q :=
  (dgetd betweenness (fst (fst e)) 0 + dgetd betweenness (snd (fst e)) 0)%Q.

Definition path_entry (betweenness : list (node * Q))
    (e : node * node * EdgeAttr) : SpreadPath :=
  mkPath (fst (fst e)) (snd (fst e)) (edge_score betweenness e)
         (disasters (snd e)) (weight (snd e)).

(** A record that has the three required fields. *)
Definition well_formed (r : Row) : bool :=
  is_some (location r) && is_some (disaster_type r) && is_some (alert_level r).

Definition without_malformed (df : DataFrame) : DataFrame :=
  mkDF (columns df) (filter well_formed (rows df)).

Definition isolated (G : Graph) (v : node) : Prop := neighbors G v = [].

(** [x] may stand before [y] when clusters are listed in descending order
    of the pair (size, average alert level). *)
Definition cluster_before (x y : Cluster) : Prop :=
  cluster_size y < cluster_size x \/
  (cluster_size y = cluster_size x /\
   exists a b, cluster_avg_alert_level x = Some a /\
               cluster_avg_alert_level y = Some b /\ (b <= a)%Q).

Definition has_alert_levels (df : DataFrame) : bool :=
  forallb (fun r => is_some (alert_level r)) (rows df).

(** The nodes met by the search so far are the keys of [D], once each, and
    they are nodes of the graph. *)
Definition bfs_inv (G : Graph) (st : BFS) : Prop :=
  NoDup (bS st ++ bQ st) /\
  (forall y, In y (bS st ++ bQ st) <-> In y (map fst (bD st))) /\
  (forall y, In y (map fst (bD st)) -> In y (g_node G)).

(** No cluster of the report has NaN as its average. *)
Definition averages_are_numbers (clusters : list Cluster) : bool :=
  forallb (fun c => is_some (cluster_avg_alert_level c)) clusters.

(* ------------------------------------------------------------------ *)
(** ** Sample inputs *)

Definition record (l d : string) (a : Z) : Row :=
  mkRow (Some l) (Some d) (Some (inject_Z a)).

Definition full_columns : list string :=
  ["_id"; "location"; "disaster_type"; "alert_level"; "timestamp"].

(** The scenario of the specification, section 8. *)
Definition scenario_df : DataFrame :=
  mkDF full_columns
    [record "A" "flood" 3; record "B" "flood" 4;
     record "A" "earthquake" 2; record "C" "earthquake" 5].

Definition scenario_graph : Graph :=
  mkGraph [Some "A"; Some "B"; Some "C"]
    [(Some "A", [(Some "B", 0); (Some "C", 1)]);
     (Some "B", [(Some "A", 0)]);
     (Some "C", [(Some "A", 1)])]
    [mkAttr 1 [Some "flood"]; mkAttr 1 [Some "earthquake"]].

(** One location only. *)
Definition single_df : DataFrame :=
  mkDF full_columns [record "A" "flood" 3].

(** The third document has no [disaster_type] field. *)
Definition partial_df : DataFrame :=
  mkDF full_columns
    [record "A" "flood" 3; record "B" "flood" 4;
     mkRow (Some "C") None (Some (inject_Z 5))].

(** The first document has no [location] field. *)
Definition nameless_df : DataFrame :=
  mkDF full_columns
    [mkRow None (Some "flood") (Some (inject_Z 3)); record "B" "flood" 4].

(** No document has an [alert_level] field. *)
Definition no_alert_df : DataFrame :=
  mkDF ["_id"; "location"; "disaster_type"; "timestamp"]
    [mkRow (Some "A") (Some "flood") None; mkRow (Some "B") (Some "flood") None].

(** Five locations on a path A - B - C - D - E, each link made by a
    disaster type of its own. *)
Definition path5_df : DataFrame :=
  mkDF full_columns
    [record "A" "d1" 1; record "B" "d1" 1; record "B" "d2" 1;
     record "C" "d2" 5; record "C" "d3" 5; record "D" "d3" 1;
     record "D" "d4" 1; record "E" "d4" 1].

(** Two outcomes of the shuffle: the nodes left in place, and the order
    A, C, E, B, D of the five nodes of the first level. *)
Definition order_a : nat -> nat -> list nat := fun _ n => seq 0 n.

Definition order_b : nat -> nat -> list nat :=
  fun _ n => if n =? 5 then [0; 2; 4; 1; 3] else seq 0 n.

(** Whether some cluster of a report holds both locations. *)
Definition clustered_together (r : Report) (x y : node) : bool :=
  existsb (fun c => lmem key_eqb x (cluster_locations c) &&
                    lmem key_eqb y (cluster_locations c))
          (disaster_clusters r).

(** *** Path graphs *)

(** The path on the nodes [xs], as [nx.path_graph] lays it out: node [i]
    has its predecessor and then its successor as neighbours; edge [i]
    joins the nodes [i] and [i + 1] and carries the type [ds[i]]. *)
Definition path_graph (xs : list node) (ds : list cell) : Graph :=
  let n := length xs in
  mkGraph xs
    (map (fun i =>
        (nth i xs None,
         (if 0 <? i then [(nth (i - 1) xs None, i - 1)] else []) ++
         (if i + 1 <? n then [(nth (i + 1) xs None, i)] else [])))
      (seq 0 n))
    (map (fun d => mkAttr 1 [d]) (firstn (n - 1) ds)).

(** Raw shortest-path betweenness of node [i] of a path on [n] nodes:
    the pairs of nodes it separates. *)
Definition path_raw_betweenness (n i : nat) : Q := Qnat (i * (n - 1 - i)).

(** The value networkx reports for it. *)
Definition path_betweenness_value (n i : nat) : Q :=
  (Qnat (2 * (i * (n - 1 - i))) / (Qnat (n - 1) * Qnat (n - 2)))%Q.

(** Four locations on a path A - B - C - D. *)
Definition path4_df : DataFrame :=
  mkDF full_columns
    [record "A" "d1" 1; record "B" "d1" 1; record "B" "d2" 1;
     record "C" "d2" 1; record "C" "d3" 1; record "D" "d3" 1].

Definition path4_nodes : list node :=
  [Some "A"; Some "B"; Some "C"; Some "D"].

Definition path4_types : list cell := [Some "d1"; Some "d2"; Some "d3"].

(** Three separate pairs of locations; the documents of location C have no
    [alert_level] field. *)
Definition pairs_df : DataFrame :=
  mkDF full_columns
    [record "A" "d1" 1; record "B" "d1" 1;
     mkRow (Some "C") (Some "d2") None; record "D" "d2" 1;
     record "E" "d3" 3; record "F" "d3" 3].

(* ------------------------------------------------------------------ *)
(** ** The search on a path, in terms of positions

    [xnode xs i] is the node at position [i]; the search from position [k]
    has discovered the positions [a .. b] at any time. *)

Definition xnode (xs : list node) (i : nat) : node := nth i xs None.

Definition dist (i k : nat) : nat := (i - k) + (k - i).

Definition in_range (a b i : nat) : bool := (a <=? i) && (i <=? b).

(** The predecessor list of position [i] in the search from [k]. *)
Definition path_pred (xs : list node) (k i : nat) : list node :=
  if i <? k then [xnode xs (i + 1)]
  else if k <? i then [xnode xs (i - 1)]
  else [].

Record path_core (xs : list node) (k a b : nat) (st : BFS) : Prop := {
  pc_bounds : a <= k /\ k <= b /\ b < length xs;
  pc_D : forall i, i < length xs ->
      dget key_eqb (bD st) (xnode xs i) =
      if in_range a b i then Some (dist i k) else None;
  pc_sigma : forall i, i < length xs ->
      (dgetd (bsigma st) (xnode xs i) 0 == if in_range a b i then 1 else 0)%Q;
  pc_P : forall i, i < length xs ->
      dgetd (bP st) (xnode xs i) [] =
      if in_range a b i then path_pred xs k i else [];
  pc_nodup : NoDup (bS st ++ bQ st);
  pc_elems : forall y, In y (bS st ++ bQ st) <->
      exists i, a <= i /\ i <= b /\ y = xnode xs i;
  pc_order : forall l1 l2 i,
      bS st ++ bQ st = l1 ++ l2 -> a <= i -> i <= b ->
      In (xnode xs i) l1 ->
      (i < k -> In (xnode xs (i + 1)) l1) /\
      (k < i -> In (xnode xs (i - 1)) l1)
}.

Definition path_front (xs : list node) (k a b : nat) (st : BFS) : Prop :=
  (bS st = [] /\ bQ st = [xnode xs k] /\ a = k /\ b = k) \/
  (In (xnode xs k) (bS st) /\
   (0 < k -> a < k) /\
   (k + 1 < length xs -> k < b) /\
   (forall y, In y (bQ st) -> y = xnode xs a \/ y = xnode xs b) /\
   (0 < a -> In (xnode xs a) (bQ st)) /\
   (b + 1 < length xs -> In (xnode xs b) (bQ st))).

(** The state a visit leaves when it discovers [w] from [v]. *)
Definition discover (v : node) (Dv : nat) (sigmav : Q) (st : BFS) (w : node)
  : BFS :=
  mkBFS (bS st)
        (dset key_eqb (bP st) w (dgetd (bP st) w [] ++ [v]))
        (dset key_eqb (bsigma st) w (dgetd (bsigma st) w 0%Q + sigmav)%Q)
        (dset key_eqb (bD st) w (Dv + 1))
        (bQ st ++ [w]).

(** Number of nodes behind position [i], seen from the source [k]. *)
Definition behind (n k i : nat) : nat :=
  if i <? k then i else if k <? i then n - 1 - i else 0.

(** The dependency of position [i] when the nodes [T] have been taken from
    the stack: what its children in [T] have passed on. *)
Definition partial_delta (xs : list node) (k : nat) (T : list node) (i : nat)
  : nat :=
  (if (0 <? i) && (i <=? k) && lmem key_eqb (xnode xs (i - 1)) T
   then i else 0) +
  (if (k <=? i) && (i + 1 <? length xs) && lmem key_eqb (xnode xs (i + 1)) T
   then length xs - 1 - i else 0).

(** What has been added to the betweenness of position [i] by then. *)
Definition partial_sum (xs : list node) (k : nat) (T : list node) (i : nat)
  : nat :=
  if lmem key_eqb (xnode xs i) T then behind (length xs) k i else 0.

(** The contribution of all sources to position [i]. *)
Definition total_behind (n i : nat) : nat :=
  fold_right Nat.add 0 (map (fun k => behind n k i) (seq 0 n)).

(* ------------------------------------------------------------------ *)
(** ** What the frame says about a pair of locations *)

(** Some record has location [loc] and disaster type [d]. *)
Definition has_record (df : DataFrame) (loc d : cell) : bool :=
  existsb (fun r => key_eqb (location r) loc && key_eqb (disaster_type r) d)
          (rows df).

(** The disaster types recorded for both [u] and [v].  A missing type is
    NaN, which the selection [df['disaster_type'] == disaster] never
    matches. *)
Definition shared_types (df : DataFrame) (u v : cell) : list cell :=
  filter (fun d => is_some d && has_record df u d && has_record df v d)
         (unique (map disaster_type (rows df))).

(** Every pair/type combination gone through has left its type on the edge
    of the pair. *)
Definition graph_complete (G : Graph) (done : list (node * node * cell))
  : Prop :=
  forall u v d, In (u, v, d) done ->
    exists r a, edge_ref G u v = Some r /\
                nth_error (g_store G) r = Some a /\ In d (disasters a).

(** The scenario again, its documents in another order and one of them
    stored twice. *)
Definition scenario_again_df : DataFrame :=
  mkDF full_columns
    [record "C" "earthquake" 5; record "B" "flood" 4;
     record "A" "earthquake" 2; record "B" "flood" 1;
     record "A" "flood" 3].

(* ------------------------------------------------------------------ *)
(** ** visualize_disaster_network *)

(** A comprehension whose body may raise: the list of results, or [None]
    when some element raises. *)
Fixpoint collect {X : Type} (l : list (option X)) : option (list X) :=
  match l with
  | [] => Some []
  | None :: _ => None
  | Some x :: t =>
      match collect t with Some t' => Some (x :: t') | None => None end
  end.

(** [[G[u][v]['weight'] for u, v in G.edges()]] *)
Definition edge_weights (G : Graph) : option (list Z) :=
  collect (map (fun e =>
              option_map weight (edge_attr G (fst (fst e)) (snd (fst e))))
            (edges G)).

(** [max(l)] of the non-empty list [x :: l] *)
Definition max_of (x : Z) (l : list Z) : Z := fold_left Z.max l x.

(** [w / max_weight] on two ints: a float, or [ZeroDivisionError]. *)
Definition true_div (w m : Z) : option Q :=
  if (m =? 0)%Z then None else Some (inject_Z w / inject_Z m)%Q.

(** What the function computes: the widths it hands to
    [draw_networkx_edges], one for each edge in the order of [G.edges()],
    and the file name it returns.  The layout, which is random, and the
    drawing itself are left out.  [None]: an exception escapes. *)
Definition visualize_disaster_network (G : Graph) (output_file : string)
  : option (list Q * string) :=
  match edge_weights G with
  | None => None
  | Some edge_weights =>
      let max_weight :=
        match edge_weights with
        | [] => 1%Z
        | w :: t => max_of w t
        end in
      match collect (map (fun w =>
                 option_map (fun q => (2 + 3 * q)%Q) (true_div w max_weight))
               edge_weights) with
      | None => None
      | Some normalized_weights => Some (normalized_weights, output_file)
      end
  end.

(** Two locations, each with a disaster type of its own. *)
Definition separate_df : DataFrame :=
  mkDF full_columns [record "A" "flood" 3; record "B" "earthquake" 4].

(* ------------------------------------------------------------------ *)
(** ** Predicates on the tables of the betweenness computation *)

Definition adjacent (G : Graph) (v x : node) : Prop :=
  In x (map fst (neighbors G v)).

Definition nonneg_table (d : list (node * Q)) : Prop :=
  forall k q, dget key_eqb d k = Some q -> (0 <= q)%Q.

Definition zero_at (d : list (node * Q)) (w : node) : Prop :=
  forall q, dget key_eqb d w = Some q -> (q == 0)%Q.

(** The search never records [w], whose only possible neighbour is [u],
    as a predecessor; once [w] is discovered it lies one step behind
    [u]. *)
Definition leaf_inv (u w : node) (st : BFS) : Prop :=
  (forall v, ~ In w (dgetd (bP st) v [])) /\
  (In w (map fst (bD st)) ->
   exists du, dget key_eqb (bD st) u = Some du /\
              dget key_eqb (bD st) w = Some (du + 1)).

(** The locations of the frame that share a disaster type with [v]. *)
Definition linked_locations (df : DataFrame) (v : cell) : list cell :=
  filter (fun u => negb (key_eqb u v) && nonempty (shared_types df v u))
         (unique (map location (rows df))).

(* ------------------------------------------------------------------ *)
(** ** Invariants of the Louvain method *)

(** [P] splits the nodes [V] into non-empty, pairwise disjoint parts. *)
Definition partition_of (V : list node) (P : list (list node)) : Prop :=
  NoDup (concat P) /\
  (forall x, In x (concat P) <-> In x V) /\
  Forall (fun c => c <> []) P.

(** The nodes of the input graph that node [u] of a working graph stands
    for. *)
Definition members (g : WGraph) (u : nat) : list node :=
  nth u (w_members g) [].

Record members_ok (g : WGraph) : Prop := {
  mo_adj : length (w_adj g) = length (w_members g);
  mo_disjoint : forall u u' x,
      u < length (w_members g) -> u' < length (w_members g) ->
      In x (members g u) -> In x (members g u') -> u = u';
  mo_nonempty : forall u, u < length (w_members g) -> members g u <> []
}.

(** The two partitions a level keeps agree with [node2com]. *)
Record level_inv (g : WGraph) (st : Level) : Prop := {
  li_node2com :
      length (lv_node2com st) = length (w_members g) /\
      forall u, u < length (w_members g) ->
                nth u (lv_node2com st) 0 < length (w_members g);
  li_lengths :
      length (lv_partition st) = length (w_members g) /\
      length (lv_inner st) = length (w_members g);
  li_inner : forall c, c < length (w_members g) ->
      forall u, In u (nth c (lv_inner st) []) <->
                u < length (w_members g) /\ nth u (lv_node2com st) 0 = c;
  li_partition : forall c, c < length (w_members g) ->
      NoDup (nth c (lv_partition st) []) /\
      forall x, In x (nth c (lv_partition st) []) <->
                exists u, u < length (w_members g) /\
                          nth u (lv_node2com st) 0 = c /\
                          In x (members g u)
}.

(** A community [part] is made of the node sets of the working nodes
    [inn]. *)
Definition linked (g : WGraph) (part : list node) (inn : list nat) : Prop :=
  inn <> [] /\
  (forall u, In u inn -> u < length (w_members g)) /\
  forall x, In x part <-> exists u, In u inn /\ In x (members g u).

(** The state [move_node] leaves when it moves [u] to [best_com]. *)
Definition relocate (g : WGraph) (st : Level) (u best_com : nat)
    (Stot2 : list Q) : Level :=
  let com_u := nth u (lv_node2com st) 0 in
  let com := nth u (w_members g) [] in
  let partition1 :=
    nset (lv_partition st) com_u
      (filter (fun x => negb (lmem key_eqb x com))
              (nth com_u (lv_partition st) [])) in
  let inner1 :=
    nset (lv_inner st) com_u
      (filter (fun x => negb (x =? u)) (nth com_u (lv_inner st) [])) in
  let partition2 :=
    nset partition1 best_com
      (fold_left (fun s x => set_add key_eqb x s) com
                 (nth best_com partition1 [])) in
  let inner2 :=
    nset inner1 best_com (set_add Nat.eqb u (nth best_com inner1 [])) in
  mkLevel (nset (lv_node2com st) u best_com) Stot2 partition2 inner2
          true (S (lv_nb_moves st)).

(** What [_one_level] expects of the working graph and the partition it
    is given: community [i] is the node set of working node [i]. *)
Record level_pre (V : list node) (g : WGraph) (partition : list (list node))
  : Prop := {
  lp_adj : length (w_adj g) = length (w_members g);
  lp_partition : partition_of V partition;
  lp_members :
      Forall2 (fun part mem => forall x, In x part <-> In x mem)
              partition (w_members g)
}.

(** Clusters of size [k] whose average is the number [a], or NaN when [a]
    is [None]. *)
Definition same_key (k : nat) (a : fval) (c : Cluster) : bool :=
  (cluster_size c =? k) &&
  match cluster_avg_alert_level c, a with
  | Some x, Some y => Qeq_bool x y
  | None, None => true
  | _, _ => false
  end.

(** In a search from [s] on a complete graph every node but [s] is found
    from [s], one step away. *)
Definition star_inv (s : node) (st : BFS) : Prop :=
  (forall v x, In x (dgetd (bP st) v []) -> x = s) /\
  (forall y d, dget key_eqb (bD st) y = Some d ->
               d = if key_eqb y s then 0 else 1).

(** One disaster type recorded for every location. *)
Definition everywhere (df : DataFrame) (d : cell) : Prop :=
  is_some d = true /\
  forall loc, In loc (map location (rows df)) -> has_record df loc d = true.

(** Every location hit by the same flood. *)
Definition flood_df : DataFrame :=
  mkDF full_columns
    [record "A" "flood" 3; record "B" "flood" 4; record "C" "flood" 5;
     record "D" "flood" 2].

(* ------------------------------------------------------------------ *)
(** ** The analysis on a platform

    The definitions above read a float as the rational it stands for and
    compute with exact arithmetic, and they list a set in the order of
    insertion.  Which entries pass a threshold, and in which order the
    elements of a set come out, depends on more than that: every float
    operation rounds its result, and the iteration order of a set of
    strings follows the hash seed of the process.  The definitions of this
    section repeat the analysis with both as parameters.

    A float that is a number is still the rational it stands for, so the
    comparisons [<] and [>] of floats are the exact comparisons of [Q];
    NaN is [None]. *)

(** What every run on one machine shares: the rounded operations [+], [*]
    and [/] on floats, the mean of a non-empty group of numbers as pandas
    computes it and that of a non-empty list as numpy does, and the order
    in which [list.sort] leaves a list of clusters some of whose keys
    cannot be compared (a NaN average); the sort is a function of the
    list, about which only [sort_is_permutation] is known. *)
Record Platform := mkPlatform {
  fadd : Q -> Q -> Q;
  fmul : Q -> Q -> Q;
  fdiv : Q -> Q -> Q;
  group_mean : list Q -> Q;
  array_mean : list Q -> Q;
  sort_unordered : list Cluster -> list Cluster
}.

(** What changes from one run to the next: the communities returned by
    [nx.community.louvain_communities(G)], each listed in the order in
    which [list(community)] goes through the set; the order in which
    [list(s)] goes through a set of disaster types, given in the order of
    insertion; the reading of the clock. *)
Record Run := mkRun {
  run_detect : Graph -> list (list node);
  set_order : list cell -> list cell;
  run_now : Z
}.

Definition sort_is_permutation (P : Platform) : Prop :=
  forall l, Permutation (sort_unordered P l) l.

(** [list(s)] lists the elements of the set, each once. *)
Definition set_order_is_permutation (R : Run) : Prop :=
  forall s, Permutation (set_order R s) s.

(** The literal [0.1]: the binary64 number next to one tenth.  The literal
    [0.5] is one half. *)
Definition float_0_1 : Q := 3602879701896397 # 36028797018963968.

Section OnPlatform.
Variable P : Platform.

(** [nx.degree_centrality(G)]: [s = 1.0 / (len(G) - 1.0)], then [d * s]. *)
Definition degree_centrality_fp (G : Graph) : list (node * Q) :=
  if length (g_node G) <=? 1 then map (fun n => (n, 1%Q)) (g_node G)
  else
    let s := fdiv P 1%Q (Qnat (length (g_node G)) - 1)%Q in
    map (fun n => (n, fmul P (Qnat (degree G n)) s)) (map fst (g_adj G)).

(** The body of [for w in G[v]], with [sigma[w] += sigmav] on floats. *)
Definition bfs_visit_fp (v : node) (Dv : nat) (sigmav : Q) (st : BFS)
    (w : node) : BFS :=
  let st1 :=
    if dmem key_eqb (bD st) w then st
    else mkBFS (bS st) (bP st) (bsigma st)
               (dset key_eqb (bD st) w (Dv + 1)) (bQ st ++ [w]) in
  if dgetd (bD st1) w 0 =? Dv + 1 then
    mkBFS (bS st1)
          (dset key_eqb (bP st1) w (dgetd (bP st1) w [] ++ [v]))
          (dset key_eqb (bsigma st1) w
             (fadd P (dgetd (bsigma st1) w 0%Q) sigmav))
          (bD st1) (bQ st1)
  else st1.

Fixpoint bfs_loop_fp (fuel : nat) (G : Graph) (st : BFS) : BFS :=
  match fuel with
  | O => st
  | S fuel' =>
      match bQ st with
      | [] => st
      | v :: q =>
          let st1 := mkBFS (bS st ++ [v]) (bP st) (bsigma st) (bD st) q in
          bfs_loop_fp fuel' G
            (fold_left
               (bfs_visit_fp v (dgetd (bD st) v 0) (dgetd (bsigma st) v 0%Q))
               (map fst (neighbors G v)) st1)
      end
  end.

Definition single_source_shortest_path_basic_fp (G : Graph) (s : node)
  : BFS :=
  let P0 := map (fun v => (v, @nil node)) (g_node G) in
  let sigma0 := dset key_eqb (map (fun v => (v, 0%Q)) (g_node G)) s 1%Q in
  bfs_loop_fp (length (g_node G)) G (mkBFS [] P0 sigma0 [(s, 0)] [s]).

(** One round of [while S] in [_accumulate_basic]:
    [coeff = (1 + delta[w]) / sigma[w]], [delta[v] += sigma[v] * coeff],
    and [betweenness[w] += delta[w]] if [w != s]. *)
Definition accumulate_step_fp (Pr : list (node * list node))
    (sigma : list (node * Q)) (s : node)
    (acc : list (node * Q) * list (node * Q)) (w : node)
  : list (node * Q) * list (node * Q) :=
  let (betweenness, delta) := acc in
  let coeff := fdiv P (fadd P 1%Q (dgetd delta w 0%Q)) (dgetd sigma w 0%Q) in
  let delta' :=
    fold_left (fun dl v =>
        dset key_eqb dl v
          (fadd P (dgetd dl v 0%Q) (fmul P (dgetd sigma v 0%Q) coeff)))
      (dgetd Pr w []) delta in
  if cell_eqb w s then (betweenness, delta')
  else (dset key_eqb betweenness w
          (fadd P (dgetd betweenness w 0%Q) (dgetd delta' w 0%Q)), delta').

Definition accumulate_basic_fp (betweenness : list (node * Q)) (b : BFS)
    (s : node) : list (node * Q) * list (node * Q) :=
  let delta := map (fun v => (v, 0%Q)) (bS b) in
  fold_left (accumulate_step_fp (bP b) (bsigma b) s) (rev (bS b))
            (betweenness, delta).

Definition brandes_sums_fp (G : Graph) : list (node * Q) :=
  fold_left (fun betweenness s =>
      fst (accumulate_basic_fp betweenness
             (single_source_shortest_path_basic_fp G s) s))
    (g_node G) (map (fun v => (v, 0%Q)) (g_node G)).

(** [_rescale] as [nx.betweenness_centrality(G)] calls it:
    [scale = 1 / ((n - 1) * (n - 2))] for [n > 2], the product being one of
    integers, and [betweenness[v] *= scale]. *)
Definition rescale_fp (betweenness : list (node * Q)) (n : nat)
  : list (node * Q) :=
  if n <=? 2 then betweenness
  else
    let scale := fdiv P 1%Q (Qnat ((n - 1) * (n - 2))) in
    map (fun p => (fst p, fmul P (snd p) scale)) betweenness.

(** [nx.betweenness_centrality(G)] *)
Definition betweenness_centrality_fp (G : Graph) : list (node * Q) :=
  rescale_fp (brandes_sums_fp G) (length (g_node G)).

(** [Series.mean()] of the numbers of one group; NaN for a group without
    numbers. *)
Definition mean_fp (l : list Q) : fval :=
  match l with
  | [] => None
  | _ => Some (group_mean P l)
  end.

Definition alert_levels_fp (df : DataFrame) : list (cell * fval) :=
  map (fun loc => (loc, mean_fp (group_alerts df loc)))
      (filter is_some (unique (map location (rows df)))).

(** [df.groupby('location')['alert_level'].mean().to_dict()]; [None] is
    the [KeyError] raised when the frame has no column of that name. *)
Definition loc_alert_levels (df : DataFrame) : option (list (cell * fval)) :=
  if has_column df "location" && has_column df "alert_level"
  then Some (alert_levels_fp df)
  else None.

(** The loop over [centrality.items()]: [risk_score = cent * alert], a NaN
    mean makes it NaN, and [NaN > 0.5] is false. *)
Definition risk_candidates_fp (centrality : list (node * Q))
    (levels : list (cell * fval)) : list RiskEntry :=
  flat_map (fun lc =>
      let (loc, cent) := (lc : node * Q) in
      match dget key_eqb levels loc with
      | Some (Some alert) =>
          let score := fmul P cent alert in
          if Qltb (1 # 2) score then [mkRisk loc cent alert score] else []
      | Some None => []
      | None => []
      end)
    centrality.

(** [np.mean] of a list of floats: NaN as soon as one of them is. *)
Definition np_mean_fp (l : list fval) : fval :=
  match all_numbers l with
  | Some [] => None
  | Some qs => Some (array_mean P qs)
  | None => None
  end.

Definition cluster_candidates_fp (communities : list (list node))
    (levels : list (cell * fval)) : list Cluster :=
  flat_map (fun ic =>
      let (i, community_list) := (ic : nat * list node) in
      if 1 <? length community_list then
        [mkCluster i community_list (length community_list)
           (np_mean_fp (map (member_alert levels) community_list))]
      else [])
    (enumerate_from 0 communities).

(** [results['disaster_clusters'].sort(key=..., reverse=True)]: the stable
    descending sort when every average is a number. *)
Definition sort_clusters (l : list Cluster) : list Cluster :=
  if averages_are_numbers l then sort_reverse cluster_key_ltb l
  else sort_unordered P l.

(** The loop over [G.edges(data=True)]. *)
Definition path_candidates_fp (R : Run) (G : Graph)
    (betweenness : list (node * Q)) : list SpreadPath :=
  flat_map (fun e =>
      match e with
      | (u, v, data) =>
          let edge_betweenness :=
            fadd P (dgetd betweenness u 0%Q) (dgetd betweenness v 0%Q) in
          if Qltb float_0_1 edge_betweenness then
            [mkPath u v edge_betweenness (set_order R (disasters data))
                    (weight data)]
          else []
      end)
    (edges G).

(** [analyze_disaster_spread(G, df)] in run [R]. *)
Definition analyze_disaster_spread_fp (R : Run) (G : Graph) (df : DataFrame)
  : option Results :=
  let centrality := degree_centrality_fp G in
  let betweenness := betweenness_centrality_fp G in
  let communities := run_detect R G in
  match loc_alert_levels df with
  | None => None
  | Some levels =>
      Some (mkResults
        (sort_reverse (key_lt risk_score)
           (risk_candidates_fp centrality levels))
        (sort_clusters (cluster_candidates_fp communities levels))
        (sort_reverse (key_lt path_betweenness)
           (path_candidates_fp R G betweenness)))
  end.

(** [generate_link_analysis_report()] in run [R], on the frame that
    [fetch_disaster_data] returned. *)
Definition generate_link_analysis_report_fp (R : Run) (df : DataFrame)
  : option Outcome :=
  if df_empty df then Some (Message "No disaster data available for analysis.")
  else
    let missing_columns :=
      filter (fun col => negb (has_column df col)) required_columns in
    match missing_columns with
    | _ :: _ =>
        Some (Message (String.append "Missing required columns: "
                                     (repr_list missing_columns)))
    | [] =>
        match build_location_graph df with
        | None => None
        | Some G =>
            match analyze_disaster_spread_fp R G df with
            | None => None
            | Some analysis_results =>
                Some (Generated (mkReport (run_now R)
                  (length (unique (map location (rows df))))
                  (unique (map disaster_type (rows df)))
                  (firstn 5 (res_high_risk_locations analysis_results))
                  (res_disaster_clusters analysis_results)
                  (firstn 10 (res_potential_spread_paths analysis_results))
                  "disaster_network.png"))
            end
        end
    end.

(** Whether the risk loop appends an entry for an item of the centrality
    table. *)
Definition qualifies_fp (levels : list (cell * fval)) (lc : node * Q)
  : bool :=
  match dget key_eqb levels (fst lc) with
  | Some (Some alert) => Qltb (1 # 2) (fmul P (snd lc) alert)
  | _ => false
  end.

(** The sum the spread-path loop computes for an edge. *)
Definition edge_score_fp (betweenness : list (node * Q))
    (e : node * node * EdgeAttr) : Q :=
  fadd P (dgetd betweenness (fst (fst e)) 0%Q)
         (dgetd betweenness (snd (fst e)) 0%Q).

Definition path_entry_fp (R : Run) (betweenness : list (node * Q))
    (e : node * node * EdgeAttr) : SpreadPath :=
  mkPath (fst (fst e)) (snd (fst e)) (edge_score_fp betweenness e)
         (set_order R (disasters (snd e))) (weight (snd e)).

End OnPlatform.

(** Two spread paths that differ at most in the order in which the shared
    disaster types are listed. *)
Definition same_path (p q : SpreadPath) : Prop :=
  path_from p = path_from q /\ path_to p = path_to q /\
  path_betweenness p = path_betweenness q /\
  Permutation (path_shared_disasters p) (path_shared_disasters q) /\
  path_connection_strength p = path_connection_strength q.

(* ------------------------------------------------------------------ *)
(** ** Two platforms *)

(** Rounding to the nearest binary64 number, ties to even (IEEE 754):
    [k] is the binary exponent of [|q|], [e] that of the last place of the
    53-bit significand, not below that of the subnormal numbers.  Overflow
    is not modelled. *)
Definition round64 (q : Q) : Q :=
  let n := Qnum q in
  let d := Zpos (Qden q) in
  if (n =? 0)%Z then 0%Q
  else
    let a := Z.abs n in
    let k0 := (Z.log2 a - Z.log2 d)%Z in
    let below :=
      if (0 <=? k0)%Z then (a <? d * 2 ^ k0)%Z
      else (a * 2 ^ (- k0) <? d)%Z in
    let k := if below then (k0 - 1)%Z else k0 in
    let e := Z.max (k - 52) (-1074) in
    let num := if (0 <=? e)%Z then a else (a * 2 ^ (- e))%Z in
    let den := if (0 <=? e)%Z then (d * 2 ^ e)%Z else d in
    let m := (num / den)%Z in
    let r := (num mod den)%Z in
    let m' :=
      if (2 * r <? den)%Z then m
      else if (den <? 2 * r)%Z then (m + 1)%Z
      else if Z.even m then m else (m + 1)%Z in
    let v := (Z.sgn n * m')%Z in
    Qred (if (0 <=? e)%Z then inject_Z (v * 2 ^ e)
          else Qmake v (Z.to_pos (2 ^ (- e)))).

(** Binary64 arithmetic, for the examples.  The two means add the numbers
    from left to right and divide by their count, which is the result of
    the libraries whenever no partial sum is rounded, as with alert levels
    that are small integers.  A list with a NaN key is sorted by insertion
    as above; [list.sort] does the same on the examples given here, where
    it finds the list to be a single run, and need not on other lists. *)
Definition binary64 : Platform :=
  let add x y := round64 (x + y) in
  let div x y := round64 (x / y) in
  let mean l := div (fold_left add l 0%Q) (Qnat (length l)) in
  mkPlatform add (fun x y => round64 (x * y)) div mean mean
             (sort_reverse cluster_key_ltb).

(** The platform [P] with another outcome of the sort of a list with a
    NaN key. *)
Definition with_sort (P : Platform) (srt : list Cluster -> list Cluster)
  : Platform :=
  mkPlatform (fadd P) (fmul P) (fdiv P) (group_mean P) (array_mean P) srt.

(** Arithmetic without rounding. *)
Definition exact : Platform :=
  let mean l := (Qsum l / Qnat (length l))%Q in
  mkPlatform Qplus Qmult Qdiv mean mean (sort_reverse cluster_key_ltb).

(** The run in which the detector answers [detect], sets are listed in the
    order of insertion and the clock reads [now]. *)
Definition plain_run (detect : Graph -> list (list node)) (now : Z) : Run :=
  mkRun detect (fun s => s) now.

(** The same with every set listed in the reverse order. *)
Definition reversing_run (detect : Graph -> list (list node)) (now : Z)
  : Run :=
  mkRun detect (@rev cell) now.

(* ------------------------------------------------------------------ *)
(** ** Sample inputs on which rounding decides *)

(** Eleven locations.  L0 shares one disaster type with each of L1, L2 and
    L3 and has the alert levels 1, 2 and 2; the others share none. *)
Definition tenths_df : DataFrame :=
  mkDF full_columns
    [record "L0" "flood" 1; record "L1" "flood" 1;
     record "L0" "fire" 2; record "L2" "fire" 1;
     record "L0" "storm" 2; record "L3" "storm" 1;
     record "L4" "t4" 1; record "L5" "t5" 1; record "L6" "t6" 1;
     record "L7" "t7" 1; record "L8" "t8" 1; record "L9" "t9" 1;
     record "L10" "t10" 1].

(** Sixteen locations.  Seven disaster types, each shared by two
    locations, join L0 .. L6 into a ring of six with L4 hanging on L0;
    the other nine locations share none. *)
Definition ring_df : DataFrame :=
  mkDF full_columns
    [record "L0" "d1" 1; record "L1" "d1" 1;
     record "L0" "d2" 1; record "L2" "d2" 1;
     record "L0" "d3" 1; record "L4" "d3" 1;
     record "L1" "d4" 1; record "L5" "d4" 1;
     record "L2" "d5" 1; record "L6" "d5" 1;
     record "L3" "d6" 1; record "L5" "d6" 1;
     record "L3" "d7" 1; record "L6" "d7" 1;
     record "L7" "t7" 1; record "L8" "t8" 1; record "L9" "t9" 1;
     record "L10" "t10" 1; record "L11" "t11" 1; record "L12" "t12" 1;
     record "L13" "t13" 1; record "L14" "t14" 1; record "L15" "t15" 1].

(** A and B share two disaster types, B and C one. *)
Definition twice_df : DataFrame :=
  mkDF full_columns
    [record "A" "flood" 3; record "B" "flood" 4;
     record "A" "earthquake" 2; record "B" "earthquake" 5;
     record "B" "fire" 1; record "C" "fire" 2].

(** Six locations hit by the same flood. *)
Definition six_df : DataFrame :=
  mkDF full_columns
    [record "A" "flood" 3; record "B" "flood" 4; record "C" "flood" 5;
     record "D" "flood" 2; record "E" "flood" 1; record "F" "flood" 1].

(* ================================================================== *)
(** * Properties *)

(** ** Keys, membership and [unique] *)

Lemma key_eqb_eq (a b : cell) : key_eqb a b = true <-> a = b.
Proof.
  destruct a as [x|], b as [y|]; simpl; split; intro H;
    try discriminate; try reflexivity.
  - apply String.eqb_eq in H. now subst.
  - inversion H. apply String.eqb_refl.
Qed.

Lemma key_eqb_refl (a : cell) : key_eqb a a = true.
Proof. now apply key_eqb_eq. Qed.

(** Away from NaN the comparison of two values is the identity of keys. *)
Lemma cell_eqb_key (a b : cell) : a <> None -> cell_eqb a b = key_eqb a b.
Proof. destruct a as [x|], b as [y|]; simpl; intro H; congruence. Qed.

Lemma cell_eqb_None (b : cell) : cell_eqb None b = false.
Proof. reflexivity. Qed.

Lemma key_eqb_neq (a b : cell) : key_eqb a b = false <-> a <> b.
Proof.
  split.
  - intros H E. apply key_eqb_eq in E. congruence.
  - intro H. destruct (key_eqb a b) eqn:E; [|reflexivity].
    apply key_eqb_eq in E. contradiction.
Qed.


Lemma cell_eq_dec (a b : cell) : {a = b} + {a <> b}.
Proof.
  destruct (key_eqb a b) eqn:E.
  - left. now apply key_eqb_eq.
  - right. now apply key_eqb_neq.
Defined.

Ltac key_cases a b :=
  let E := fresh "E" in
  destruct (key_eqb a b) eqn:E;
  [apply key_eqb_eq in E; try subst | apply key_eqb_neq in E].

Ltac key_dec a b :=
  let E := fresh "E" in
  destruct (key_eqb a b) eqn:E;
  [apply key_eqb_eq in E | apply key_eqb_neq in E].

Lemma lmem_In (x : cell) (l : list cell) : lmem key_eqb x l = true <-> In x l.
Proof.
  induction l as [|y t IH]; simpl.
  - split; [discriminate | contradiction].
  - rewrite orb_true_iff, IH, key_eqb_eq. intuition congruence.
Qed.

Lemma lmem_not_In (x : cell) (l : list cell) :
  lmem key_eqb x l = false <-> ~ In x l.
Proof.
  rewrite <- lmem_In. destruct (lmem key_eqb x l); intuition congruence.
Qed.

Lemma lmem_string_In (x : string) (l : list string) :
  lmem String.eqb x l = true <-> In x l.
Proof.
  induction l as [|y t IH]; simpl.
  - split; [discriminate | contradiction].
  - rewrite orb_true_iff, IH, String.eqb_eq. intuition congruence.
Qed.

Lemma unique_from_In (l seen : list cell) (x : cell) :
  In x (unique_from seen l) <-> In x l /\ ~ In x seen.
Proof.
  revert seen. induction l as [|y t IH]; intro seen; simpl.
  - tauto.
  - destruct (lmem key_eqb y seen) eqn:E.
    + apply lmem_In in E. rewrite IH. intuition congruence.
    + apply lmem_not_In in E. simpl. rewrite IH. simpl.
      destruct (cell_eq_dec y x); intuition congruence.
Qed.

Lemma unique_from_NoDup (l seen : list cell) : NoDup (unique_from seen l).
Proof.
  revert seen. induction l as [|y t IH]; intro seen; simpl.
  - constructor.
  - destruct (lmem key_eqb y seen); [apply IH|].
    constructor; [|apply IH].
    rewrite unique_from_In. simpl. tauto.
Qed.

Lemma unique_In (l : list cell) (x : cell) : In x (unique l) <-> In x l.
Proof. unfold unique. rewrite unique_from_In. simpl. tauto. Qed.

Lemma unique_NoDup (l : list cell) : NoDup (unique l).
Proof. apply unique_from_NoDup. Qed.

(** ** Dictionaries keyed by nodes *)

Section NodeDict.
Variable V : Type.
Implicit Types (d : list (node * V)) (k : node) (v : V).

Lemma dget_dset d k v k' :
  dget key_eqb (dset key_eqb d k v) k' =
  if key_eqb k' k then Some v else dget key_eqb d k'.
Proof.
  induction d as [|[k0 v0] t IH]; simpl.
  - reflexivity.
  - key_cases k k0; simpl.
    + key_cases k' k0; reflexivity.
    + rewrite IH. key_cases k' k0; [|reflexivity].
      key_cases k0 k; [contradiction | reflexivity].
Qed.

Lemma dget_None_keys d k :
  dget key_eqb d k = None <-> ~ In k (map fst d).
Proof.
  induction d as [|[k0 v0] t IH]; simpl.
  - tauto.
  - key_cases k k0.
    + split; [discriminate | intro H; exfalso; apply H; now left].
    + rewrite IH. intuition congruence.
Qed.

Lemma dget_Some_In d k v : dget key_eqb d k = Some v -> In (k, v) d.
Proof.
  induction d as [|[k0 v0] t IH]; simpl; [discriminate|].
  key_cases k k0.
  - intro H. inversion H. now left.
  - intro H. right. now apply IH.
Qed.

Lemma In_dget d k v :
  NoDup (map fst d) -> In (k, v) d -> dget key_eqb d k = Some v.
Proof.
  induction d as [|[k0 v0] t IH]; simpl; [contradiction|].
  intros ND [H|H].
  - inversion H; subst. now rewrite key_eqb_refl.
  - inversion ND as [|? ? Hn ND']; subst.
    key_cases k k0.
    + exfalso. apply Hn. change k0 with (fst (k0, v)). now apply in_map.
    + now apply IH.
Qed.

Lemma dset_keys_present d k v :
  In k (map fst d) -> map fst (dset key_eqb d k v) = map fst d.
Proof.
  induction d as [|[k0 v0] t IH]; simpl; [contradiction|].
  intros H. key_cases k k0; simpl; [reflexivity|].
  f_equal. apply IH. destruct H; congruence.
Qed.

Lemma dset_keys_absent d k v :
  ~ In k (map fst d) -> map fst (dset key_eqb d k v) = map fst d ++ [k].
Proof.
  induction d as [|[k0 v0] t IH]; simpl; [reflexivity|].
  intros H. key_cases k k0; simpl.
  - exfalso. apply H. now left.
  - f_equal. apply IH. tauto.
Qed.


End NodeDict.

Arguments dget_dset {V}.
Arguments dget_None_keys {V}.
Arguments dget_Some_In {V}.
Arguments In_dget {V}.
Arguments dset_keys_present {V}.
Arguments dset_keys_absent {V}.

(** ** The adjacency structure *)

Lemma dset_keys_In {V : Type} (d : list (node * V)) k v x :
  In x (map fst (dset key_eqb d k v)) <-> x = k \/ In x (map fst d).
Proof.
  destruct (in_dec cell_eq_dec k (map fst d)) as [H|H].
  - rewrite dset_keys_present by assumption. intuition congruence.
  - rewrite dset_keys_absent by assumption. rewrite in_app_iff. simpl.
    intuition congruence.
Qed.

Lemma dset_keys_NoDup {V : Type} (d : list (node * V)) k v :
  NoDup (map fst d) -> NoDup (map fst (dset key_eqb d k v)).
Proof.
  intro ND. destruct (in_dec cell_eq_dec k (map fst d)) as [H|H].
  - now rewrite dset_keys_present.
  - rewrite dset_keys_absent by assumption.
    apply NoDup_app; [assumption | repeat constructor; auto | ].
    intros x Hx [Hk|[]]. subst. contradiction.
Qed.

Lemma set_nbr_keys adj u v r : map fst (set_nbr adj u v r) = map fst adj.
Proof.
  unfold set_nbr. destruct (dget key_eqb adj u) as [nb|] eqn:E; [|reflexivity].
  apply dset_keys_present. apply dget_Some_In in E.
  change u with (fst (u, nb)). now apply in_map.
Qed.

Lemma dget_set_nbr adj u v r nb n :
  dget key_eqb adj u = Some nb ->
  dget key_eqb (set_nbr adj u v r) n =
  if key_eqb n u then Some (dset key_eqb nb v r) else dget key_eqb adj n.
Proof.
  intro E. unfold set_nbr. rewrite E. apply dget_dset.
Qed.

Lemma adj_ref_set_nbr adj u v r u' v' :
  In u (map fst adj) ->
  adj_ref (set_nbr adj u v r) u' v' =
  if key_eqb u' u && key_eqb v' v then Some r else adj_ref adj u' v'.
Proof.
  intro Hu. destruct (dget key_eqb adj u) as [nb|] eqn:E.
  - unfold adj_ref. rewrite (dget_set_nbr _ _ _ _ nb) by assumption.
    key_cases u' u; simpl.
    + rewrite dget_dset, E. reflexivity.
    + reflexivity.
  - apply dget_None_keys in E. contradiction.
Qed.

Lemma add_node_present G n : In n (g_node G) -> add_node G n = G.
Proof.
  intro H. unfold add_node. apply lmem_In in H. now rewrite H.
Qed.

Lemma store_update_length s r f : length (store_update s r f) = length s.
Proof.
  revert r. induction s as [|a t IH]; intros [|r]; simpl; auto.
Qed.

Lemma store_update_same s r f a :
  nth_error s r = Some a -> nth_error (store_update s r f) r = Some (f a).
Proof.
  revert r. induction s as [|b t IH]; intros [|r]; simpl; try discriminate.
  - intro H. now inversion H.
  - apply IH.
Qed.

Lemma store_update_other s r f r' :
  r' <> r -> nth_error (store_update s r f) r' = nth_error s r'.
Proof.
  revert r r'. induction s as [|b t IH]; intros [|r] [|r'] H; simpl; auto.
  contradiction.
Qed.

Lemma set_add_fresh (d : cell) (s : list cell) :
  ~ In d s -> set_add key_eqb d s = s ++ [d].
Proof.
  intro H. unfold set_add. apply lmem_not_In in H. now rewrite H.
Qed.

Lemma attr_ok_first (d : cell) : attr_ok (mkAttr 1 [d]).
Proof.
  unfold attr_ok. simpl. repeat split; try lia.
  constructor; [intros [] | constructor].
Qed.

Lemma attr_ok_bump (a : EdgeAttr) (d : cell) :
  attr_ok a -> ~ In d (disasters a) ->
  attr_ok (mkAttr (weight a + 1) (set_add key_eqb d (disasters a))).
Proof.
  intros (Hw & Hn & H1) Hd. unfold attr_ok. simpl.
  rewrite set_add_fresh by assumption. rewrite length_app. simpl.
  repeat split; try lia.
  apply NoDup_app; [assumption | repeat constructor; auto | ].
  intros x Hx [E|[]]. subst. contradiction.
Qed.

Lemma recorded_cons done u v d w :
  recorded done u v d -> recorded (w :: done) u v d.
Proof. unfold recorded. simpl. tauto. Qed.

Lemma recorded_sym done u v d : recorded done u v d -> recorded done v u d.
Proof. unfold recorded. tauto. Qed.

(** ** One step of the builder keeps the invariant *)

Lemma bump_edge_inv G done u v d r :
  graph_inv G done ->
  edge_ref G u v = Some r ->
  ~ recorded done u v d ->
  graph_inv (bump_edge G u v d) ((u, v, d) :: done).
Proof.
  intros [[Hk Hnd Hnb Hsym Hinj] Hattr] Hr Hfresh.
  unfold bump_edge. rewrite Hr.
  split; [split|]; simpl; try assumption.
  - intros u0 v0 r0 H0. unfold edge_ref in *. simpl in *.
    rewrite store_update_length. now apply Hsym.
  - intros u0 v0 r0 a0 H0 Hn. unfold edge_ref in *. simpl in *.
    destruct (Nat.eq_dec r0 r) as [->|Hne].
    + destruct (Hsym _ _ _ Hr) as [_ Hlt].
      destruct (nth_error (g_store G) r) as [a|] eqn:Ea.
      2:{ apply nth_error_None in Ea. lia. }
      rewrite (store_update_same _ _ _ a) in Hn by assumption.
      inversion Hn; subst a0; clear Hn.
      destruct (Hattr _ _ _ _ Hr Ea) as [Hok Hrec].
      assert (Hd : ~ In d (disasters a)) by (intro Hin; apply Hfresh; auto).
      split; [now apply attr_ok_bump|].
      simpl. rewrite set_add_fresh by assumption.
      intros d0 Hd0. apply in_app_or in Hd0.
      destruct (Hinj _ _ _ _ _ Hr H0) as [[-> ->]|[-> ->]].
      * destruct Hd0 as [Hd0|[<-|[]]].
        -- apply recorded_cons. auto.
        -- left. now left.
      * destruct Hd0 as [Hd0|[<-|[]]].
        -- apply recorded_cons, recorded_sym. auto.
        -- right. now left.
    + rewrite store_update_other in Hn by assumption.
      destruct (Hattr _ _ _ _ H0 Hn) as [Hok Hrec].
      split; [assumption|]. intros d0 Hd0. apply recorded_cons. auto.
Qed.

Lemma add_edge_inv G done u v d :
  graph_inv G done ->
  In u (g_node G) -> In v (g_node G) -> u <> v ->
  edge_ref G u v = None ->
  graph_inv (add_edge G u v (mkAttr 1 [d])) ((u, v, d) :: done).
Proof.
  intros [[Hk Hnd Hnb Hsym Hinj] Hattr] Hu Hv Huv Hr.
  unfold add_edge.
  rewrite (add_node_present G u) by assumption.
  rewrite (add_node_present G v) by assumption.
  rewrite Hr.
  set (r := length (g_store G)).
  assert (Hku : In u (map fst (g_adj G))) by now rewrite Hk.
  assert (Hkv : In v (map fst (set_nbr (g_adj G) u v r)))
    by now rewrite set_nbr_keys, Hk.
  assert (Href : forall u' v',
    adj_ref (set_nbr (set_nbr (g_adj G) u v r) v u r) u' v' =
    if key_eqb u' v && key_eqb v' u then Some r
    else if key_eqb u' u && key_eqb v' v then Some r
    else edge_ref G u' v').
  { intros. rewrite adj_ref_set_nbr by assumption.
    rewrite adj_ref_set_nbr by assumption. reflexivity. }
  assert (Hold : forall u' v' r', edge_ref G u' v' = Some r' -> r' <> r).
  { intros u' v' r' H. apply Hsym in H. unfold r. lia. }
  assert (Hcase : forall u' v' r',
    adj_ref (set_nbr (set_nbr (g_adj G) u v r) v u r) u' v' = Some r' ->
    (r' = r /\ ((u' = u /\ v' = v) \/ (u' = v /\ v' = u))) \/
    (r' <> r /\ edge_ref G u' v' = Some r')).
  { intros u' v' r' H. rewrite Href in H.
    destruct (key_eqb u' v && key_eqb v' u) eqn:E1.
    - apply andb_true_iff in E1. destruct E1 as [A B].
      apply key_eqb_eq in A, B. inversion H. left. auto.
    - destruct (key_eqb u' u && key_eqb v' v) eqn:E2.
      + apply andb_true_iff in E2. destruct E2 as [A B].
        apply key_eqb_eq in A, B. inversion H. left. auto.
      + right. split; [eapply Hold; eauto | assumption]. }
  split; [split|]; simpl.
  - now rewrite !set_nbr_keys.
  - assumption.
  - intros n nb Hn.
    destruct (dget key_eqb (g_adj G) u) as [nbu|] eqn:Eu.
    2:{ apply dget_None_keys in Eu. contradiction. }
    destruct (dget key_eqb (g_adj G) v) as [nbv|] eqn:Ev.
    2:{ apply dget_None_keys in Ev. rewrite Hk in Ev. contradiction. }
    assert (Ev1 : dget key_eqb (set_nbr (g_adj G) u v r) v = Some nbv).
    { rewrite (dget_set_nbr _ _ _ _ nbu) by assumption.
      key_dec v u; [congruence | assumption]. }
    rewrite (dget_set_nbr _ _ _ _ nbv) in Hn by assumption.
    key_dec n v; [subst n|].
    + inversion Hn; subst nb; clear Hn.
      destruct (Hnb _ _ Ev) as [N1 N2]. split.
      * now apply dset_keys_NoDup.
      * intros x Hx. apply dset_keys_In in Hx.
        destruct Hx as [->|Hx]; [split; [congruence|assumption] | auto].
    + rewrite (dget_set_nbr _ _ _ _ nbu) in Hn by assumption.
      key_dec n u; [subst n|].
      * inversion Hn; subst nb; clear Hn.
        destruct (Hnb _ _ Eu) as [N1 N2]. split.
        -- now apply dset_keys_NoDup.
        -- intros x Hx. apply dset_keys_In in Hx.
           destruct Hx as [->|Hx]; [split; [congruence|assumption] | auto].
      * now apply Hnb.
  - intros u' v' r' H. unfold edge_ref in *. simpl in *.
    rewrite length_app. simpl.
    destruct (Hcase _ _ _ H) as [[-> Hc]|[Hne Hc]].
    + split; [|fold r; lia]. rewrite Href.
      destruct Hc as [[-> ->]|[-> ->]]; rewrite !key_eqb_refl; simpl.
      * reflexivity.
      * key_dec u v; [contradiction|]. simpl. reflexivity.
    + destruct (Hsym _ _ _ Hc) as [Hs Hl]. split; [|lia].
      rewrite Href.
      destruct (key_eqb v' v && key_eqb u' u) eqn:E1.
      * apply andb_true_iff in E1. destruct E1 as [A B].
        apply key_eqb_eq in A, B. subst. congruence.
      * destruct (key_eqb v' u && key_eqb u' v) eqn:E2; [|assumption].
        apply andb_true_iff in E2. destruct E2 as [A B].
        apply key_eqb_eq in A, B. subst. congruence.
  - intros u1 v1 u2 v2 r' H1 H2. unfold edge_ref in *. simpl in *.
    destruct (Hcase _ _ _ H1) as [[-> Hc1]|[Hne1 Hc1]];
      destruct (Hcase _ _ _ H2) as [[E2 Hc2]|[Hne2 Hc2]];
      try congruence.
    + destruct Hc1 as [[-> ->]|[-> ->]];
        destruct Hc2 as [[-> ->]|[-> ->]]; auto.
    + eapply Hinj; eauto.
  - intros u' v' r' a H Hn. unfold edge_ref in *. simpl in *.
    destruct (Hcase _ _ _ H) as [[-> Hc]|[Hne Hc]].
    + rewrite nth_error_app2 in Hn by (unfold r; lia).
      unfold r in Hn. rewrite Nat.sub_diag in Hn. simpl in Hn.
      inversion Hn; subst a; clear Hn.
      split; [apply attr_ok_first|].
      simpl. intros d0 [<-|[]].
      destruct Hc as [[-> ->]|[-> ->]]; [left | right]; now left.
    + destruct (Hsym _ _ _ Hc) as [_ Hl].
      rewrite nth_error_app1 in Hn by assumption.
      destruct (Hattr _ _ _ _ Hc Hn) as [Hok Hrec].
      split; [assumption|]. intros d0 Hd0. apply recorded_cons. auto.
Qed.

(** ** The loops of [build_location_graph] *)

Lemma skipn_nth_cons {X : Type} (l : list X) (a : nat) (d : X) :
  a < length l -> skipn a l = nth a l d :: skipn (S a) l.
Proof.
  revert a. induction l as [|x t IH]; intros [|a] H; simpl in *; try lia.
  - reflexivity.
  - apply IH. lia.
Qed.

Lemma range_loop {X S : Type} (f : S -> X -> S) (l : list X) (d : X) k :
  forall a s, a + k <= length l ->
  fold_left (fun s j => f s (nth j l d)) (seq a k) s =
  fold_left f (firstn k (skipn a l)) s.
Proof.
  induction k as [|k IH]; intros a s H; simpl; [reflexivity|].
  rewrite (skipn_nth_cons l a d) by lia. simpl.
  apply IH. lia.
Qed.

Lemma inner_loop {X S : Type} (f : S -> X -> S) (l : list X) (d : X) i s :
  fold_left (fun s j => f s (nth j l d)) (seq (i + 1) (length l - (i + 1))) s =
  fold_left f (skipn (i + 1) l) s.
Proof.
  destruct (Nat.le_gt_cases (length l) (i + 1)) as [H|H].
  - replace (length l - (i + 1)) with 0 by lia. simpl.
    now rewrite skipn_all2.
  - rewrite range_loop by lia. f_equal.
    apply firstn_all2. rewrite length_skipn. lia.
Qed.

Lemma pair_loop (c : Graph -> node -> node -> Graph) (L : list cell) :
  forall t pre G, L = pre ++ t ->
  fold_left (fun G i =>
      fold_left (fun G j => c G (nth i L None) (nth j L None))
        (seq (i + 1) (length L - (i + 1))) G)
    (seq (length pre) (length t)) G =
  fold_left (fun G p => c G (fst p) (snd p)) (pairs t) G.
Proof.
  induction t as [|x t IH]; intros pre G EL; simpl; [reflexivity|].
  rewrite fold_left_app.
  rewrite (inner_loop (fun G y => c G (nth (length pre) L None) y)).
  assert (Ex : nth (length pre) L None = x) by (subst L; apply nth_middle).
  assert (Et : skipn (length pre + 1) L = t).
  { subst L. rewrite skipn_app. rewrite skipn_all2 by lia.
    replace (length pre + 1 - length pre) with 1 by lia. reflexivity. }
  rewrite Ex, Et.
  replace (fold_left (fun G p => c G (fst p) (snd p)) (map (pair x) t) G)
    with (fold_left (fun G y => c G x y) t G).
  2:{ clear. revert G. induction t as [|y t IH]; intro G; simpl; auto. }
  assert (EL' : L = (pre ++ [x]) ++ t) by (rewrite <- app_assoc; exact EL).
  specialize (IH (pre ++ [x]) (fold_left (fun G y => c G x y) t G) EL').
  rewrite length_app in IH. simpl in IH.
  rewrite Nat.add_1_r in IH. exact IH.
Qed.

Lemma connect_all_pairs d affected G :
  connect_all d affected G =
  fold_left connect_step (map (fun p => (fst p, snd p, d)) (pairs affected)) G.
Proof.
  unfold connect_all.
  etransitivity; [exact (pair_loop (connect d) affected affected [] G eq_refl)|].
  generalize (pairs affected). intro l. revert G.
  induction l as [|[x y] l IH]; intro G; simpl; auto.
Qed.

Lemma pairs_short (l : list cell) : length l <= 1 -> pairs l = [].
Proof.
  destruct l as [|x [|y t]]; simpl; intros; try reflexivity. lia.
Qed.

Lemma build_body_fold df :
  build_body df =
  fold_left connect_step (work_list df)
    (fold_left add_node (unique (map location (rows df))) empty_graph).
Proof.
  unfold build_body, work_list.
  generalize (fold_left add_node (unique (map location (rows df))) empty_graph).
  generalize (unique (map disaster_type (rows df))).
  intro l. induction l as [|d l IH]; intro G; simpl; [reflexivity|].
  rewrite fold_left_app, <- connect_all_pairs.
  destruct (1 <? length (affected_locations df d)) eqn:E.
  - apply IH.
  - apply Nat.ltb_ge in E. rewrite connect_all_pairs, pairs_short by assumption.
    simpl. apply IH.
Qed.

(** ** No pair/type combination is met twice *)

Lemma pairs_In (l : list cell) x y :
  In (x, y) (pairs l) -> In x l /\ In y l.
Proof.
  induction l as [|a t IH]; simpl; [contradiction|].
  rewrite in_app_iff, in_map_iff.
  intros [(z & E & Hz)|H].
  - inversion E; subst. auto.
  - destruct (IH H). auto.
Qed.

Lemma pairs_NoDup (l : list cell) : NoDup l -> NoDup (pairs l).
Proof.
  induction l as [|a t IH]; simpl; intro ND; [constructor|].
  inversion ND as [|? ? Ha NDt]; subst.
  apply NoDup_app.
  - clear - NDt. induction NDt as [|y t Hy NDt IH]; simpl; constructor; auto.
    rewrite in_map_iff. intros (z & E & Hz). inversion E; subst. contradiction.
  - auto.
  - intros [x y] H1 H2. apply in_map_iff in H1. destruct H1 as (z & E & Hz).
    inversion E; subst. apply pairs_In in H2. tauto.
Qed.

Lemma pairs_asym (l : list cell) x y :
  NoDup l -> In (x, y) (pairs l) -> ~ In (y, x) (pairs l).
Proof.
  induction l as [|a t IH]; simpl; intro ND; [contradiction|].
  inversion ND as [|? ? Ha NDt]; subst.
  rewrite !in_app_iff, !in_map_iff.
  intros [(z & E & Hz)|H] [(z' & E' & Hz')|H'].
  - inversion E; inversion E'; subst. contradiction.
  - inversion E; subst. apply pairs_In in H'. tauto.
  - inversion E'; subst. apply pairs_In in H. tauto.
  - now apply (IH NDt H).
Qed.

Lemma work_list_In df u v d :
  In (u, v, d) (work_list df) <->
  In d (unique (map disaster_type (rows df))) /\
  In (u, v) (pairs (affected_locations df d)).
Proof.
  unfold work_list. rewrite in_flat_map. split.
  - intros (d' & Hd & H). apply in_map_iff in H.
    destruct H as ([x y] & E & Hp). simpl in E. inversion E; subst. auto.
  - intros [Hd Hp]. exists d. split; [assumption|].
    apply in_map_iff. exists (u, v). auto.
Qed.

Lemma work_list_upair_nodup df : upair_nodup (work_list df).
Proof.
  split.
  - unfold work_list.
    assert (ND := unique_NoDup (map disaster_type (rows df))).
    induction ND as [|d l Hd ND IH]; simpl; [constructor|].
    apply NoDup_app.
    + assert (NP := pairs_NoDup _ (unique_NoDup
        (map location (filter (fun r => cell_eqb (disaster_type r) d) (rows df))))).
      fold (affected_locations df d) in NP.
      induction NP as [|p t Hp NP IHp]; simpl; constructor; auto.
      rewrite in_map_iff. intros ([x y] & E & Hz). destruct p as [a b].
      simpl in E. inversion E; subst. contradiction.
    + assumption.
    + intros [[u v] d'] H1 H2. apply in_map_iff in H1.
      destruct H1 as ([x y] & E & _). simpl in E. inversion E; subst.
      apply in_flat_map in H2. destruct H2 as (d0 & Hd0 & H2).
      apply in_map_iff in H2. destruct H2 as ([x' y'] & E' & _).
      simpl in E'. inversion E'; subst. contradiction.
  - intros u v d H1 H2. apply work_list_In in H1, H2.
    destruct H1 as [_ H1], H2 as [_ H2].
    revert H2. apply pairs_asym; [apply unique_NoDup | assumption].
Qed.

Lemma upair_nodup_fresh W :
  forall done, upair_nodup (rev done ++ W) -> fresh_from done W.
Proof.
  induction W as [|[[u v] d] t IH]; intros done [ND AS]; simpl; [exact I|].
  assert (E : rev done ++ (u, v, d) :: t = rev ((u, v, d) :: done) ++ t).
  { simpl. now rewrite <- app_assoc. }
  assert (Hin : In (u, v, d) (rev done ++ (u, v, d) :: t)).
  { apply in_or_app. right. now left. }
  repeat split.
  - intros [H|H].
    + apply NoDup_remove_2 in ND. apply ND, in_or_app. left.
      now apply in_rev in H.
    + apply (AS _ _ _ Hin). apply in_or_app. left. now apply in_rev in H.
  - intros ->. now apply (AS _ _ _ Hin).
  - apply IH. rewrite <- E. split; assumption.
Qed.

Lemma work_list_fresh df : fresh_from [] (work_list df).
Proof. apply upair_nodup_fresh. simpl. apply work_list_upair_nodup. Qed.

(** ** The graph before and after the loops *)

Lemma add_nodes_spec (l : list cell) :
  forall G,
  NoDup (g_node G ++ l) ->
  map fst (g_adj G) = g_node G ->
  (forall n nb, In (n, nb) (g_adj G) -> nb = []) ->
  g_store G = [] ->
  let G' := fold_left add_node l G in
  g_node G' = g_node G ++ l /\
  map fst (g_adj G') = g_node G' /\
  (forall n nb, In (n, nb) (g_adj G') -> nb = []) /\
  g_store G' = [].
Proof.
  induction l as [|x l IH]; intros G ND Hk He Hs; cbv zeta; simpl.
  - rewrite app_nil_r. auto.
  - assert (Hx : ~ In x (g_node G)).
    { intro H. apply NoDup_remove_2 in ND. apply ND, in_or_app. now left. }
    assert (EG : add_node G x =
                 mkGraph (g_node G ++ [x]) (g_adj G ++ [(x, [])]) (g_store G)).
    { unfold add_node. apply lmem_not_In in Hx. now rewrite Hx. }
    rewrite EG.
    destruct (IH (mkGraph (g_node G ++ [x]) (g_adj G ++ [(x, [])]) (g_store G)))
      as (H1 & H2 & H3 & H4); simpl.
    + now rewrite <- app_assoc.
    + rewrite map_app, Hk. reflexivity.
    + intros n nb H. apply in_app_or in H. destruct H as [H|[H|[]]].
      * eapply He; eauto.
      * now inversion H.
    + assumption.
    + simpl in H1. rewrite <- app_assoc in H1. auto.
Qed.

Lemma initial_graph_inv (l : list cell) :
  NoDup l ->
  graph_inv (fold_left add_node l empty_graph) [] /\
  g_node (fold_left add_node l empty_graph) = l.
Proof.
  intro ND.
  destruct (add_nodes_spec l empty_graph) as (H1 & H2 & H3 & H4);
    simpl; auto; try contradiction.
  cbv zeta in *. simpl in H1.
  set (G := fold_left add_node l empty_graph) in *.
  assert (Hnone : forall u v, edge_ref G u v = None).
  { intros u v. unfold edge_ref, adj_ref.
    destruct (dget key_eqb (g_adj G) u) as [nb|] eqn:E; [|reflexivity].
    apply dget_Some_In in E. apply H3 in E. rewrite E. reflexivity. }
  split; [|assumption].
  split; [split|].
  - assumption.
  - now rewrite H1.
  - intros n nb E. apply dget_Some_In in E. apply H3 in E. subst nb.
    split; [constructor | intros v []].
  - intros u v r E. rewrite Hnone in E. discriminate.
  - intros u v u' v' r E. rewrite Hnone in E. discriminate.
  - intros u v r a E. rewrite Hnone in E. discriminate.
Qed.


Lemma connect_inv G done u v d :
  graph_inv G done ->
  In u (g_node G) -> In v (g_node G) -> u <> v ->
  ~ recorded done u v d ->
  graph_inv (connect d G u v) ((u, v, d) :: done) /\
  g_node (connect d G u v) = g_node G.
Proof.
  intros Hinv Hu Hv Huv Hfresh. unfold connect, has_edge.
  destruct (edge_ref G u v) as [r|] eqn:E.
  - split; [now apply (bump_edge_inv G done u v d r)|].
    unfold bump_edge. now rewrite E.
  - split; [now apply add_edge_inv|].
    unfold add_edge.
    rewrite (add_node_present G u) by assumption.
    rewrite (add_node_present G v) by assumption.
    now rewrite E.
Qed.

Lemma fold_connect_inv W :
  forall done G,
  graph_inv G done ->
  fresh_from done W ->
  (forall u v d, In (u, v, d) W -> In u (g_node G) /\ In v (g_node G)) ->
  graph_inv (fold_left connect_step W G) (rev W ++ done) /\
  g_node (fold_left connect_step W G) = g_node G.
Proof.
  induction W as [|[[u v] d] t IH]; intros done G Hinv Hf Hn; simpl.
  - auto.
  - destruct Hf as (Hfr & Huv & Hf).
    destruct (Hn u v d (or_introl eq_refl)) as [Hu Hv].
    destruct (connect_inv G done u v d Hinv Hu Hv Huv Hfr) as [Hinv1 Hnode1].
    destruct (IH ((u, v, d) :: done) (connect d G u v) Hinv1 Hf) as [H1 H2].
    + intros u' v' d' H. rewrite Hnode1. apply (Hn u' v' d'). now right.
    + rewrite <- app_assoc. simpl. split; [assumption | congruence].
Qed.

Lemma affected_locations_In df d x :
  In x (affected_locations df d) -> In x (unique (map location (rows df))).
Proof.
  unfold affected_locations. rewrite !unique_In, !in_map_iff.
  intros (r & E & H). apply filter_In in H. exists r. tauto.
Qed.

Lemma build_body_inv df :
  graph_inv (build_body df) (rev (work_list df)) /\
  g_node (build_body df) = unique (map location (rows df)).
Proof.
  rewrite build_body_fold.
  destruct (initial_graph_inv _ (unique_NoDup (map location (rows df))))
    as [H0 N0].
  destruct (fold_connect_inv (work_list df) [] _ H0 (work_list_fresh df))
    as [H1 H2].
  - intros u v d H. rewrite N0. apply work_list_In in H. destruct H as [_ H].
    apply pairs_In in H. destruct H.
    split; eapply affected_locations_In; eauto.
  - rewrite app_nil_r in H1. split; [assumption | congruence].
Qed.

Lemma build_body_simple df : simple_graph (build_body df).
Proof. apply (build_body_inv df). Qed.

Lemma edges_from_In store adj seen u v a :
  In (u, v, a) (edges_from store seen adj) ->
  exists nb r, In (u, nb) adj /\ In (v, r) nb /\ a = nth r store default_attr.
Proof.
  revert seen. induction adj as [|[n nb] t IH]; intro seen; simpl.
  - contradiction.
  - rewrite in_app_iff, in_map_iff. intros [([v' r] & E & H)|H].
    + simpl in E. inversion E; subst. apply filter_In in H.
      exists nb, r. tauto.
    + destruct (IH _ H) as (nb' & r & H1 & H2 & H3).
      exists nb', r. tauto.
Qed.

Lemma edges_edge_attr G u v a :
  simple_graph G -> In (u, v, a) (edges G) -> edge_attr G u v = Some a.
Proof.
  intros [Hk Hnd Hnb Hsym Hinj] H.
  apply edges_from_In in H. destruct H as (nb & r & H1 & H2 & ->).
  assert (E1 : dget key_eqb (g_adj G) u = Some nb).
  { apply In_dget; [now rewrite Hk | assumption]. }
  assert (E2 : dget key_eqb nb v = Some r).
  { apply In_dget; [apply (Hnb _ _ E1) | assumption]. }
  assert (E : edge_ref G u v = Some r).
  { unfold edge_ref, adj_ref. now rewrite E1. }
  unfold edge_attr. rewrite E.
  destruct (Hsym _ _ _ E) as [_ Hl].
  now apply nth_error_nth'.
Qed.

(** ** The stable sort *)

Section SortFacts.
Variable A : Type.
Variable lt : A -> A -> bool.

Local Abbreviation asc := (asc lt).
Local Abbreviation desc := (desc lt).

Lemma insert_sorted_perm x l : Permutation (insert_sorted lt x l) (x :: l).
Proof.
  induction l as [|y t IH]; simpl; [reflexivity|].
  destruct (lt y x); [|reflexivity].
  rewrite IH. apply perm_swap.
Qed.

Lemma stable_sort_perm l : Permutation (stable_sort lt l) l.
Proof.
  induction l as [|x t IH]; simpl; [constructor|].
  rewrite insert_sorted_perm. now constructor.
Qed.

Lemma sort_reverse_perm l : Permutation (sort_reverse lt l) l.
Proof.
  unfold sort_reverse. rewrite <- Permutation_rev, stable_sort_perm.
  symmetry. apply Permutation_rev.
Qed.

(** Stability: a class [p] of elements that no member of the class is
    strictly above keeps its order. *)
Lemma insert_sorted_filter (p : A -> bool) x l :
  (forall y, lt y x = true -> p x = true -> p y = false) ->
  filter p (insert_sorted lt x l) = filter p (x :: l).
Proof.
  intro Hp. induction l as [|y t IH]; simpl; [reflexivity|].
  destruct (lt y x) eqn:E; [|reflexivity].
  simpl. rewrite IH. simpl. specialize (Hp y E).
  destruct (p x) eqn:Px; [|reflexivity].
  now rewrite Hp.
Qed.

Lemma stable_sort_filter (p : A -> bool) l :
  (forall x y, lt y x = true -> p x = true -> p y = false) ->
  filter p (stable_sort lt l) = filter p l.
Proof.
  intro Hp. induction l as [|x t IH]; simpl; [reflexivity|].
  rewrite insert_sorted_filter by (apply Hp). simpl. now rewrite IH.
Qed.

Lemma filter_rev (p : A -> bool) l : filter p (rev l) = rev (filter p l).
Proof.
  induction l as [|x t IH]; simpl; [reflexivity|].
  rewrite filter_app, IH. simpl. destruct (p x); simpl.
  - reflexivity.
  - now rewrite app_nil_r.
Qed.

Lemma sort_reverse_filter (p : A -> bool) l :
  (forall x y, lt y x = true -> p x = true -> p y = false) ->
  filter p (sort_reverse lt l) = filter p l.
Proof.
  intro Hp. unfold sort_reverse.
  rewrite filter_rev, stable_sort_filter, filter_rev by assumption.
  apply rev_involutive.
Qed.

(** Sortedness needs the keys of the elements at hand, those in [P], to
    be totally preordered. *)
Variable P : A -> Prop.
Hypothesis asc_trans :
  forall x y z, P x -> P y -> P z -> asc x y -> asc y z -> asc x z.
Hypothesis lt_asym : forall x y, lt x y = true -> lt y x = false.

Lemma insert_sorted_sorted x l :
  P x -> Forall P l ->
  StronglySorted asc l -> StronglySorted asc (insert_sorted lt x l).
Proof.
  intro Px. induction l as [|y t IH]; simpl; intros Pl S.
  - repeat constructor.
  - inversion S as [|? ? St Hy]; subst.
    inversion Pl as [|? ? Py Pt]; subst.
    destruct (lt y x) eqn:E.
    + constructor; [now apply IH|].
      apply Forall_forall. intros z Hz.
      apply (Permutation_in _ (insert_sorted_perm x t)) in Hz.
      destruct Hz as [<-|Hz].
      * now apply lt_asym.
      * rewrite Forall_forall in Hy. now apply Hy.
    + constructor; [assumption|].
      constructor; [exact E|].
      apply Forall_forall. intros z Hz. rewrite Forall_forall in Hy.
      rewrite Forall_forall in Pt.
      apply (asc_trans x y z); auto.
Qed.

Lemma stable_sort_sorted l :
  Forall P l -> StronglySorted asc (stable_sort lt l).
Proof.
  induction l as [|x t IH]; simpl; intro Pl; [constructor|].
  inversion Pl as [|? ? Px Pt]; subst.
  apply insert_sorted_sorted; auto.
  apply Forall_forall. intros z Hz.
  apply (Permutation_in _ (stable_sort_perm t)) in Hz.
  rewrite Forall_forall in Pt. auto.
Qed.

Lemma StronglySorted_app_inv (R : A -> A -> Prop) l1 l2 :
  StronglySorted R l1 -> StronglySorted R l2 ->
  (forall x y, In x l1 -> In y l2 -> R x y) ->
  StronglySorted R (l1 ++ l2).
Proof.
  induction l1 as [|a t IH]; simpl; intros S1 S2 H; [assumption|].
  inversion S1 as [|? ? St Ha]; subst.
  constructor.
  - apply IH; auto.
  - apply Forall_forall. intros z Hz. apply in_app_or in Hz.
    rewrite Forall_forall in Ha. destruct Hz; auto.
Qed.

Lemma StronglySorted_rev l :
  StronglySorted asc l -> StronglySorted desc (rev l).
Proof.
  induction l as [|a t IH]; simpl; intro S; [constructor|].
  inversion S as [|? ? St Ha]; subst.
  apply StronglySorted_app_inv.
  - now apply IH.
  - repeat constructor.
  - intros x y Hx [<-|[]]. apply in_rev in Hx.
    rewrite Forall_forall in Ha. unfold desc. now apply Ha.
Qed.

Lemma sort_reverse_sorted l :
  Forall P l -> StronglySorted desc (sort_reverse lt l).
Proof.
  intro Pl. apply StronglySorted_rev, stable_sort_sorted.
  apply Forall_forall. intros z Hz. apply in_rev in Hz.
  rewrite Forall_forall in Pl. auto.
Qed.
End SortFacts.



Lemma StronglySorted_split {A : Type} (R : A -> A -> Prop) n l x y :
  StronglySorted R l -> In x (firstn n l) -> In y (skipn n l) -> R x y.
Proof.
  revert n. induction l as [|a t IH]; intros [|n] S Hx Hy; simpl in *;
    try contradiction.
  inversion S as [|? ? St Ha]; subst.
  destruct Hx as [<-|Hx].
  - rewrite Forall_forall in Ha. apply Ha.
    rewrite <- (firstn_skipn n t). apply in_or_app. now right.
  - eapply IH; eauto.
Qed.

(** ** Comparisons of rationals *)

Lemma Qltb_lt (x y : Q) : Qltb x y = true <-> (x < y)%Q.
Proof.
  unfold Qltb. rewrite negb_true_iff. split.
  - intro H. apply Qnot_le_lt. intro L. apply Qle_bool_iff in L. congruence.
  - intro H. destruct (Qle_bool y x) eqn:E; [|reflexivity].
    apply Qle_bool_iff in E. exfalso. now apply (Qlt_not_le x y).
Qed.

Lemma Qltb_ge (x y : Q) : Qltb x y = false <-> (y <= x)%Q.
Proof.
  unfold Qltb. rewrite negb_false_iff. apply Qle_bool_iff.
Qed.

Lemma StronglySorted_impl {A : Type} (R R' : A -> A -> Prop) l :
  (forall x y, R x y -> R' x y) -> StronglySorted R l -> StronglySorted R' l.
Proof.
  intros H S. induction S as [|a t S IH Ha]; constructor; auto.
  apply Forall_forall. intros z Hz. rewrite Forall_forall in Ha. auto.
Qed.

Section KeySort.
Variable A : Type.
Variable key : A -> Q.

Lemma key_sort_desc l :
  StronglySorted (fun x y => (key y <= key x)%Q)
    (sort_reverse (key_lt key) l).
Proof.
  assert (S : StronglySorted (desc (key_lt key))
                (sort_reverse (key_lt key) l)).
  { apply (sort_reverse_sorted A (key_lt key) (fun _ => True)).
    - unfold asc, key_lt. intros x y z _ _ _ H1 H2.
      apply Qltb_ge in H1, H2. apply Qltb_ge. eapply Qle_trans; eauto.
    - unfold key_lt. intros x y H. apply Qltb_lt in H.
      apply Qltb_ge. now apply Qlt_le_weak.
    - apply Forall_forall. auto. }
  revert S. apply StronglySorted_impl.
  intros x y H. now apply Qltb_ge.
Qed.

(** Entries whose keys are equal keep their order. *)
Lemma key_sort_stable (q : Q) l :
  filter (fun x => Qeq_bool (key x) q) (sort_reverse (key_lt key) l) =
  filter (fun x => Qeq_bool (key x) q) l.
Proof.
  apply sort_reverse_filter.
  intros x y H Hx. unfold key_lt in H. apply Qltb_lt in H.
  apply Qeq_bool_iff in Hx.
  destruct (Qeq_bool (key y) q) eqn:E; [|reflexivity].
  apply Qeq_bool_iff in E. rewrite E, Hx in H.
  exfalso. now apply (Qlt_irrefl q).
Qed.
End KeySort.

(** ** Natural numbers as rationals *)

Lemma Qnat_minus_1 (n : nat) :
  1 <= n -> (Qnat n - 1 == Qnat (n - 1))%Q.
Proof.
  intro H. unfold Qnat, Qminus.
  replace (Z.of_nat (n - 1)) with (Z.of_nat n + - (1))%Z by lia.
  rewrite inject_Z_plus. reflexivity.
Qed.

Lemma Qnat_le (a b : nat) : a <= b -> (Qnat a <= Qnat b)%Q.
Proof. intro H. unfold Qnat. rewrite <- Zle_Qle. lia. Qed.

Lemma Qnat_pos (a : nat) : 0 < a -> (0 < Qnat a)%Q.
Proof.
  intro H. unfold Qnat. change 0%Q with (inject_Z 0). rewrite <- Zlt_Qlt. lia.
Qed.

Lemma Qnat_zero (a : nat) : (Qnat a == 0)%Q <-> a = 0.
Proof.
  unfold Qnat. change 0%Q with (inject_Z 0). rewrite inject_Z_injective. lia.
Qed.

Lemma Qnat_minus_2 (n : nat) :
  2 <= n -> (Qnat n - 2 == Qnat (n - 2))%Q.
Proof.
  intro H. unfold Qnat, Qminus.
  replace (Z.of_nat (n - 2)) with (Z.of_nat n + - (2))%Z by lia.
  rewrite inject_Z_plus. reflexivity.
Qed.

Lemma Qnat_plus (a b : nat) : (Qnat (a + b) == Qnat a + Qnat b)%Q.
Proof. unfold Qnat. rewrite Nat2Z.inj_add, inject_Z_plus. reflexivity. Qed.

Lemma Qnat_mult (a b : nat) : (Qnat (a * b) == Qnat a * Qnat b)%Q.
Proof. unfold Qnat. rewrite Nat2Z.inj_mul, inject_Z_mult. reflexivity. Qed.

(** ** [G.edges(data=True)] lists every edge exactly once *)

Lemma edges_from_spec store adj :
  forall seen u v a,
  In (u, v, a) (edges_from store seen adj) <->
  exists l1 nb l2 r,
    adj = l1 ++ (u, nb) :: l2 /\ In (v, r) nb /\
    ~ In v seen /\ ~ In v (map fst l1) /\ a = nth r store default_attr.
Proof.
  induction adj as [|[n nb0] t IH]; intros seen u v a; simpl.
  - split; [contradiction|].
    intros (l1 & nb & l2 & r & E & _). destruct l1; discriminate.
  - rewrite in_app_iff, in_map_iff. split.
    + intros [([v' r] & E & H)|H].
      * simpl in E. inversion E; subst. apply filter_In in H.
        destruct H as [H1 H2]. simpl in H2.
        apply negb_true_iff, lmem_not_In in H2.
        exists [], nb0, t, r. simpl. tauto.
      * apply IH in H. destruct H as (l1 & nb & l2 & r & E & H1 & H2 & H3 & H4).
        exists ((n, nb0) :: l1), nb, l2, r. subst t. simpl in *.
        repeat split; auto. tauto.
    + intros (l1 & nb & l2 & r & E & H1 & H2 & H3 & H4).
      destruct l1 as [|[n' nb'] l1]; simpl in E; inversion E; subst.
      * left. exists (v, r). split; [reflexivity|].
        apply filter_In. split; [assumption|]. simpl.
        now apply negb_true_iff, lmem_not_In.
      * right. apply IH. exists l1, nb, l2, r. simpl in *.
        repeat split; auto. tauto.
Qed.

Lemma edges_from_fresh store adj seen u v a :
  In (u, v, a) (edges_from store seen adj) -> ~ In v seen.
Proof.
  intro H. apply edges_from_spec in H.
  destruct H as (? & ? & ? & ? & ? & ? & ? & ?). assumption.
Qed.

Lemma edges_from_endpoints_NoDup store adj :
  forall seen,
  NoDup (map fst adj) ->
  (forall n nb, In (n, nb) adj -> NoDup (map fst nb)) ->
  NoDup (map endpoints (edges_from store seen adj)).
Proof.
  induction adj as [|[n nb0] t IH]; intros seen ND Hnb; simpl; [constructor|].
  inversion ND as [|? ? Hn NDt]; subst.
  rewrite map_app. apply NoDup_app.
  - rewrite map_map. unfold endpoints. simpl.
    assert (N0 : NoDup (map fst nb0)) by (apply (Hnb n); now left).
    clear - N0. induction nb0 as [|[v r] l IH]; simpl; [constructor|].
    inversion N0 as [|? ? Hv N1]; subst.
    destruct (negb (lmem key_eqb v seen)); simpl; [|now apply IH].
    constructor; [|now apply IH].
    rewrite in_map_iff. intros ([v' r'] & E & H). simpl in E.
    inversion E; subst. apply filter_In in H. destruct H as [H _].
    apply Hv. change v with (fst (v, r')). now apply in_map.
  - apply IH; [assumption|]. intros n' nb' H. apply (Hnb n'). now right.
  - intros [u v] H1 H2.
    apply in_map_iff in H1. destruct H1 as ([[u1 v1] a1] & E1 & H1).
    apply in_map_iff in H2. destruct H2 as ([[u2 v2] a2] & E2 & H2).
    unfold endpoints in E1, E2. simpl in E1, E2.
    inversion E1; inversion E2; subst.
    apply in_map_iff in H1. destruct H1 as ([v' r'] & E & _).
    inversion E; subst.
    apply edges_from_spec in H2.
    destruct H2 as (l1 & nb & l2 & r & Et & _). subst t.
    apply Hn. rewrite map_app. apply in_or_app. right. now left.
Qed.

Lemma edges_from_asym store adj :
  forall seen u v a a',
  (forall n nb, In (n, nb) adj -> ~ In n (map fst nb)) ->
  In (u, v, a) (edges_from store seen adj) ->
  ~ In (v, u, a') (edges_from store seen adj).
Proof.
  induction adj as [|[n nb0] t IH]; intros seen u v a a' Hloop; simpl;
    [tauto|].
  rewrite !in_app_iff, !in_map_iff.
  intros [([x r] & E & H)|H] [([x' r'] & E' & H')|H'].
  - simpl in E, E'. inversion E; inversion E'; subst.
    apply filter_In in H. destruct H as [H _].
    apply (Hloop v nb0); [now left|].
    change v with (fst (v, r)). now apply in_map.
  - simpl in E. inversion E; subst.
    apply edges_from_fresh in H'. apply H'. now left.
  - simpl in E'. inversion E'; subst.
    apply edges_from_fresh in H. apply H. now left.
  - revert H'. eapply IH; eauto. intros n' nb' Hin. apply Hloop. now right.
Qed.

Lemma simple_graph_In_adj G n nb :
  simple_graph G -> In (n, nb) (g_adj G) -> dget key_eqb (g_adj G) n = Some nb.
Proof.
  intros [Hk Hnd _ _ _] H. apply In_dget; [now rewrite Hk | assumption].
Qed.

Lemma edges_once G :
  simple_graph G ->
  NoDup (map endpoints (edges G)) /\
  (forall u v a a', In (u, v, a) (edges G) -> ~ In (v, u, a') (edges G)) /\
  (forall u v a, edge_attr G u v = Some a ->
     In (u, v, a) (edges G) \/ In (v, u, a) (edges G)).
Proof.
  intro SG. pose proof SG as [Hk Hnd Hnb Hsym Hinj].
  split; [|split].
  - apply edges_from_endpoints_NoDup.
    + now rewrite Hk.
    + intros n nb H. apply (Hnb n). now apply simple_graph_In_adj.
  - intros u v a a'. apply edges_from_asym.
    intros n nb H Hn. apply simple_graph_In_adj in H; [|assumption].
    destruct (Hnb _ _ H) as [_ Hv]. destruct (Hv n Hn) as [Hne _].
    now apply Hne.
  - intros u v a Ha. unfold edge_attr in Ha.
    destruct (edge_ref G u v) as [r|] eqn:Er; [|discriminate].
    destruct (Hsym _ _ _ Er) as [Er' Hl].
    assert (Ea : a = nth r (g_store G) default_attr).
    { symmetry. now apply nth_error_nth. }
    unfold edge_ref, adj_ref in Er, Er'.
    destruct (dget key_eqb (g_adj G) u) as [nbu|] eqn:Eu; [|discriminate].
    destruct (dget key_eqb (g_adj G) v) as [nbv|] eqn:Ev; [|discriminate].
    apply dget_Some_In in Er, Er'.
    pose proof (dget_Some_In _ _ _ Eu) as Hu.
    apply in_split in Hu. destruct Hu as (l1 & l2 & El).
    destruct (in_dec cell_eq_dec v (map fst l1)) as [Hv|Hv].
    + right. apply edges_from_spec.
      apply in_map_iff in Hv. destruct Hv as ([v' nbv'] & Ev' & Hv).
      simpl in Ev'. subst v'.
      apply in_split in Hv. destruct Hv as (l1a & l1b & El1).
      assert (nbv' = nbv).
      { assert (Hin : In (v, nbv') (g_adj G)).
        { rewrite El, El1. apply in_or_app. left. apply in_or_app.
          right. now left. }
        apply (simple_graph_In_adj G _ _ SG) in Hin. congruence. }
      subst nbv'.
      exists l1a, nbv, (l1b ++ (u, nbu) :: l2), r.
      repeat split; auto.
      * rewrite El, El1, <- app_assoc. reflexivity.
      * intro Hu. rewrite <- Hk, El, El1 in Hnd.
        rewrite !map_app in Hnd. simpl in Hnd.
        apply NoDup_remove_2 in Hnd.
        apply Hnd. apply in_or_app. left. apply in_or_app. now left.
    + left. apply edges_from_spec. exists l1, nbu, l2, r. auto.
Qed.

Lemma simple_graph_ref_sym G u v :
  simple_graph G -> edge_ref G u v = edge_ref G v u.
Proof.
  intros [_ _ _ Hsym _].
  destruct (edge_ref G u v) as [r|] eqn:E1.
  - symmetry. apply (Hsym _ _ _ E1).
  - destruct (edge_ref G v u) as [r|] eqn:E2; [|reflexivity].
    apply Hsym in E2. destruct E2 as [E2 _]. congruence.
Qed.

Lemma simple_graph_edge_nodes G u v r :
  simple_graph G -> edge_ref G u v = Some r ->
  u <> v /\ In u (g_node G) /\ In v (g_node G).
Proof.
  intros [Hk _ Hnb _ _] E. unfold edge_ref, adj_ref in E.
  destruct (dget key_eqb (g_adj G) u) as [nb|] eqn:Eu; [|discriminate].
  destruct (Hnb _ _ Eu) as [_ Hv]. apply dget_Some_In in E.
  apply (in_map fst) in E. simpl in E. destruct (Hv _ E) as [Hne Hin].
  split; [congruence|]. split; [|assumption].
  rewrite <- Hk. apply dget_Some_In in Eu.
  change u with (fst (u, nb)). now apply in_map.
Qed.


(** ** Lookups in the tables *)

Lemma dget_table {V : Type} (f : cell -> V) (l : list cell) (k : cell) :
  dget key_eqb (map (fun n => (n, f n)) l) k =
  if lmem key_eqb k l then Some (f k) else None.
Proof.
  induction l as [|x t IH]; simpl; [reflexivity|].
  key_cases k x; simpl; [reflexivity | exact IH].
Qed.

Lemma alert_levels_lookup df n :
  dget key_eqb (alert_levels df) n =
  if is_some n && lmem key_eqb n (map location (rows df))
  then Some (mean (group_alerts df n)) else None.
Proof.
  unfold alert_levels. rewrite dget_table.
  destruct (lmem key_eqb n (filter is_some (unique (map location (rows df)))))
    eqn:E.
  - apply lmem_In, filter_In in E. destruct E as [E1 E2].
    rewrite E2. apply (proj1 (unique_In _ _)), lmem_In in E1. now rewrite E1.
  - destruct (is_some n) eqn:Sn; [|reflexivity].
    destruct (lmem key_eqb n (map location (rows df))) eqn:L; [|reflexivity].
    apply lmem_not_In in E. exfalso. apply E. apply filter_In.
    split; [|assumption]. apply unique_In. now apply lmem_In.
Qed.


(** ** Cluster summaries *)

Lemma enumerate_from_In {X : Type} (l : list X) :
  forall k i x,
  In (i, x) (enumerate_from k l) <-> k <= i /\ nth_error l (i - k) = Some x.
Proof.
  induction l as [|y t IH]; intros k i x; simpl.
  - split; [contradiction|]. intros [_ H]. destruct (i - k); discriminate.
  - rewrite IH. split.
    + intros [E|[H1 H2]].
      * inversion E; subst. rewrite Nat.sub_diag. auto.
      * split; [lia|]. replace (i - k) with (S (i - S k)) by lia. exact H2.
    + intros [H1 H2]. destruct (Nat.eq_dec i k) as [->|Hne].
      * rewrite Nat.sub_diag in H2. simpl in H2. inversion H2. now left.
      * right. split; [lia|].
        replace (i - k) with (S (i - S k)) in H2 by lia. exact H2.
Qed.

Lemma cluster_candidates_In communities levels c :
  In c (cluster_candidates communities levels) <->
  exists i community,
    nth_error communities i = Some community /\
    1 < length community /\
    c = mkCluster i community (length community)
          (np_mean (map (member_alert levels) community)).
Proof.
  unfold cluster_candidates. rewrite in_flat_map. split.
  - intros ([i comm] & Hin & Hc).
    apply enumerate_from_In in Hin. destruct Hin as [_ Hin].
    rewrite Nat.sub_0_r in Hin.
    destruct (1 <? length comm) eqn:E; [|contradiction].
    apply Nat.ltb_lt in E. destruct Hc as [<-|[]].
    exists i, comm. auto.
  - intros (i & comm & Hn & Hl & ->).
    exists (i, comm). split.
    + apply enumerate_from_In. rewrite Nat.sub_0_r. split; [lia | assumption].
    + apply Nat.ltb_lt in Hl. rewrite Hl. now left.
Qed.

Lemma cluster_key_ltb_asym x y :
  cluster_key_ltb x y = true -> cluster_key_ltb y x = false.
Proof.
  unfold cluster_key_ltb. rewrite (Nat.eqb_sym (cluster_size y)).
  destruct (cluster_size x =? cluster_size y) eqn:E.
  - unfold fval_ltb.
    destruct (cluster_avg_alert_level x) as [a|],
             (cluster_avg_alert_level y) as [b|]; try discriminate.
    intro H. apply Qltb_lt in H. apply Qltb_ge. now apply Qlt_le_weak.
  - intro H. apply Nat.ltb_lt in H. apply Nat.ltb_ge. lia.
Qed.

Lemma cluster_desc_before x y :
  cluster_avg_alert_level x <> None -> cluster_avg_alert_level y <> None ->
  (desc cluster_key_ltb x y <-> cluster_before x y).
Proof.
  intros Hx Hy. unfold desc, cluster_key_ltb, cluster_before, fval_ltb.
  destruct (cluster_avg_alert_level x) as [a|]; [|contradiction].
  destruct (cluster_avg_alert_level y) as [b|]; [|contradiction].
  destruct (cluster_size x =? cluster_size y) eqn:E.
  - apply Nat.eqb_eq in E. rewrite Qltb_ge. split.
    + intro H. right. split; [lia|]. exists a, b. auto.
    + intros [H|[_ (a' & b' & Ea & Eb & H)]]; [lia|].
      inversion Ea; inversion Eb; subst. exact H.
  - apply Nat.eqb_neq in E. rewrite Nat.ltb_ge. split.
    + intro H. left. lia.
    + intros [H|[H _]]; lia.
Qed.

Lemma cluster_before_trans x y z :
  cluster_before x y -> cluster_before y z -> cluster_before x z.
Proof.
  unfold cluster_before.
  intros [H1|[H1 (a & b & Ea & Eb & L1)]] [H2|[H2 (b' & c & Eb' & Ec & L2)]].
  - left. lia.
  - left. lia.
  - left. lia.
  - right. split; [lia|]. exists a, c. repeat split; auto.
    rewrite Eb in Eb'. inversion Eb'; subst. eapply Qle_trans; eauto.
Qed.

Lemma cluster_sort_desc l :
  Forall (fun c => cluster_avg_alert_level c <> None) l ->
  StronglySorted cluster_before (sort_reverse cluster_key_ltb l).
Proof.
  intro Pl.
  assert (S : StronglySorted (desc cluster_key_ltb)
                (sort_reverse cluster_key_ltb l)).
  { apply (sort_reverse_sorted Cluster cluster_key_ltb
             (fun c => cluster_avg_alert_level c <> None)).
    - intros x y z Px Py Pz H1 H2. unfold asc in *.
      change (desc cluster_key_ltb z x).
      change (desc cluster_key_ltb y x) in H1.
      change (desc cluster_key_ltb z y) in H2.
      apply cluster_desc_before; auto.
      apply cluster_desc_before in H1, H2; auto.
      eapply cluster_before_trans; eauto.
    - apply cluster_key_ltb_asym.
    - assumption. }
  assert (Ps : Forall (fun c => cluster_avg_alert_level c <> None)
                 (sort_reverse cluster_key_ltb l)).
  { apply Forall_forall. intros c Hc.
    apply (Permutation_in _ (sort_reverse_perm _ cluster_key_ltb l)) in Hc.
    rewrite Forall_forall in Pl. auto. }
  clear Pl. induction S as [|a t S IH Ha]; [constructor|].
  inversion Ps as [|? ? Pa Pt]; subst.
  constructor; [now apply IH|].
  rewrite Forall_forall in *. intros z Hz.
  apply cluster_desc_before; auto.
Qed.

(** With an alert level in every record no mean is NaN. *)
Lemma mean_Some (l : list Q) : l <> [] -> mean l <> None.
Proof. destruct l; [contradiction | discriminate]. Qed.

Lemma group_alerts_nonempty df loc :
  has_alert_levels df = true ->
  In loc (map location (rows df)) ->
  group_alerts df loc <> [].
Proof.
  unfold has_alert_levels, group_alerts. intros H Hin.
  apply in_map_iff in Hin. destruct Hin as (r & <- & Hr).
  rewrite forallb_forall in H. specialize (H r Hr).
  destruct (alert_level r) as [a|] eqn:Ea; [|discriminate].
  intro E.
  assert (Ha : In a (flat_map (fun r0 =>
      if key_eqb (location r0) (location r) then
        match alert_level r0 with Some a0 => [a0] | None => [] end
      else []) (rows df))).
  { apply in_flat_map. exists r. split; [assumption|].
    rewrite key_eqb_refl, Ea. now left. }
  rewrite E in Ha. contradiction.
Qed.

Lemma member_alert_Some df loc :
  has_alert_levels df = true -> member_alert (alert_levels df) loc <> None.
Proof.
  intro H. unfold member_alert. rewrite alert_levels_lookup.
  destruct (is_some loc && lmem key_eqb loc (map location (rows df))) eqn:E;
    [|discriminate].
  apply andb_true_iff in E. destruct E as [_ E]. apply lmem_In in E.
  apply mean_Some. now apply group_alerts_nonempty.
Qed.

Lemma all_numbers_Some (l : list fval) :
  (forall a, In a l -> a <> None) ->
  exists qs, all_numbers l = Some qs /\ length qs = length l.
Proof.
  induction l as [|[q|] t IH]; intro H; simpl.
  - exists []. auto.
  - destruct IH as (qs & E & L); [intros a Ha; apply H; now right|].
    rewrite E. exists (q :: qs). simpl. auto.
  - exfalso. apply (H None); [now left | reflexivity].
Qed.

Lemma cluster_candidates_numeric df communities :
  has_alert_levels df = true ->
  Forall (fun c => cluster_avg_alert_level c <> None)
    (cluster_candidates communities (alert_levels df)).
Proof.
  intro H. apply Forall_forall. intros c Hc.
  apply cluster_candidates_In in Hc.
  destruct Hc as (i & comm & _ & Hl & ->). simpl.
  unfold np_mean.
  destruct (all_numbers_Some (map (member_alert (alert_levels df)) comm))
    as (qs & E & L).
  - intros a Ha. apply in_map_iff in Ha. destruct Ha as (loc & <- & _).
    now apply member_alert_Some.
  - rewrite E. apply mean_Some. rewrite length_map in L.
    destruct qs; simpl in *; [lia | discriminate].
Qed.

(** ** Betweenness: the rescaling *)

Lemma dget_map_snd (f : Q -> Q) (l : list (cell * Q)) (k : cell) :
  dget key_eqb (map (fun p => (fst p, f (snd p))) l) k =
  option_map f (dget key_eqb l k).
Proof.
  induction l as [|[k0 v0] t IH]; simpl; [reflexivity|].
  destruct (key_eqb k k0); [reflexivity | exact IH].
Qed.

Lemma rescale_lookup betweenness n normalized v :
  dget key_eqb (rescale betweenness n normalized) v =
  option_map (fun x =>
      if normalized then
        if n <=? 2 then x
        else (x * (1 / ((Qnat n - 1) * (Qnat n - 2))))%Q
      else (x * (1 # 2))%Q)
    (dget key_eqb betweenness v).
Proof.
  unfold rescale. destruct normalized.
  - destruct (n <=? 2).
    + now destruct (dget key_eqb betweenness v).
    + exact (dget_map_snd
               (fun x => (x * (1 / ((Qnat n - 1) * (Qnat n - 2))))%Q)
               betweenness v).
  - exact (dget_map_snd (fun x => (x * (1 # 2))%Q) betweenness v).
Qed.

(** The table networkx returns against the raw one, which is the sum of
    the dependencies halved. *)
Lemma betweenness_scaling G v :
  let n := length (g_node G) in
  match dget key_eqb (betweenness_centrality G) v,
        dget key_eqb (betweenness_with false G) v,
        dget key_eqb (brandes_sums G) v with
  | Some c, Some raw, Some sum =>
      (raw == sum / 2)%Q /\
      (2 < n -> (c == sum * (1 / ((Qnat n - 1) * (Qnat n - 2))))%Q /\
                (c == raw / ((Qnat n - 1) * (Qnat n - 2) / 2))%Q) /\
      (n <= 2 -> c = sum)
  | None, None, None => True
  | _, _, _ => False
  end.
Proof.
  intro n. unfold betweenness_centrality, betweenness_with.
  rewrite !rescale_lookup. fold n.
  destruct (dget key_eqb (brandes_sums G) v) as [sum|]; simpl; [|exact I].
  split; [unfold Qdiv; reflexivity|]. split.
  - intro Hn. destruct (n <=? 2) eqn:E; [apply Nat.leb_le in E; lia|].
    assert (H1 : (0 < Qnat n - 1)%Q).
    { rewrite Qnat_minus_1 by lia. apply Qnat_pos. lia. }
    assert (H2 : (0 < Qnat n - 2)%Q).
    { rewrite Qnat_minus_2 by lia. apply Qnat_pos. lia. }
    split; [reflexivity|].
    field. split; intro H0.
    + rewrite H0 in H2. now apply (Qlt_irrefl 0).
    + rewrite H0 in H1. now apply (Qlt_irrefl 0).
  - intro Hn. apply Nat.leb_le in Hn. now rewrite Hn.
Qed.

(** ** The deque of the search empties within [len(G)] rounds *)

Lemma bfs_visit_inv G v Dv sv st w :
  In w (g_node G) -> bfs_inv G st ->
  bfs_inv G (bfs_visit v Dv sv st w) /\
  bS (bfs_visit v Dv sv st w) = bS st.
Proof.
  intros Hw (ND & He & Hn). unfold bfs_visit, dmem.
  destruct (dget key_eqb (bD st) w) as [d|] eqn:E.
  - destruct (dgetd (bD st) w 0 =? Dv + 1); simpl; repeat split; auto;
      apply He.
  - assert (Hnew : ~ In w (bS st ++ bQ st)).
    { rewrite He. now apply dget_None_keys. }
    assert (J : bfs_inv G
      (mkBFS (bS st) (bP st) (bsigma st)
             (dset key_eqb (bD st) w (Dv + 1)) (bQ st ++ [w]))).
    { apply dget_None_keys in E. unfold bfs_inv. simpl.
      rewrite dset_keys_absent by assumption. rewrite app_assoc.
      split; [|split].
      - apply NoDup_app; [assumption | repeat constructor; auto |].
        intros y Hy [<-|[]]. contradiction.
      - intro y. rewrite !in_app_iff. simpl. rewrite <- He, in_app_iff.
        tauto.
      - intros y Hy. apply in_app_or in Hy. destruct Hy as [Hy|[<-|[]]]; auto. }
    destruct J as (J1 & J2 & J3). simpl in *.
    destruct (dgetd (dset key_eqb (bD st) w (Dv + 1)) w 0 =? Dv + 1); simpl;
      repeat split; auto; apply J2.
Qed.

Lemma bfs_visits_inv G v Dv sv (ws : list node) :
  forall st,
  (forall w, In w ws -> In w (g_node G)) -> bfs_inv G st ->
  bfs_inv G (fold_left (bfs_visit v Dv sv) ws st) /\
  bS (fold_left (bfs_visit v Dv sv) ws st) = bS st.
Proof.
  induction ws as [|w ws IH]; intros st Hws J; simpl; [auto|].
  destruct (bfs_visit_inv G v Dv sv st w) as [J1 E1]; auto.
  { apply Hws. now left. }
  destruct (IH (bfs_visit v Dv sv st w)) as [J2 E2]; auto.
  { intros w' H. apply Hws. now right. }
  split; [assumption | congruence].
Qed.

Lemma bfs_queue_bound G st :
  bfs_inv G st -> length (bS st) + length (bQ st) <= length (g_node G).
Proof.
  intros (ND & He & Hn). rewrite <- length_app.
  apply NoDup_incl_length; [assumption|].
  intros y Hy. apply Hn, He, Hy.
Qed.

Lemma bfs_loop_empties G fuel :
  simple_graph G ->
  forall st,
  bfs_inv G st -> length (g_node G) <= fuel + length (bS st) ->
  bQ (bfs_loop fuel G st) = [].
Proof.
  intro SG. induction fuel as [|fuel IH]; intros st J Hf; simpl.
  - pose proof (bfs_queue_bound G st J).
    destruct (bQ st); [reflexivity | simpl in *; lia].
  - destruct (bQ st) as [|v q] eqn:EQ; [assumption|].
    assert (Hv : In v (g_node G)).
    { destruct J as (_ & He & Hn). apply Hn, He.
      rewrite EQ. apply in_or_app. right. now left. }
    assert (J1 : bfs_inv G
      (mkBFS (bS st ++ [v]) (bP st) (bsigma st) (bD st) q)).
    { destruct J as (ND & He & Hn). rewrite EQ in *.
      unfold bfs_inv. simpl. rewrite <- app_assoc. simpl. auto. }
    destruct (bfs_visits_inv G v (dgetd (bD st) v 0) (dgetd (bsigma st) v 0%Q)
                (map fst (neighbors G v))
                (mkBFS (bS st ++ [v]) (bP st) (bsigma st) (bD st) q))
      as [J2 E2]; [| exact J1 |].
    + intros w Hw. unfold neighbors in Hw.
      destruct (dget key_eqb (g_adj G) v) as [nb|] eqn:E; [|contradiction].
      destruct (sg_nbrs G SG v nb E) as [_ Hnb]. apply (Hnb w Hw).
    + apply IH; [assumption|]. rewrite E2. simpl. rewrite length_app.
      simpl. lia.
Qed.

(** The fuel given to the search suffices: it ends with an empty deque. *)
Lemma single_source_complete G s :
  simple_graph G -> In s (g_node G) ->
  bQ (single_source_shortest_path_basic G s) = [].
Proof.
  intros SG Hs. unfold single_source_shortest_path_basic.
  apply bfs_loop_empties; [assumption | | simpl; lia].
  unfold bfs_inv. simpl. split; [|split].
  - repeat constructor. intros [].
  - tauto.
  - intros y [<-|[]]. assumption.
Qed.

(** ** Breadth-first search on a path *)

Lemma bfs_visit_old v Dv sv st w d :
  dget key_eqb (bD st) w = Some d -> d <> Dv + 1 ->
  bfs_visit v Dv sv st w = st.
Proof.
  intros H Hd. unfold bfs_visit, dmem. rewrite H. cbv iota beta.
  unfold dgetd at 1. rewrite H.
  apply Nat.eqb_neq in Hd. now rewrite Hd.
Qed.

Lemma bfs_visit_new v Dv sv st w :
  dget key_eqb (bD st) w = None ->
  bfs_visit v Dv sv st w = discover v Dv sv st w.
Proof.
  intros H. unfold bfs_visit, dmem. rewrite H. cbv iota beta.
  cbn [bD bP bsigma bS bQ].
  unfold dgetd at 1. rewrite dget_dset, key_eqb_refl, Nat.eqb_refl.
  reflexivity.
Qed.

Lemma dgetd_dset {V : Type} (d : list (cell * V)) k v k' dflt :
  dgetd (dset key_eqb d k v) k' dflt =
  if key_eqb k' k then v else dgetd d k' dflt.
Proof.
  unfold dgetd. rewrite dget_dset. now destruct (key_eqb k' k).
Qed.

Section Path.
Variable xs : list node.
Hypothesis xs_NoDup : NoDup xs.

Local Abbreviation n := (length xs).
Local Abbreviation x := (xnode xs).

Lemma x_inj i j : i < n -> j < n -> x i = x j -> i = j.
Proof.
  intros Hi Hj E. unfold xnode in E.
  apply (proj1 (NoDup_nth xs None) xs_NoDup i j Hi Hj E).
Qed.

Lemma x_eqb i j : i < n -> j < n -> key_eqb (x i) (x j) = (i =? j).
Proof.
  intros Hi Hj. destruct (Nat.eqb_spec i j) as [->|Hne].
  - apply key_eqb_refl.
  - apply key_eqb_neq. intro E. apply Hne. now apply x_inj.
Qed.

Lemma x_In i : i < n -> In (x i) xs.
Proof. intro H. unfold xnode. now apply nth_In. Qed.


Lemma app_snoc_split {X : Type} (A l1 l2 : list X) (w : X) :
  A ++ [w] = l1 ++ l2 ->
  (l2 = [] /\ l1 = A ++ [w]) \/ (exists l2', l2 = l2' ++ [w] /\ A = l1 ++ l2').
Proof.
  intro E. induction l2 as [|z l2' _] using rev_ind.
  - left. rewrite app_nil_r in E. auto.
  - right. rewrite app_assoc in E. apply app_inj_tail in E.
    destruct E as [E ->]. exists l2'. auto.
Qed.

Lemma NoDup_snoc {X : Type} (l : list X) (w : X) :
  NoDup l -> ~ In w l -> NoDup (l ++ [w]).
Proof.
  intros ND Hw. apply NoDup_app; [assumption | repeat constructor; auto |].
  intros y Hy [<-|[]]. contradiction.
Qed.

Ltac range_cases :=
  unfold in_range, path_pred, dist in *;
  repeat match goal with
  | |- context [?a <=? ?b] => destruct (Nat.leb_spec a b)
  | |- context [?a <? ?b] => destruct (Nat.ltb_spec a b)
  | |- context [?a =? ?b] => destruct (Nat.eqb_spec a b)
  end; simpl; try lia; try reflexivity.

Lemma core_not_in k a b st i :
  path_core xs k a b st -> i < n -> in_range a b i = false ->
  ~ In (x i) (bS st ++ bQ st).
Proof.
  intros C Hi Hr Hin. apply (pc_elems _ _ _ _ _ C) in Hin.
  destruct Hin as (j & Ha & Hb & E).
  destruct (pc_bounds _ _ _ _ _ C) as (_ & _ & Hbn).
  apply x_inj in E; [|assumption|lia]. subst j.
  revert Hr. range_cases.
Qed.

Lemma core_move k a b st v q :
  path_core xs k a b st -> bQ st = v :: q ->
  path_core xs k a b (mkBFS (bS st ++ [v]) (bP st) (bsigma st) (bD st) q).
Proof.
  intros [B HD Hs HP ND He Ho] EQ. rewrite EQ in *.
  split; simpl; auto; rewrite <- app_assoc; simpl; auto.
Qed.

Lemma core_extend_left k a b st sv :
  path_core xs k a b st -> 0 < a -> (sv == 1)%Q ->
  path_core xs k (a - 1) b (discover (x a) (k - a) sv st (x (a - 1))).
Proof.
  intros C Ha Hsv. pose proof C as [B HD Hs HP ND He Ho].
  destruct B as (B1 & B2 & B3).
  assert (Hout : in_range a b (a - 1) = false) by range_cases.
  assert (Hnew : ~ In (x (a - 1)) (bS st ++ bQ st)).
  { apply (core_not_in k a b st); auto. lia. }
  split; simpl.
  - lia.
  - intros i Hi. rewrite dget_dset, x_eqb by lia.
    destruct (Nat.eqb_spec i (a - 1)) as [->|Hne].
    + replace (in_range (a - 1) b (a - 1)) with true by range_cases.
      f_equal. unfold dist. lia.
    + rewrite HD by assumption.
      replace (in_range (a - 1) b i) with (in_range a b i) by range_cases.
      reflexivity.
  - intros i Hi. rewrite dgetd_dset, x_eqb by lia.
    destruct (Nat.eqb_spec i (a - 1)) as [->|Hne].
    + replace (in_range (a - 1) b (a - 1)) with true by range_cases.
      rewrite Hs by lia. rewrite Hout, Hsv. reflexivity.
    + rewrite Hs by assumption.
      replace (in_range (a - 1) b i) with (in_range a b i) by range_cases.
      reflexivity.
  - intros i Hi. rewrite dgetd_dset, x_eqb by lia.
    destruct (Nat.eqb_spec i (a - 1)) as [->|Hne].
    + replace (in_range (a - 1) b (a - 1)) with true by range_cases.
      rewrite HP by lia. rewrite Hout. simpl.
      unfold path_pred. replace (a - 1 <? k) with true by range_cases.
      now replace (a - 1 + 1) with a by lia.
    + rewrite HP by assumption.
      replace (in_range (a - 1) b i) with (in_range a b i) by range_cases.
      reflexivity.
  - rewrite app_assoc. now apply NoDup_snoc.
  - intro y. rewrite app_assoc, in_app_iff, He. simpl. split.
    + intros [(i & H1 & H2 & ->)|[<-|[]]].
      * exists i. repeat split; auto. lia.
      * exists (a - 1). repeat split; auto; lia.
    + intros (i & H1 & H2 & ->).
      destruct (Nat.eq_dec i (a - 1)) as [->|Hne]; [now right; left|].
      left. exists i. repeat split; auto. lia.
  - intros l1 l2 i E H1 H2 Hin. rewrite app_assoc in E.
    apply app_snoc_split in E. destruct E as [[-> ->]|(l2' & -> & E)].
    + split; intro Hk; apply in_or_app.
      * left. apply He. exists (i + 1). repeat split; auto; lia.
      * left. apply He. exists (i - 1). repeat split; auto; lia.
    + assert (Hi : a <= i).
      { destruct (Nat.le_gt_cases a i) as [|Hlt]; [assumption|].
        exfalso. replace i with (a - 1) in Hin by lia.
        apply Hnew. rewrite E. apply in_or_app. now left. }
      apply (Ho l1 l2' i E Hi H2 Hin).
Qed.

Lemma core_extend_right k a b st sv :
  path_core xs k a b st -> b + 1 < n -> (sv == 1)%Q ->
  path_core xs k a (b + 1) (discover (x b) (b - k) sv st (x (b + 1))).
Proof.
  intros C Hb Hsv. pose proof C as [B HD Hs HP ND He Ho].
  destruct B as (B1 & B2 & B3).
  assert (Hout : in_range a b (b + 1) = false) by range_cases.
  assert (Hnew : ~ In (x (b + 1)) (bS st ++ bQ st)).
  { apply (core_not_in k a b st); auto. }
  split; simpl.
  - lia.
  - intros i Hi. rewrite dget_dset, x_eqb by lia.
    destruct (Nat.eqb_spec i (b + 1)) as [->|Hne].
    + replace (in_range a (b + 1) (b + 1)) with true by range_cases.
      f_equal. unfold dist. lia.
    + rewrite HD by assumption.
      replace (in_range a (b + 1) i) with (in_range a b i) by range_cases.
      reflexivity.
  - intros i Hi. rewrite dgetd_dset, x_eqb by lia.
    destruct (Nat.eqb_spec i (b + 1)) as [->|Hne].
    + replace (in_range a (b + 1) (b + 1)) with true by range_cases.
      rewrite Hs by lia. rewrite Hout, Hsv. reflexivity.
    + rewrite Hs by assumption.
      replace (in_range a (b + 1) i) with (in_range a b i) by range_cases.
      reflexivity.
  - intros i Hi. rewrite dgetd_dset, x_eqb by lia.
    destruct (Nat.eqb_spec i (b + 1)) as [->|Hne].
    + replace (in_range a (b + 1) (b + 1)) with true by range_cases.
      rewrite HP by lia. rewrite Hout. simpl.
      unfold path_pred. replace (b + 1 <? k) with false by range_cases.
      replace (k <? b + 1) with true by range_cases.
      now replace (b + 1 - 1) with b by lia.
    + rewrite HP by assumption.
      replace (in_range a (b + 1) i) with (in_range a b i) by range_cases.
      reflexivity.
  - rewrite app_assoc. now apply NoDup_snoc.
  - intro y. rewrite app_assoc, in_app_iff, He. simpl. split.
    + intros [(i & H1 & H2 & ->)|[<-|[]]].
      * exists i. repeat split; auto. lia.
      * exists (b + 1). repeat split; auto; lia.
    + intros (i & H1 & H2 & ->).
      destruct (Nat.eq_dec i (b + 1)) as [->|Hne]; [now right; left|].
      left. exists i. repeat split; auto. lia.
  - intros l1 l2 i E H1 H2 Hin. rewrite app_assoc in E.
    apply app_snoc_split in E. destruct E as [[-> ->]|(l2' & -> & E)].
    + split; intro Hk; apply in_or_app.
      * left. apply He. exists (i + 1). repeat split; auto; lia.
      * left. apply He. exists (i - 1). repeat split; auto; lia.
    + assert (Hi : i <= b).
      { destruct (Nat.le_gt_cases i b) as [|Hlt]; [assumption|].
        exfalso. replace i with (b + 1) in Hin by lia.
        apply Hnew. rewrite E. apply in_or_app. now left. }
      apply (Ho l1 l2' i E H1 Hi Hin).
Qed.

Variable ds : list cell.

Lemma map_x_seq : map x (seq 0 n) = xs.
Proof.
  apply (nth_ext _ _ (x 0) None).
  - now rewrite length_map, length_seq.
  - intros j Hj. rewrite length_map, length_seq in Hj.
    rewrite (map_nth x (seq 0 n) 0 j), seq_nth by assumption. reflexivity.
Qed.

Lemma path_graph_nodes : g_node (path_graph xs ds) = xs.
Proof. reflexivity. Qed.

Lemma path_neighbors i :
  i < n ->
  map fst (neighbors (path_graph xs ds) (x i)) =
  (if 0 <? i then [x (i - 1)] else []) ++
  (if i + 1 <? n then [x (i + 1)] else []).
Proof.
  intro Hi. unfold neighbors, path_graph. cbn [g_adj].
  set (f := fun j =>
    (nth j xs None,
     (if 0 <? j then [(nth (j - 1) xs None, j - 1)] else []) ++
     (if j + 1 <? n then [(nth (j + 1) xs None, j)] else []))).
  assert (E : dget key_eqb (map f (seq 0 n)) (x i) = Some (snd (f i))).
  { apply In_dget.
    - rewrite map_map. simpl. fold x. rewrite map_x_seq. exact xs_NoDup.
    - change (x i, snd (f i)) with (f i). apply in_map, in_seq. lia. }
  rewrite E. simpl. rewrite map_app.
  destruct (0 <? i), (i + 1 <? n); reflexivity.
Qed.

Lemma visit_new_at k a b s1 v Dv sv i :
  path_core xs k a b s1 -> i < n -> in_range a b i = false ->
  bfs_visit v Dv sv s1 (x i) = discover v Dv sv s1 (x i).
Proof.
  intros C Hi Hr. apply bfs_visit_new.
  rewrite (pc_D _ _ _ _ _ C) by assumption. now rewrite Hr.
Qed.

Lemma visit_old_at k a b s1 v Dv sv i :
  path_core xs k a b s1 -> i < n -> in_range a b i = true ->
  dist i k <> Dv + 1 ->
  bfs_visit v Dv sv s1 (x i) = s1.
Proof.
  intros C Hi Hr Hd. apply (bfs_visit_old _ _ _ _ _ (dist i k)); [|assumption].
  rewrite (pc_D _ _ _ _ _ C) by assumption. now rewrite Hr.
Qed.

Lemma core_lookup k a b st i :
  path_core xs k a b st -> a <= i -> i <= b ->
  dgetd (bD st) (x i) 0 = dist i k /\
  (dgetd (bsigma st) (x i) 0 == 1)%Q.
Proof.
  intros C H1 H2. destruct (pc_bounds _ _ _ _ _ C) as (_ & _ & B3).
  assert (Hr : in_range a b i = true) by range_cases.
  split.
  - unfold dgetd. rewrite (pc_D _ _ _ _ _ C) by lia. now rewrite Hr.
  - rewrite (pc_sigma _ _ _ _ _ C) by lia. now rewrite Hr.
Qed.

(** One round of the loop, from each of the three kinds of state. *)

Lemma path_step_init k st :
  path_core xs k k k st -> bS st = [] -> bQ st = [x k] ->
  exists a' b',
    let st' :=
      fold_left (bfs_visit (x k) (dgetd (bD st) (x k) 0)
                           (dgetd (bsigma st) (x k) 0%Q))
        (map fst (neighbors (path_graph xs ds) (x k)))
        (mkBFS (bS st ++ [x k]) (bP st) (bsigma st) (bD st) []) in
    path_core xs k a' b' st' /\ path_front xs k a' b' st' /\
    bS st' = bS st ++ [x k].
Proof.
  intros C ES EQ.
  pose proof (core_move k k k st (x k) [] C EQ) as C1.
  destruct (pc_bounds _ _ _ _ _ C) as (_ & _ & B3).
  destruct (core_lookup k k k st k C) as [ED Esig]; try lia.
  rewrite ED. replace (dist k k) with 0 by (unfold dist; lia).
  rewrite path_neighbors by lia.
  set (sv := dgetd (bsigma st) (x k) 0%Q) in *.
  set (s1 := mkBFS (bS st ++ [x k]) (bP st) (bsigma st) (bD st) []) in *.
  destruct (Nat.ltb_spec 0 k) as [Hk|Hk];
    destruct (Nat.ltb_spec (k + 1) n) as [Hn|Hn]; cbn [app fold_left].
  - rewrite (visit_new_at k k k s1) by (auto; try lia; range_cases).
    pose proof (core_extend_left k k k s1 sv C1 Hk Esig) as C2.
    replace (k - k) with 0 in C2 by lia.
    set (s2 := discover (x k) 0 sv s1 (x (k - 1))) in *.
    rewrite (visit_new_at k (k - 1) k s2) by (auto; try lia; range_cases).
    pose proof (core_extend_right k (k - 1) k s2 sv C2 Hn Esig) as C3.
    replace (k - k) with 0 in C3 by lia.
    exists (k - 1), (k + 1). split; [exact C3|]. split; [|reflexivity].
    right. simpl. rewrite ES. simpl. repeat split; auto; try lia.
    intros y [<-|[<-|[]]]; auto.
  - rewrite (visit_new_at k k k s1) by (auto; try lia; range_cases).
    pose proof (core_extend_left k k k s1 sv C1 Hk Esig) as C2.
    replace (k - k) with 0 in C2 by lia.
    exists (k - 1), k. split; [exact C2|]. split; [|reflexivity].
    right. simpl. rewrite ES. simpl. repeat split; auto; try lia.
    intros y [<-|[]]; auto.
  - rewrite (visit_new_at k k k s1) by (auto; try lia; range_cases).
    pose proof (core_extend_right k k k s1 sv C1 Hn Esig) as C2.
    replace (k - k) with 0 in C2 by lia.
    exists k, (k + 1). split; [exact C2|]. split; [|reflexivity].
    right. simpl. rewrite ES. simpl. repeat split; auto; try lia.
    intros y [<-|[]]; auto.
  - exists k, k. split; [exact C1|]. split; [|reflexivity].
    right. simpl. rewrite ES. simpl. repeat split; auto; try lia.
Qed.

Lemma path_step_left k a b st q :
  path_core xs k a b st -> a < k -> bQ st = x a :: q ->
  In (x k) (bS st) ->
  (k + 1 < n -> k < b) ->
  (forall y, In y (bQ st) -> y = x a \/ y = x b) ->
  (b + 1 < n -> In (x b) (bQ st)) ->
  exists a' b',
    let st' :=
      fold_left (bfs_visit (x a) (dgetd (bD st) (x a) 0)
                           (dgetd (bsigma st) (x a) 0%Q))
        (map fst (neighbors (path_graph xs ds) (x a)))
        (mkBFS (bS st ++ [x a]) (bP st) (bsigma st) (bD st) q) in
    path_core xs k a' b' st' /\ path_front xs k a' b' st' /\
    bS st' = bS st ++ [x a].
Proof.
  intros C Hak EQ HkS Fb FQ FR.
  pose proof (core_move k a b st (x a) q C EQ) as C1.
  destruct (pc_bounds _ _ _ _ _ C) as (B1 & B2 & B3).
  destruct (core_lookup k a b st a C) as [ED Esig]; try lia.
  rewrite ED. replace (dist a k) with (k - a) by (unfold dist; lia).
  rewrite path_neighbors by lia.
  set (sv := dgetd (bsigma st) (x a) 0%Q) in *.
  set (s1 := mkBFS (bS st ++ [x a]) (bP st) (bsigma st) (bD st) q) in *.
  assert (Hq : ~ In (x a) q).
  { pose proof (pc_nodup _ _ _ _ _ C) as ND. rewrite EQ in ND.
    apply NoDup_remove_2 in ND. intro H. apply ND, in_or_app. now right. }
  assert (Hqb : forall y, In y q -> y = x b).
  { intros y Hy.
    assert (Hy' : In y (bQ st)) by (rewrite EQ; now right).
    destruct (FQ y Hy') as [E|E]; [subst y; contradiction | exact E]. }
  assert (Hbq : b + 1 < n -> In (x b) q).
  { intro H. specialize (FR H). rewrite EQ in FR. destruct FR as [E|]; auto.
    apply x_inj in E; lia. }
  replace (a + 1 <? n) with true by range_cases.
  destruct (Nat.ltb_spec 0 a) as [Ha|Ha]; cbn [app fold_left].
  - rewrite (visit_new_at k a b s1) by (auto; try lia; range_cases).
    pose proof (core_extend_left k a b s1 sv C1 Ha Esig) as C2.
    set (s2 := discover (x a) (k - a) sv s1 (x (a - 1))) in *.
    rewrite (visit_old_at k (a - 1) b s2)
      by (auto; try lia; range_cases).
    exists (a - 1), b. split; [exact C2|]. split; [|reflexivity].
    right. simpl. repeat split; try lia.
    + apply in_or_app. now left.
    + intros y Hy. apply in_app_or in Hy. destruct Hy as [Hy|[<-|[]]]; auto.
    + intros _. apply in_or_app. right. now left.
    + intro H. apply in_or_app. left. auto.
  - rewrite (visit_old_at k a b s1) by (auto; try lia; range_cases).
    exists a, b. split; [exact C1|]. split; [|reflexivity].
    right. simpl. repeat split; try lia.
    + apply in_or_app. now left.
    + intros y Hy. right. auto.
    + auto.
Qed.

Lemma path_step_right k a b st q :
  path_core xs k a b st -> k < b -> bQ st = x b :: q ->
  In (x k) (bS st) ->
  (0 < k -> a < k) ->
  (forall y, In y (bQ st) -> y = x a \/ y = x b) ->
  (0 < a -> In (x a) (bQ st)) ->
  exists a' b',
    let st' :=
      fold_left (bfs_visit (x b) (dgetd (bD st) (x b) 0)
                           (dgetd (bsigma st) (x b) 0%Q))
        (map fst (neighbors (path_graph xs ds) (x b)))
        (mkBFS (bS st ++ [x b]) (bP st) (bsigma st) (bD st) q) in
    path_core xs k a' b' st' /\ path_front xs k a' b' st' /\
    bS st' = bS st ++ [x b].
Proof.
  intros C Hkb EQ HkS Fa FQ FL.
  pose proof (core_move k a b st (x b) q C EQ) as C1.
  destruct (pc_bounds _ _ _ _ _ C) as (B1 & B2 & B3).
  destruct (core_lookup k a b st b C) as [ED Esig]; try lia.
  rewrite ED. replace (dist b k) with (b - k) by (unfold dist; lia).
  rewrite path_neighbors by lia.
  set (sv := dgetd (bsigma st) (x b) 0%Q) in *.
  set (s1 := mkBFS (bS st ++ [x b]) (bP st) (bsigma st) (bD st) q) in *.
  assert (Hq : ~ In (x b) q).
  { pose proof (pc_nodup _ _ _ _ _ C) as ND. rewrite EQ in ND.
    apply NoDup_remove_2 in ND. intro H. apply ND, in_or_app. now right. }
  assert (Hqa : forall y, In y q -> y = x a).
  { intros y Hy.
    assert (Hy' : In y (bQ st)) by (rewrite EQ; now right).
    destruct (FQ y Hy') as [E|E]; [exact E | subst y; contradiction]. }
  assert (Haq : 0 < a -> In (x a) q).
  { intro H. specialize (FL H). rewrite EQ in FL. destruct FL as [E|]; auto.
    apply x_inj in E; lia. }
  replace (0 <? b) with true by range_cases.
  destruct (Nat.ltb_spec (b + 1) n) as [Hb|Hb]; cbn [app fold_left].
  - rewrite (visit_old_at k a b s1) by (auto; try lia; range_cases).
    rewrite (visit_new_at k a b s1) by (auto; try lia; range_cases).
    pose proof (core_extend_right k a b s1 sv C1 Hb Esig) as C2.
    exists a, (b + 1). split; [exact C2|]. split; [|reflexivity].
    right. simpl. repeat split; try lia.
    + apply in_or_app. now left.
    + intros y Hy. apply in_app_or in Hy. destruct Hy as [Hy|[<-|[]]]; auto.
    + intro H. apply in_or_app. left. auto.
    + intros _. apply in_or_app. right. now left.
  - rewrite (visit_old_at k a b s1) by (auto; try lia; range_cases).
    exists a, b. split; [exact C1|]. split; [|reflexivity].
    right. simpl. repeat split; try lia.
    + apply in_or_app. now left.
    + intros y Hy. left. auto.
    + auto.
Qed.

Lemma path_final k a b st :
  path_core xs k a b st -> path_front xs k a b st -> bQ st = [] ->
  a = 0 /\ b = n - 1 /\ In (x k) (bS st).
Proof.
  intros C F EQ. destruct (pc_bounds _ _ _ _ _ C) as (B1 & B2 & B3).
  destruct F as [(_ & EQ' & _)|(HkS & _ & _ & _ & FL & FR)].
  - rewrite EQ in EQ'. discriminate.
  - rewrite EQ in FL, FR. simpl in FL, FR. repeat split; auto.
    + destruct (Nat.eq_dec a 0); [assumption | exfalso; apply FL; lia].
    + destruct (Nat.eq_dec b (n - 1)); [assumption | exfalso; apply FR; lia].
Qed.

Lemma path_queue_bound k a b st :
  path_core xs k a b st -> length (bS st) + length (bQ st) <= n.
Proof.
  intro C. rewrite <- length_app.
  apply NoDup_incl_length; [apply (pc_nodup _ _ _ _ _ C)|].
  intros y Hy. apply (pc_elems _ _ _ _ _ C) in Hy.
  destruct Hy as (i & _ & Hi & ->).
  destruct (pc_bounds _ _ _ _ _ C) as (_ & _ & B3).
  apply x_In. lia.
Qed.

Lemma path_bfs_loop fuel :
  forall st k a b,
  path_core xs k a b st -> path_front xs k a b st ->
  n <= fuel + length (bS st) ->
  bQ (bfs_loop fuel (path_graph xs ds) st) = [] /\
  path_core xs k 0 (n - 1) (bfs_loop fuel (path_graph xs ds) st) /\
  In (x k) (bS (bfs_loop fuel (path_graph xs ds) st)).
Proof.
  induction fuel as [|fuel IH]; intros st k a b C F Hf.
  - simpl. pose proof (path_queue_bound k a b st C) as Hb.
    assert (EQ : bQ st = []).
    { destruct (bQ st); [reflexivity | simpl in *; lia]. }
    destruct (path_final k a b st C F EQ) as (-> & -> & Hk). auto.
  - simpl. destruct (bQ st) as [|v q] eqn:EQ.
    + destruct (path_final k a b st C F EQ) as (-> & -> & Hk). auto.
    + destruct (pc_bounds _ _ _ _ _ C) as (B1 & B2 & B3).
      assert (Hstep : exists a' b',
        let st' :=
          fold_left (bfs_visit v (dgetd (bD st) v 0) (dgetd (bsigma st) v 0%Q))
            (map fst (neighbors (path_graph xs ds) v))
            (mkBFS (bS st ++ [v]) (bP st) (bsigma st) (bD st) q) in
        path_core xs k a' b' st' /\ path_front xs k a' b' st' /\
        bS st' = bS st ++ [v]).
      { destruct F as [(ES & EQ' & -> & ->)|(HkS & Fa & Fb & FQ & FL & FR)].
        - rewrite EQ in EQ'. inversion EQ'; subst v q.
          now apply path_step_init.
        - assert (Hvk : v <> x k).
          { intros ->. pose proof (pc_nodup _ _ _ _ _ C) as ND.
            rewrite EQ in ND. apply NoDup_remove_2 in ND.
            apply ND, in_or_app. now left. }
          assert (Hv : v = x a \/ v = x b)
            by (apply FQ; rewrite EQ; now left).
          destruct Hv as [->| ->].
          + apply (path_step_left k a b st q); auto.
            destruct (Nat.eq_dec a k) as [->|]; [contradiction | lia].
          + apply (path_step_right k a b st q); auto.
            destruct (Nat.eq_dec b k) as [->|]; [contradiction | lia]. }
      destruct Hstep as (a' & b' & C' & F' & ES').
      apply (IH _ k a' b' C' F'). rewrite ES', length_app. simpl. lia.
Qed.

Lemma path_bfs_start k :
  k < n ->
  let st0 :=
    mkBFS [] (map (fun v => (v, @nil node)) xs)
          (dset key_eqb (map (fun v => (v, 0%Q)) xs) (x k) 1%Q)
          [(x k, 0)] [x k] in
  path_core xs k k k st0 /\ path_front xs k k k st0.
Proof.
  intros Hk st0. split; [split; simpl|].
  - lia.
  - intros i Hi. rewrite x_eqb by assumption.
    unfold in_range, dist.
    destruct (Nat.eqb_spec i k) as [->|Hne].
    + rewrite Nat.leb_refl. simpl. f_equal. lia.
    + destruct (Nat.leb_spec k i), (Nat.leb_spec i k); simpl;
        try reflexivity; lia.
  - intros i Hi. rewrite dgetd_dset, x_eqb by assumption.
    unfold in_range.
    destruct (Nat.eqb_spec i k) as [->|Hne].
    + rewrite Nat.leb_refl. reflexivity.
    + unfold dgetd. rewrite dget_table.
      replace ((k <=? i) && (i <=? k)) with false
        by (destruct (Nat.leb_spec k i), (Nat.leb_spec i k); simpl;
            try reflexivity; lia).
      destruct (lmem key_eqb (x i) xs); reflexivity.
  - intros i Hi. unfold dgetd. rewrite dget_table.
    assert (E : (if in_range k k i then path_pred xs k i else []) = []).
    { unfold in_range, path_pred.
      destruct (Nat.leb_spec k i), (Nat.leb_spec i k); simpl;
        try reflexivity.
      replace (i <? k) with false by (symmetry; apply Nat.ltb_ge; lia).
      replace (k <? i) with false by (symmetry; apply Nat.ltb_ge; lia).
      reflexivity. }
    rewrite E. destruct (lmem key_eqb (x i) xs); reflexivity.
  - repeat constructor. intros [].
  - intro y. split.
    + intros [<-|[]]. exists k. auto.
    + intros (i & H1 & H2 & ->). left. f_equal. lia.
  - intros l1 l2 i E H1 H2 Hin. split; intro; lia.
  - left. auto.
Qed.

(** The result of the search from position [k]. *)
Lemma path_bfs_result k :
  k < n ->
  let r := single_source_shortest_path_basic (path_graph xs ds) (x k) in
  bQ r = [] /\ path_core xs k 0 (n - 1) r.
Proof.
  intros Hk r. unfold r, single_source_shortest_path_basic.
  rewrite path_graph_nodes.
  destruct (path_bfs_start k Hk) as [C F].
  destruct (path_bfs_loop n _ k k k C F) as (H1 & H2 & _).
  - simpl. lia.
  - auto.
Qed.
End Path.

(** ** Accumulation of the dependencies on a path *)

Section PathAccumulate.
Variable xs : list node.
Hypothesis xs_NoDup : NoDup xs.
Hypothesis xs_named : ~ In None xs.
Variable k : nat.
Hypothesis k_lt : k < length xs.
Variable P : list (node * list node).
Variable sigma : list (node * Q).
Variable S : list node.

Local Abbreviation n := (length xs).
Local Abbreviation x := (xnode xs).

Hypothesis sigma_one : forall i, i < n -> (dgetd sigma (x i) 0 == 1)%Q.
Hypothesis P_pred : forall i, i < n -> dgetd P (x i) [] = path_pred xs k i.
Hypothesis S_NoDup : NoDup S.
Hypothesis S_elems : forall y, In y S <-> exists i, i < n /\ y = x i.
Hypothesis S_order : forall l1 l2 i,
  S = l1 ++ l2 -> i < n -> In (x i) l1 ->
  (i < k -> In (x (i + 1)) l1) /\ (k < i -> In (x (i - 1)) l1).

Lemma x_named i : i < n -> x i <> None.
Proof.
  intros Hi E. apply xs_named. rewrite <- E. unfold xnode. now apply nth_In.
Qed.

Lemma lmem_x_cons j i T :
  i < n -> j < n ->
  lmem key_eqb (x i) (x j :: T) = (i =? j) || lmem key_eqb (x i) T.
Proof. intros Hi Hj. simpl. now rewrite (x_eqb xs xs_NoDup). Qed.

(** When [x j] is taken from the stack its children have been taken. *)
Lemma children_taken l1 l2 j :
  S = l1 ++ x j :: l2 -> j < n ->
  (0 < j -> j <= k -> lmem key_eqb (x (j - 1)) l2 = true) /\
  (k <= j -> j + 1 < n -> lmem key_eqb (x (j + 1)) l2 = true) /\
  lmem key_eqb (x j) l2 = false.
Proof.
  intros E Hj.
  assert (ND := S_NoDup). rewrite E in ND.
  assert (Hw1 : ~ In (x j) l1).
  { intro H. apply NoDup_remove_2 in ND. apply ND, in_or_app. now left. }
  assert (Hw2 : ~ In (x j) l2).
  { intro H. apply NoDup_remove_2 in ND. apply ND, in_or_app. now right. }
  assert (Hc : forall c, c < n -> c <> j ->
              ((c < k -> c + 1 = j) /\ (k < c -> c - 1 = j) /\ c <> k) ->
              lmem key_eqb (x c) l2 = true).
  { intros c Hc Hne (H1 & H2 & H3). apply lmem_In.
    assert (Hin : In (x c) S) by (apply S_elems; eauto).
    rewrite E in Hin. apply in_app_or in Hin. destruct Hin as [Hin|[Hin|Hin]].
    - exfalso. destruct (S_order l1 (x j :: l2) c E Hc Hin) as [O1 O2].
      destruct (Nat.lt_trichotomy c k) as [L|[L|L]]; [|lia|].
      + apply Hw1. rewrite <- (H1 L). auto.
      + apply Hw1. rewrite <- (H2 L). auto.
    - exfalso. apply Hne. symmetry.
      apply (x_inj xs xs_NoDup); assumption.
    - assumption. }
  split; [|split].
  - intros H1 H2. apply Hc; lia.
  - intros H1 H2. apply Hc; lia.
  - now apply lmem_not_In.
Qed.

Ltac bool_cases :=
  repeat match goal with
  | |- context [?a <=? ?b] => destruct (Nat.leb_spec a b)
  | |- context [?a <? ?b] => destruct (Nat.ltb_spec a b)
  | |- context [?a =? ?b] => destruct (Nat.eqb_spec a b)
  end; simpl; try lia.

Lemma partial_delta_cons j T i :
  i < n -> j < n -> lmem key_eqb (x j) T = false ->
  partial_delta xs k (x j :: T) i =
  partial_delta xs k T i +
  (if (j <? k) && (i =? j + 1) then i else 0) +
  (if (k <? j) && (i + 1 =? j) then n - 1 - i else 0).
Proof.
  intros Hi Hj HT. unfold partial_delta.
  assert (E1 : (0 <? i) && (i <=? k) && lmem key_eqb (x (i - 1)) (x j :: T) =
               (0 <? i) && (i <=? k) && lmem key_eqb (x (i - 1)) T
               || (j <? k) && (i =? j + 1)).
  { rewrite lmem_x_cons by lia.
    destruct (Nat.eqb_spec (i - 1) j) as [E|E].
    - rewrite E, HT. bool_cases.
    - destruct (lmem key_eqb (x (i - 1)) T); bool_cases. }
  assert (E2 : (k <=? i) && (i + 1 <? n) && lmem key_eqb (x (i + 1)) (x j :: T) =
               (k <=? i) && (i + 1 <? n) && lmem key_eqb (x (i + 1)) T
               || (k <? j) && (i + 1 =? j)).
  { destruct (Nat.ltb_spec (i + 1) n) as [L|L].
    - rewrite lmem_x_cons by lia.
      destruct (Nat.eqb_spec (i + 1) j) as [E|E].
      + rewrite E, HT. bool_cases.
      + destruct (lmem key_eqb (x (i + 1)) T); bool_cases.
    - rewrite !andb_false_r. simpl. bool_cases. }
  rewrite E1, E2.
  assert (D1 : (0 <? i) && (i <=? k) && lmem key_eqb (x (i - 1)) T = true ->
               (j <? k) && (i =? j + 1) = false).
  { intro H. destruct (Nat.eqb_spec i (j + 1)) as [E|E];
      [|now rewrite andb_false_r].
    replace (i - 1) with j in H by lia. rewrite HT in H.
    rewrite andb_false_r in H. discriminate. }
  assert (D2 : (k <=? i) && (i + 1 <? n) && lmem key_eqb (x (i + 1)) T = true ->
               (k <? j) && (i + 1 =? j) = false).
  { intro H. destruct (Nat.eqb_spec (i + 1) j) as [E|E];
      [|now rewrite andb_false_r].
    rewrite E, HT in H. rewrite andb_false_r in H. discriminate. }
  destruct ((0 <? i) && (i <=? k) && lmem key_eqb (x (i - 1)) T);
    destruct ((k <=? i) && (i + 1 <? n) && lmem key_eqb (x (i + 1)) T);
    try rewrite (D1 eq_refl); try rewrite (D2 eq_refl); simpl;
    destruct ((j <? k) && (i =? j + 1)); destruct ((k <? j) && (i + 1 =? j));
    simpl; lia.
Qed.

Lemma partial_sum_cons j T i :
  i < n -> j < n -> lmem key_eqb (x j) T = false ->
  partial_sum xs k (x j :: T) i =
  partial_sum xs k T i + (if i =? j then behind n k j else 0).
Proof.
  intros Hi Hj HT. unfold partial_sum. rewrite lmem_x_cons by lia.
  destruct (Nat.eqb_spec i j) as [->|E]; simpl.
  - rewrite HT. reflexivity.
  - destruct (lmem key_eqb (x i) T); lia.
Qed.

Lemma partial_delta_full l1 l2 j :
  S = l1 ++ x j :: l2 -> j < n ->
  partial_delta xs k l2 j =
  if j =? k then n - 1 else behind n k j.
Proof.
  intros E Hj. destruct (children_taken l1 l2 j E Hj) as (C1 & C2 & _).
  unfold partial_delta, behind.
  destruct (Nat.ltb_spec 0 j) as [L1|L1];
    destruct (Nat.leb_spec j k) as [L2|L2]; simpl;
    try rewrite C1 by lia;
    destruct (Nat.leb_spec k j) as [L3|L3];
    destruct (Nat.ltb_spec (j + 1) n) as [L4|L4]; simpl;
    try rewrite C2 by lia; bool_cases.
Qed.

Ltac qnat :=
  rewrite ?Qnat_plus; unfold Qnat;
  change (Z.of_nat 1) with 1%Z; change (Z.of_nat 0) with 0%Z;
  change (inject_Z 1) with 1%Q; change (inject_Z 0) with 0%Q; ring.

Lemma dgetd_zeros (l : list node) (y : node) :
  dgetd (map (fun v => (v, 0%Q)) l) y 0%Q = 0%Q.
Proof.
  unfold dgetd. rewrite dget_table. now destruct (lmem key_eqb y l).
Qed.

Lemma accumulate_invariant (B0 : list (node * Q)) :
  forall l2 l1, S = l1 ++ l2 ->
  forall B delta,
  fold_left (accumulate_step P sigma (x k)) (rev l2)
            (B0, map (fun v => (v, 0%Q)) S) = (B, delta) ->
  (forall i, i < n ->
     (dgetd delta (x i) 0 == Qnat (partial_delta xs k l2 i))%Q) /\
  (forall i, i < n ->
     (dgetd B (x i) 0 ==
      dgetd B0 (x i) 0 + Qnat (partial_sum xs k l2 i))%Q).
Proof.
  induction l2 as [|w l2 IH]; intros l1 E B delta HF.
  - simpl in HF. inversion HF; subst. split; intros i Hi.
    + rewrite dgetd_zeros. unfold partial_delta. simpl.
      rewrite !andb_false_r. reflexivity.
    + unfold partial_sum. simpl. qnat.
  - simpl in HF. rewrite fold_left_app in HF. simpl in HF.
    destruct (fold_left (accumulate_step P sigma (x k)) (rev l2)
                (B0, map (fun v => (v, 0%Q)) S)) as [B1 d1] eqn:EF.
    assert (E' : S = (l1 ++ [w]) ++ l2) by (rewrite <- app_assoc; exact E).
    destruct (IH _ E' B1 d1 eq_refl) as [Hd HB].
    assert (Hw : In w S) by (rewrite E; apply in_or_app; right; now left).
    apply S_elems in Hw. destruct Hw as (j & Hj & ->).
    destruct (children_taken l1 l2 j E Hj) as (_ & _ & HT).
    pose proof (partial_delta_full l1 l2 j E Hj) as Hfull.
    assert (Hcoeff : ((1 + dgetd d1 (x j) 0) / dgetd sigma (x j) 0 ==
                      1 + Qnat (partial_delta xs k l2 j))%Q).
    { rewrite Hd, sigma_one by assumption. field. }
    unfold accumulate_step in HF. rewrite P_pred in HF by assumption.
    rewrite (cell_eqb_key (x j) (x k) (x_named j Hj)) in HF.
    rewrite (x_eqb xs xs_NoDup) in HF by assumption.
    unfold path_pred in HF.
    destruct (Nat.ltb_spec j k) as [L|L].
    + (* left of the source *)
      replace (j =? k) with false in * by (symmetry; apply Nat.eqb_neq; lia).
      simpl in HF. inversion HF; subst B delta; clear HF.
      split; intros i Hi.
      * rewrite dgetd_dset, (x_eqb xs xs_NoDup) by lia.
        rewrite partial_delta_cons by assumption.
        replace (j <? k) with true by (symmetry; apply Nat.ltb_lt; lia).
        replace (k <? j) with false by (symmetry; apply Nat.ltb_ge; lia).
        simpl. destruct (Nat.eqb_spec i (j + 1)) as [->|Hne].
        -- rewrite Hd, sigma_one, Hcoeff, Hfull by lia.
           unfold behind.
           replace (j <? k) with true by (symmetry; apply Nat.ltb_lt; lia).
           qnat.
        -- rewrite Hd by assumption. rewrite !Nat.add_0_r. reflexivity.
      * rewrite dgetd_dset, (x_eqb xs xs_NoDup) by lia.
        rewrite partial_sum_cons by assumption.
        destruct (Nat.eqb_spec i j) as [->|Hne].
        -- rewrite dgetd_dset, (x_eqb xs xs_NoDup) by lia.
           replace (j =? j + 1) with false
             by (symmetry; apply Nat.eqb_neq; lia).
           rewrite HB, Hd, Hfull by assumption.
           unfold partial_sum. rewrite HT. qnat.
        -- rewrite HB by assumption. rewrite Nat.add_0_r. reflexivity.
    + destruct (Nat.ltb_spec k j) as [R|R].
      * (* right of the source *)
        replace (j =? k) with false in * by (symmetry; apply Nat.eqb_neq; lia).
        simpl in HF. inversion HF; subst B delta; clear HF.
        split; intros i Hi.
        -- rewrite dgetd_dset, (x_eqb xs xs_NoDup) by lia.
           rewrite partial_delta_cons by assumption.
           replace (j <? k) with false by (symmetry; apply Nat.ltb_ge; lia).
           replace (k <? j) with true by (symmetry; apply Nat.ltb_lt; lia).
           simpl. destruct (Nat.eqb_spec i (j - 1)) as [->|Hne].
           ++ replace (j - 1 + 1 =? j) with true
                by (symmetry; apply Nat.eqb_eq; lia).
              rewrite Hd, sigma_one, Hcoeff, Hfull by lia.
              unfold behind.
              replace (j <? k) with false by (symmetry; apply Nat.ltb_ge; lia).
              replace (k <? j) with true by (symmetry; apply Nat.ltb_lt; lia).
              replace (n - 1 - (j - 1)) with (1 + (n - 1 - j)) by lia.
              qnat.
           ++ replace (i + 1 =? j) with false
                by (symmetry; apply Nat.eqb_neq; lia).
              rewrite Hd by assumption. rewrite !Nat.add_0_r. reflexivity.
        -- rewrite dgetd_dset, (x_eqb xs xs_NoDup) by lia.
           rewrite partial_sum_cons by assumption.
           destruct (Nat.eqb_spec i j) as [->|Hne].
           ++ rewrite dgetd_dset, (x_eqb xs xs_NoDup) by lia.
              replace (j =? j - 1) with false
                by (symmetry; apply Nat.eqb_neq; lia).
              rewrite HB, Hd, Hfull by assumption.
              unfold partial_sum. rewrite HT. qnat.
           ++ rewrite HB by assumption. rewrite Nat.add_0_r. reflexivity.
      * (* the source *)
        assert (j = k) by lia. subst j.
        rewrite Nat.eqb_refl in HF. simpl in HF.
        inversion HF; subst B delta; clear HF.
        split; intros i Hi.
        -- rewrite partial_delta_cons by assumption.
           rewrite Nat.ltb_irrefl. simpl. rewrite Hd by assumption.
           rewrite !Nat.add_0_r. reflexivity.
        -- rewrite partial_sum_cons by assumption.
           rewrite HB by assumption. unfold behind. rewrite Nat.ltb_irrefl.
           destruct (i =? k); rewrite Nat.add_0_r; reflexivity.
Qed.
End PathAccumulate.

(** ** All sources of a path *)

Lemma dset_keys_mono {V : Type} (d : list (node * V)) k v y :
  In y (map fst d) -> In y (map fst (dset key_eqb d k v)).
Proof. intro H. apply dset_keys_In. now right. Qed.

Lemma accumulate_step_keys P sigma s acc w y :
  In y (map fst (fst acc)) ->
  In y (map fst (fst (accumulate_step P sigma s acc w))).
Proof.
  intro H. unfold accumulate_step. destruct acc as [B delta].
  destruct (cell_eqb w s); simpl; [assumption|].
  now apply dset_keys_mono.
Qed.

Lemma accumulate_keys B r s y :
  In y (map fst B) -> In y (map fst (fst (accumulate_basic B r s))).
Proof.
  unfold accumulate_basic. intro H.
  assert (H0 : In y (map fst (fst (B, map (fun v => (v, 0%Q)) (bS r)))))
    by exact H.
  revert H0. generalize (B, map (fun v => (v, 0%Q)) (bS r)).
  generalize (rev (bS r)). intro l.
  induction l as [|w l IH]; intros acc H0; simpl; [assumption|].
  apply IH. now apply accumulate_step_keys.
Qed.

Lemma brandes_sums_keys G y :
  In y (g_node G) -> In y (map fst (brandes_sums G)).
Proof.
  intro H. unfold brandes_sums.
  assert (H0 : In y (map fst (map (fun v => (v, 0%Q)) (g_node G)))).
  { rewrite map_map. simpl. now rewrite map_id. }
  assert (K : forall l B, In y (map fst B) ->
    In y (map fst (fold_left (fun betweenness s =>
        fst (accumulate_basic betweenness
               (single_source_shortest_path_basic G s) s)) l B))).
  { intro l. induction l as [|s l IH]; intros B HB; simpl; [assumption|].
    apply IH. now apply accumulate_keys. }
  now apply K.
Qed.

Lemma dgetd_present {V : Type} (d : list (node * V)) y dflt :
  In y (map fst d) ->
  exists v, dget key_eqb d y = Some v /\ dgetd d y dflt = v.
Proof.
  intro H. unfold dgetd. destruct (dget key_eqb d y) as [v|] eqn:E.
  - exists v. auto.
  - apply dget_None_keys in E. contradiction.
Qed.

Lemma sum_const (f : nat -> nat) (c : nat) (l : list nat) :
  (forall k, In k l -> f k = c) ->
  fold_right Nat.add 0 (map f l) = length l * c.
Proof.
  induction l as [|a l IH]; intro H; simpl; [reflexivity|].
  rewrite H by now left. rewrite IH by (intros; apply H; now right). lia.
Qed.

Lemma fold_right_add_app (l1 l2 : list nat) :
  fold_right Nat.add 0 (l1 ++ l2) =
  fold_right Nat.add 0 l1 + fold_right Nat.add 0 l2.
Proof. induction l1 as [|a l IH]; simpl; [reflexivity | rewrite IH; lia]. Qed.

Lemma total_behind_closed n i :
  i < n -> total_behind n i = 2 * (i * (n - 1 - i)).
Proof.
  intro Hi. unfold total_behind.
  assert (E : seq 0 n = seq 0 i ++ [i] ++ seq (i + 1) (n - 1 - i)).
  { replace n with (i + (1 + (n - 1 - i))) at 1 by lia.
    rewrite seq_app. simpl. f_equal. f_equal. f_equal. lia. }
  rewrite E, !map_app, !fold_right_add_app. simpl.
  rewrite (sum_const _ (n - 1 - i)).
  2:{ intros k Hk. apply in_seq in Hk. unfold behind.
      replace (i <? k) with false by (symmetry; apply Nat.ltb_ge; lia).
      replace (k <? i) with true by (symmetry; apply Nat.ltb_lt; lia).
      reflexivity. }
  rewrite (sum_const _ i).
  2:{ intros k Hk. apply in_seq in Hk. unfold behind.
      replace (i <? k) with true by (symmetry; apply Nat.ltb_lt; lia).
      reflexivity. }
  rewrite !length_seq. unfold behind. rewrite Nat.ltb_irrefl. lia.
Qed.

Section PathSum.
Variable xs : list node.
Hypothesis xs_NoDup : NoDup xs.
Hypothesis xs_named : ~ In None xs.
Variable ds : list cell.

Local Abbreviation n := (length xs).
Local Abbreviation x := (xnode xs).
Local Abbreviation G := (path_graph xs ds).

(** What the search and the accumulation from source [k] add. *)
Lemma path_source k B :
  k < n ->
  forall i, i < n ->
  (dgetd (fst (accumulate_basic B
                 (single_source_shortest_path_basic G (x k)) (x k)))
         (x i) 0 ==
   dgetd B (x i) 0 + Qnat (behind n k i))%Q.
Proof.
  intros Hk i Hi.
  destruct (path_bfs_result xs xs_NoDup ds k Hk) as [EQ C].
  set (r := single_source_shortest_path_basic G (x k)) in *.
  pose proof C as [Bd HD Hs HP ND He Ho].
  rewrite EQ, app_nil_r in ND, He, Ho.
  assert (Hr : forall j, j < n -> in_range 0 (n - 1) j = true).
  { intros j Hj. unfold in_range.
    apply andb_true_iff. split; apply Nat.leb_le; lia. }
  unfold accumulate_basic.
  destruct (fold_left (accumulate_step (bP r) (bsigma r) (x k)) (rev (bS r))
              (B, map (fun v => (v, 0%Q)) (bS r))) as [B' delta] eqn:EF.
  destruct (accumulate_invariant xs xs_NoDup xs_named k Hk (bP r) (bsigma r) (bS r))
    with (B0 := B) (l2 := bS r) (l1 := @nil node) (B := B') (delta := delta)
    as [_ HB]; auto.
  - intros j Hj. rewrite Hs by assumption. now rewrite Hr.
  - intros j Hj. rewrite HP by assumption. now rewrite Hr.
  - intro y. rewrite He. split.
    + intros (j & _ & Hj & ->). exists j. split; [lia | reflexivity].
    + intros (j & Hj & ->). exists j. repeat split; lia.
  - intros l1 l2 j E Hj Hin. apply (Ho l1 l2 j E); [lia | lia | assumption].
  - simpl. rewrite HB by assumption. unfold partial_sum.
    assert (Hin : In (x i) (bS r)).
    { apply He. exists i. repeat split; lia. }
    apply lmem_In in Hin. rewrite Hin. reflexivity.
Qed.

Lemma path_sources (ks : list nat) :
  (forall k, In k ks -> k < n) ->
  forall B i, i < n ->
  (dgetd (fold_left (fun B s =>
             fst (accumulate_basic B
                    (single_source_shortest_path_basic G s) s))
           (map x ks) B) (x i) 0 ==
   dgetd B (x i) 0 +
   Qnat (fold_right Nat.add 0%nat (map (fun k => behind n k i) ks)))%Q.
Proof.
  induction ks as [|k ks IH]; intros Hks B i Hi; simpl.
  - unfold Qnat. simpl. ring.
  - rewrite IH by (auto; intros; apply Hks; now right).
    rewrite path_source by (auto; apply Hks; now left).
    rewrite !Qnat_plus. ring.
Qed.

Lemma path_brandes_sums i :
  i < n ->
  exists sum,
    dget key_eqb (brandes_sums G) (x i) = Some sum /\
    (sum == Qnat (2 * (i * (n - 1 - i))))%Q.
Proof.
  intro Hi.
  destruct (dgetd_present (brandes_sums G) (x i) 0%Q) as (sum & E1 & E2).
  { apply brandes_sums_keys. simpl. now apply x_In. }
  exists sum. split; [assumption|]. rewrite <- E2.
  unfold brandes_sums. simpl g_node.
  rewrite <- (map_x_seq xs) at 1.
  rewrite path_sources; [|intros k Hk; apply in_seq in Hk; lia | assumption].
  unfold dgetd at 1. rewrite dget_table.
  fold (total_behind n i). rewrite total_behind_closed by assumption.
  destruct (lmem key_eqb (x i) xs); ring.
Qed.
End PathSum.

(** ** The analysis on a platform *)

Lemma analyze_fp_Some P R G df res :
  analyze_disaster_spread_fp P R G df = Some res ->
  loc_alert_levels P df = Some (alert_levels_fp P df) /\
  res = mkResults
    (sort_reverse (key_lt risk_score)
       (risk_candidates_fp P (degree_centrality_fp P G)
          (alert_levels_fp P df)))
    (sort_clusters P
       (cluster_candidates_fp P (run_detect R G) (alert_levels_fp P df)))
    (sort_reverse (key_lt path_betweenness)
       (path_candidates_fp P R G (betweenness_centrality_fp P G))).
Proof.
  unfold analyze_disaster_spread_fp, loc_alert_levels.
  destruct (has_column df "location" && has_column df "alert_level");
    intro H; inversion H; split; reflexivity.
Qed.

Lemma analyze_fp_total P R G df :
  has_column df "location" = true -> has_column df "alert_level" = true ->
  exists res, analyze_disaster_spread_fp P R G df = Some res.
Proof.
  intros H1 H2. unfold analyze_disaster_spread_fp, loc_alert_levels.
  rewrite H1, H2. simpl. eauto.
Qed.

Lemma risk_candidates_fp_In P centrality levels e :
  In e (risk_candidates_fp P centrality levels) <->
  exists loc cent alert,
    In (loc, cent) centrality /\
    dget key_eqb levels loc = Some (Some alert) /\
    (1 # 2 < fmul P cent alert)%Q /\
    e = mkRisk loc cent alert (fmul P cent alert).
Proof.
  unfold risk_candidates_fp. rewrite in_flat_map. split.
  - intros ([loc cent] & Hin & He).
    destruct (dget key_eqb levels loc) as [[alert|]|] eqn:E;
      try contradiction.
    destruct (Qltb (1 # 2) (fmul P cent alert)) eqn:L; [|contradiction].
    destruct He as [<-|[]]. apply Qltb_lt in L.
    exists loc, cent, alert. auto.
  - intros (loc & cent & alert & Hin & E & L & ->).
    exists (loc, cent). split; [assumption|].
    rewrite E. apply Qltb_lt in L. rewrite L. now left.
Qed.

Lemma risk_candidates_fp_locations P centrality levels :
  map risk_location (risk_candidates_fp P centrality levels) =
  map fst (filter (qualifies_fp P levels) centrality).
Proof.
  unfold risk_candidates_fp, qualifies_fp.
  induction centrality as [|[loc cent] t IH]; simpl; [reflexivity|].
  rewrite map_app, IH.
  destruct (dget key_eqb levels loc) as [[alert|]|]; simpl; try reflexivity.
  destruct (Qltb (1 # 2) (fmul P cent alert)); reflexivity.
Qed.

Lemma path_candidates_fp_map P R G b :
  path_candidates_fp P R G b =
  map (path_entry_fp P R b)
      (filter (fun e => Qltb float_0_1 (edge_score_fp P b e)) (edges G)).
Proof.
  unfold path_candidates_fp. induction (edges G) as [|[[u v] data] t IH];
    simpl; [reflexivity|].
  unfold edge_score_fp at 1. simpl.
  destruct (Qltb float_0_1 (fadd P (dgetd b u 0%Q) (dgetd b v 0%Q))); simpl;
    now rewrite IH.
Qed.

Lemma alert_levels_fp_lookup P df n :
  dget key_eqb (alert_levels_fp P df) n =
  if is_some n && lmem key_eqb n (map location (rows df))
  then Some (mean_fp P (group_alerts df n)) else None.
Proof.
  unfold alert_levels_fp. rewrite dget_table.
  destruct (lmem key_eqb n (filter is_some (unique (map location (rows df)))))
    eqn:E.
  - apply lmem_In, filter_In in E. destruct E as [E1 E2].
    rewrite E2. apply (proj1 (unique_In _ _)), lmem_In in E1. now rewrite E1.
  - destruct (is_some n) eqn:Sn; [|reflexivity].
    destruct (lmem key_eqb n (map location (rows df))) eqn:L; [|reflexivity].
    apply lmem_not_In in E. exfalso. apply E. apply filter_In.
    split; [|assumption]. apply unique_In. now apply lmem_In.
Qed.

Lemma cluster_candidates_fp_In P communities levels c :
  In c (cluster_candidates_fp P communities levels) <->
  exists i community,
    nth_error communities i = Some community /\
    1 < length community /\
    c = mkCluster i community (length community)
          (np_mean_fp P (map (member_alert levels) community)).
Proof.
  unfold cluster_candidates_fp. rewrite in_flat_map. split.
  - intros ([i comm] & Hin & Hc).
    apply enumerate_from_In in Hin. destruct Hin as [_ Hin].
    rewrite Nat.sub_0_r in Hin.
    destruct (1 <? length comm) eqn:E; [|contradiction].
    apply Nat.ltb_lt in E. destruct Hc as [<-|[]].
    exists i, comm. auto.
  - intros (i & comm & Hn & Hl & ->).
    exists (i, comm). split.
    + apply enumerate_from_In. rewrite Nat.sub_0_r. split; [lia | assumption].
    + apply Nat.ltb_lt in Hl. rewrite Hl. now left.
Qed.

(** *** The sort of the clusters *)

Lemma sort_clusters_perm P l :
  sort_is_permutation P -> Permutation (sort_clusters P l) l.
Proof.
  intro H. unfold sort_clusters.
  destruct (averages_are_numbers l); [apply sort_reverse_perm | apply H].
Qed.

Lemma averages_are_numbers_Forall l :
  averages_are_numbers l = true <->
  Forall (fun c => cluster_avg_alert_level c <> None) l.
Proof.
  unfold averages_are_numbers. rewrite forallb_forall, Forall_forall.
  split; intros H c Hc; specialize (H c Hc);
    destruct (cluster_avg_alert_level c); simpl in *; congruence.
Qed.

Lemma sort_clusters_sorted P l :
  averages_are_numbers l = true ->
  sort_clusters P l = sort_reverse cluster_key_ltb l /\
  StronglySorted cluster_before (sort_clusters P l).
Proof.
  intro H. unfold sort_clusters. rewrite H. split; [reflexivity|].
  apply cluster_sort_desc. now apply averages_are_numbers_Forall.
Qed.

Lemma binary64_sort : sort_is_permutation binary64.
Proof. intro l. apply sort_reverse_perm. Qed.

Lemma plain_run_order detect now :
  set_order_is_permutation (plain_run detect now).
Proof. intro s. apply Permutation_refl. Qed.

Lemma reversing_run_order detect now :
  set_order_is_permutation (reversing_run detect now).
Proof. intro s. simpl. symmetry. apply Permutation_rev. Qed.

(** *** Every node has an entry in the two tables *)

Lemma degree_centrality_fp_keys P G :
  simple_graph G -> map fst (degree_centrality_fp P G) = g_node G.
Proof.
  intros [Hk _ _ _ _]. unfold degree_centrality_fp.
  destruct (length (g_node G) <=? 1); rewrite map_map; simpl.
  - apply map_id.
  - rewrite map_id. exact Hk.
Qed.

Lemma accumulate_step_fp_keys P Pr sigma s acc w y :
  In y (map fst (fst acc)) ->
  In y (map fst (fst (accumulate_step_fp P Pr sigma s acc w))).
Proof.
  intro H. unfold accumulate_step_fp. destruct acc as [B delta].
  destruct (cell_eqb w s); simpl; [assumption|].
  now apply dset_keys_mono.
Qed.

Lemma accumulate_fp_keys P B r s y :
  In y (map fst B) -> In y (map fst (fst (accumulate_basic_fp P B r s))).
Proof.
  unfold accumulate_basic_fp. intro H.
  assert (H0 : In y (map fst (fst (B, map (fun v => (v, 0%Q)) (bS r)))))
    by exact H.
  revert H0. generalize (B, map (fun v => (v, 0%Q)) (bS r)).
  generalize (rev (bS r)). intro l.
  induction l as [|w l IH]; intros acc H0; simpl; [assumption|].
  apply IH. now apply accumulate_step_fp_keys.
Qed.

Lemma brandes_sums_fp_keys P G y :
  In y (g_node G) -> In y (map fst (brandes_sums_fp P G)).
Proof.
  intro H. unfold brandes_sums_fp.
  assert (H0 : In y (map fst (map (fun v => (v, 0%Q)) (g_node G)))).
  { rewrite map_map. simpl. now rewrite map_id. }
  assert (K : forall l B, In y (map fst B) ->
    In y (map fst (fold_left (fun betweenness s =>
        fst (accumulate_basic_fp P betweenness
               (single_source_shortest_path_basic_fp P G s) s)) l B))).
  { intro l. induction l as [|s l IH]; intros B HB; simpl; [assumption|].
    apply IH. now apply accumulate_fp_keys. }
  now apply K.
Qed.

Lemma betweenness_fp_keys P G y :
  In y (g_node G) -> In y (map fst (betweenness_centrality_fp P G)).
Proof.
  intro H. apply (brandes_sums_fp_keys P) in H.
  unfold betweenness_centrality_fp, rescale_fp.
  destruct (length (g_node G) <=? 2); [assumption|].
  rewrite map_map. simpl. exact H.
Qed.

(** *** Sorting commutes with a map that keeps the keys *)

Section SortMap.
Variables A B : Type.
Variable ltA : A -> A -> bool.
Variable ltB : B -> B -> bool.
Variable f : A -> B.
Hypothesis f_keys : forall x y, ltB (f x) (f y) = ltA x y.

Lemma insert_sorted_map x l :
  insert_sorted ltB (f x) (map f l) = map f (insert_sorted ltA x l).
Proof.
  induction l as [|y t IH]; simpl; [reflexivity|].
  rewrite f_keys. destruct (ltA y x); simpl; [now rewrite IH | reflexivity].
Qed.

Lemma stable_sort_map l :
  stable_sort ltB (map f l) = map f (stable_sort ltA l).
Proof.
  induction l as [|x t IH]; simpl; [reflexivity|].
  now rewrite IH, insert_sorted_map.
Qed.

Lemma sort_reverse_map l :
  sort_reverse ltB (map f l) = map f (sort_reverse ltA l).
Proof.
  unfold sort_reverse. now rewrite <- map_rev, stable_sort_map, map_rev.
Qed.
End SortMap.

Lemma Forall2_map_same {A B : Type} (R : B -> B -> Prop) (f g : A -> B) l :
  (forall x, In x l -> R (f x) (g x)) -> Forall2 R (map f l) (map g l).
Proof.
  induction l as [|a t IH]; intro H; simpl; constructor.
  - apply H. now left.
  - apply IH. intros x Hx. apply H. now right.
Qed.

Lemma Forall2_firstn {A B : Type} (R : A -> B -> Prop) n l1 l2 :
  Forall2 R l1 l2 -> Forall2 R (firstn n l1) (firstn n l2).
Proof.
  intro H. revert n. induction H; intros [|n]; simpl; constructor; auto.
Qed.

(** The sorted path list of a run: the entries of the edges over the
    threshold, sorted on the sums. *)
Lemma sorted_paths_fp P R G b :
  sort_reverse (key_lt path_betweenness) (path_candidates_fp P R G b) =
  map (path_entry_fp P R b)
    (sort_reverse (key_lt (edge_score_fp P b))
       (filter (fun e => Qltb float_0_1 (edge_score_fp P b e)) (edges G))).
Proof.
  rewrite path_candidates_fp_map. apply sort_reverse_map.
  intros x y. reflexivity.
Qed.

(** Any two elements of a sorted list are related one way or the other. *)
Lemma StronglySorted_In_pair {A : Type} (R : A -> A -> Prop) l x y :
  StronglySorted R l -> In x l -> In y l -> x <> y -> R x y \/ R y x.
Proof.
  intros S. induction S as [|a t S IH Ha]; intros Hx Hy Hne;
    [contradiction|].
  rewrite Forall_forall in Ha.
  destruct Hx as [<-|Hx], Hy as [<-|Hy].
  - contradiction.
  - left. now apply Ha.
  - right. now apply Ha.
  - now apply IH.
Qed.

Lemma generate_fp_Generated P R df r :
  generate_link_analysis_report_fp P R df = Some (Generated r) ->
  exists res,
    build_location_graph df = Some (build_body df) /\
    analyze_disaster_spread_fp P R (build_body df) df = Some res /\
    r = mkReport (run_now R)
          (length (unique (map location (rows df))))
          (unique (map disaster_type (rows df)))
          (firstn 5 (res_high_risk_locations res))
          (res_disaster_clusters res)
          (firstn 10 (res_potential_spread_paths res))
          "disaster_network.png".
Proof.
  unfold generate_link_analysis_report_fp.
  destruct (df_empty df); [discriminate|].
  destruct (filter (fun col => negb (has_column df col)) required_columns);
    [|discriminate].
  destruct (build_location_graph df) as [G|] eqn:EG; [|discriminate].
  pose proof EG as EG'. unfold build_location_graph in EG'.
  destruct (has_column df "location" && has_column df "disaster_type");
    [|discriminate].
  inversion EG'. subst G.
  destruct (analyze_disaster_spread_fp P R (build_body df) df) as [res|];
    [|discriminate].
  intro H. inversion H. exists res. auto.
Qed.

(** With an alert level in every record no mean is NaN. *)
Lemma member_alert_fp_Some P df loc :
  has_alert_levels df = true ->
  member_alert (alert_levels_fp P df) loc <> None.
Proof.
  intro H. unfold member_alert. rewrite alert_levels_fp_lookup.
  destruct (is_some loc && lmem key_eqb loc (map location (rows df))) eqn:E;
    [|discriminate].
  apply andb_true_iff in E. destruct E as [_ E]. apply lmem_In in E.
  pose proof (group_alerts_nonempty df loc H E) as Hne.
  unfold mean_fp. destruct (group_alerts df loc); [contradiction|discriminate].
Qed.

Lemma cluster_candidates_fp_numeric P df communities :
  has_alert_levels df = true ->
  Forall (fun c => cluster_avg_alert_level c <> None)
    (cluster_candidates_fp P communities (alert_levels_fp P df)).
Proof.
  intro H. apply Forall_forall. intros c Hc.
  apply cluster_candidates_fp_In in Hc.
  destruct Hc as (i & comm & _ & Hl & ->). simpl.
  unfold np_mean_fp.
  destruct (all_numbers_Some (map (member_alert (alert_levels_fp P df)) comm))
    as (qs & E & L).
  - intros a Ha. apply in_map_iff in Ha. destruct Ha as (loc & <- & _).
    now apply member_alert_fp_Some.
  - rewrite E. rewrite length_map in L.
    destruct qs; simpl in *; [lia | discriminate].
Qed.

Lemma cluster_ids_increasing_fp P (levels : list (cell * fval))
    (communities : list (list node)) :
  forall k,
  let cs :=
    flat_map (fun ic : nat * list node =>
        let (i, community_list) := ic in
        if 1 <? length community_list then
          [mkCluster i community_list (length community_list)
             (np_mean_fp P (map (member_alert levels) community_list))]
        else [])
      (enumerate_from k communities) in
  StronglySorted lt (map cluster_id cs) /\
  Forall (fun i => k <= i) (map cluster_id cs).
Proof.
  induction communities as [|c t IH]; intro k; cbv zeta; simpl.
  - split; constructor.
  - destruct (IH (S k)) as (H1 & H2). cbv zeta in H1, H2.
    assert (H3 : Forall (fun i => k <= i) (map cluster_id
      (flat_map (fun ic : nat * list node =>
        let (i, community_list) := ic in
        if 1 <? length community_list then
          [mkCluster i community_list (length community_list)
             (np_mean_fp P (map (member_alert levels) community_list))]
        else [])
      (enumerate_from (S k) t)))).
    { revert H2. apply Forall_impl. intros; lia. }
    destruct (1 <? length c); simpl.
    + split.
      * constructor; [assumption|]. revert H2. apply Forall_impl.
        intros; lia.
      * constructor; [lia | assumption].
    + split; assumption.
Qed.

(** *** Rounding decides

    With binary64 arithmetic the centrality 3 * (1 / 10) of L0 times its
    mean alert level 5 / 3 is above one half, and the sum of the
    betweenness of L0 and L1 is above the float 0.1; without rounding the
    product is one half, the sum one tenth, and nothing is listed. *)
Lemma rounding_decides :
  option_map (fun res => map risk_location (res_high_risk_locations res))
    (analyze_disaster_spread_fp binary64 (plain_run (fun _ => []) 0)
       (build_body tenths_df) tenths_df) = Some [Some "L0"] /\
  option_map (fun res => map risk_location (res_high_risk_locations res))
    (analyze_disaster_spread_fp exact (plain_run (fun _ => []) 0)
       (build_body tenths_df) tenths_df) = Some [] /\
  option_map (fun res => map path_to (res_potential_spread_paths res))
    (analyze_disaster_spread_fp binary64 (plain_run (fun _ => []) 0)
       (build_body ring_df) ring_df) = Some [Some "L1"; Some "L2"] /\
  option_map (fun res => map path_to (res_potential_spread_paths res))
    (analyze_disaster_spread_fp exact (plain_run (fun _ => []) 0)
       (build_body ring_df) ring_df) = Some [].
Proof. repeat split; vm_compute; reflexivity. Qed.

(* ================================================================== *)
(** * The claims *)

Lemma build_location_graph_Some df G :
  build_location_graph df = Some G -> G = build_body df.
Proof.
  unfold build_location_graph.
  destruct (has_column df "location" && has_column df "disaster_type");
    intro H; inversion H; reflexivity.
Qed.

(** The builder returns a graph whenever the two columns it reads exist. *)
Lemma build_location_graph_total df :
  has_column df "location" = true ->
  has_column df "disaster_type" = true ->
  build_location_graph df = Some (build_body df).
Proof.
  intros H1 H2. unfold build_location_graph. now rewrite H1, H2.
Qed.

(** C1. After [build_location_graph] returns, the weight of every edge is
    the number of distinct disaster types stored on it and is at least 1;
    the stored types are pairwise distinct, so a type contributes at most 1
    to the weight of a pair.  This holds for the attribute dictionary
    reached as [G[u][v]] in either direction and for every edge listed by
    [G.edges(data=True)]. *)
Theorem C1_edge_weight_counts_disaster_types (df : DataFrame) (G : Graph) :
  build_location_graph df = Some G ->
  (forall u v a, edge_attr G u v = Some a ->
     weight a = Z.of_nat (length (disasters a)) /\
     NoDup (disasters a) /\
     (1 <= weight a)%Z) /\
  (forall u v a, In (u, v, a) (edges G) ->
     weight a = Z.of_nat (length (disasters a)) /\
     NoDup (disasters a) /\
     (1 <= weight a)%Z).
Proof.
  intro HG. apply build_location_graph_Some in HG. subst G.
  destruct (build_body_inv df) as [[Hs Hattr] _].
  assert (H : forall u v a,
    edge_attr (build_body df) u v = Some a -> attr_ok a).
  { intros u v a E. unfold edge_attr in E.
    destruct (edge_ref (build_body df) u v) as [r|] eqn:Er; [|discriminate].
    apply (Hattr u v r a Er E). }
  split.
  - intros u v a E. apply (H u v a E).
  - intros u v a E. apply (H u v a). now apply edges_edge_attr.
Qed.

Lemma C1_witness :
  build_location_graph scenario_df = Some scenario_graph /\
  forall u v a, In (u, v, a) (edges scenario_graph) ->
    weight a = Z.of_nat (length (disasters a)) /\
    NoDup (disasters a) /\
    (1 <= weight a)%Z.
Proof.
  split; [reflexivity|].
  apply (C1_edge_weight_counts_disaster_types scenario_df scenario_graph).
  reflexivity.
Defined.

(** ** Risk scoring *)

Lemma analyze_Some detect G df res :
  analyze_disaster_spread detect G df = Some res ->
  res = mkResults
    (sort_reverse (key_lt risk_score)
       (risk_candidates (degree_centrality G) (alert_levels df)))
    (sort_reverse cluster_key_ltb
       (cluster_candidates (detect G) (alert_levels df)))
    (sort_reverse (key_lt path_betweenness)
       (path_candidates G (betweenness_centrality G))).
Proof.
  unfold analyze_disaster_spread.
  destruct (has_column df "location" && has_column df "alert_level");
    intro H; inversion H; reflexivity.
Qed.

Lemma risk_candidates_In centrality levels e :
  In e (risk_candidates centrality levels) <->
  exists loc cent alert,
    In (loc, cent) centrality /\
    dget key_eqb levels loc = Some (Some alert) /\
    (1 # 2 < cent * alert)%Q /\
    e = mkRisk loc cent alert (cent * alert)%Q.
Proof.
  unfold risk_candidates. rewrite in_flat_map. split.
  - intros ([loc cent] & Hin & He).
    destruct (dget key_eqb levels loc) as [[alert|]|] eqn:E;
      try contradiction.
    destruct (Qltb (1 # 2) (cent * alert)) eqn:L; [|contradiction].
    destruct He as [<-|[]]. apply Qltb_lt in L.
    exists loc, cent, alert. auto.
  - intros (loc & cent & alert & Hin & E & L & ->).
    exists (loc, cent). split; [assumption|].
    rewrite E. apply Qltb_lt in L. rewrite L. now left.
Qed.

Lemma risk_candidates_locations centrality levels :
  map risk_location (risk_candidates centrality levels) =
  map fst (filter (qualifies levels) centrality).
Proof.
  unfold risk_candidates, qualifies.
  induction centrality as [|[loc cent] t IH]; simpl; [reflexivity|].
  rewrite map_app, IH.
  destruct (dget key_eqb levels loc) as [[alert|]|]; simpl; try reflexivity.
  destruct (Qltb (1 # 2) (cent * alert)); reflexivity.
Qed.

(** C5. The high-risk result holds exactly the locations that are in the
    degree-centrality table and in the mean alert-level table and whose
    risk score, the float product of centrality and mean alert level,
    exceeds 0.5: one entry per such location, the table having one item
    per node of the built graph.  It is in descending order of risk score,
    and entries with equal scores keep the iteration order of the
    centrality table.  This holds whatever the rounding of the float
    operations is. *)
Theorem C5_high_risk_locations
    (P : Platform) (R : Run) (G : Graph) (df : DataFrame) (res : Results) :
  analyze_disaster_spread_fp P R G df = Some res ->
  let centrality := degree_centrality_fp P G in
  let levels := alert_levels_fp P df in
  let candidates := risk_candidates_fp P centrality levels in
  let high := res_high_risk_locations res in
  (build_location_graph df = Some G ->
   map fst centrality = g_node G /\ NoDup (g_node G)) /\
  (forall e, In e high <->
     exists loc cent alert,
       In (loc, cent) centrality /\
       dget key_eqb levels loc = Some (Some alert) /\
       (1 # 2 < fmul P cent alert)%Q /\
       e = mkRisk loc cent alert (fmul P cent alert)) /\
  map risk_location candidates =
    map fst (filter (qualifies_fp P levels) centrality) /\
  Permutation high candidates /\
  StronglySorted (fun x y => (risk_score y <= risk_score x)%Q) high /\
  (forall q, filter (fun e => Qeq_bool (risk_score e) q) high =
             filter (fun e => Qeq_bool (risk_score e) q) candidates).
Proof.
  intro H. apply analyze_fp_Some in H. destruct H as [_ ->].
  cbv zeta. simpl. split; [|repeat split].
  - intro HG. apply build_location_graph_Some in HG. subst G.
    pose proof (build_body_simple df) as SG.
    split; [now apply degree_centrality_fp_keys | apply (sg_nodup _ SG)].
  - intro He. apply risk_candidates_fp_In.
    eapply Permutation_in; [apply sort_reverse_perm | exact He].
  - intro He. apply risk_candidates_fp_In in He.
    eapply Permutation_in; [symmetry; apply sort_reverse_perm | exact He].
  - apply risk_candidates_fp_locations.
  - apply sort_reverse_perm.
  - apply key_sort_desc.
  - intro q. apply key_sort_stable.
Qed.

Lemma C5_witness :
  exists res,
    analyze_disaster_spread_fp binary64 (plain_run (fun _ => []) 0)
      (build_body tenths_df) tenths_df = Some res /\
    map risk_location (res_high_risk_locations res) = [Some "L0"] /\
    map risk_score (res_high_risk_locations res) =
      [4503599627370497 # 9007199254740992] /\
    StronglySorted (fun x y => (risk_score y <= risk_score x)%Q)
      (res_high_risk_locations res).
Proof.
  eexists. split; [vm_compute; reflexivity|].
  split; [reflexivity|]. split; [reflexivity|].
  apply (C5_high_risk_locations binary64 (plain_run (fun _ => []) 0)
           (build_body tenths_df) tenths_df).
  vm_compute. reflexivity.
Defined.

(** ** Spread paths *)

Lemma path_candidates_map G b :
  path_candidates G b =
  map (path_entry b)
      (filter (fun e => Qltb (1 # 10) (edge_score b e)) (edges G)).
Proof.
  unfold path_candidates. induction (edges G) as [|[[u v] data] t IH];
    simpl; [reflexivity|].
  unfold edge_score at 1. simpl.
  destruct (Qltb (1 # 10) (dgetd b u 0 + dgetd b v 0)%Q); simpl;
    now rewrite IH.
Qed.

(** C6. [G.edges(data=True)] lists every edge of the graph once, in one
    direction, and both ends of an edge have an entry in the betweenness
    table.  The spread-path result has one entry for each listed edge
    whose endpoint betweenness sum, a float sum, exceeds the float 0.1 and
    no other entry; it is in descending order of that sum; an entry
    carries the weight stored on its edge and the disaster types stored
    on it, each once, in the order in which the set is listed.  This
    holds whatever the rounding of the float operations is. *)
Theorem C6_spread_paths
    (P : Platform) (R : Run) (G : Graph) (df : DataFrame) (res : Results) :
  set_order_is_permutation R ->
  build_location_graph df = Some G ->
  analyze_disaster_spread_fp P R G df = Some res ->
  let b := betweenness_centrality_fp P G in
  let paths := res_potential_spread_paths res in
  (NoDup (map endpoints (edges G)) /\
   (forall u v a a', In (u, v, a) (edges G) -> ~ In (v, u, a') (edges G)) /\
   (forall u v a, edge_attr G u v = Some a ->
      In (u, v, a) (edges G) \/ In (v, u, a) (edges G)) /\
   (forall u v a, In (u, v, a) (edges G) ->
      edge_attr G u v = Some a /\
      In u (map fst b) /\ In v (map fst b))) /\
  Permutation paths
    (map (path_entry_fp P R b)
         (filter (fun e => Qltb float_0_1 (edge_score_fp P b e)) (edges G))) /\
  StronglySorted (fun x y => (path_betweenness y <= path_betweenness x)%Q)
    paths /\
  (forall p, In p paths ->
     (float_0_1 < path_betweenness p)%Q /\
     path_betweenness p =
       fadd P (dgetd b (path_from p) 0%Q) (dgetd b (path_to p) 0%Q) /\
     exists a, edge_attr G (path_from p) (path_to p) = Some a /\
               path_shared_disasters p = set_order R (disasters a) /\
               Permutation (path_shared_disasters p) (disasters a) /\
               path_connection_strength p = weight a).
Proof.
  intros HR HG H. apply build_location_graph_Some in HG. subst G.
  apply analyze_fp_Some in H. destruct H as [_ ->]. cbv zeta. simpl.
  pose proof (build_body_simple df) as SG.
  destruct (edges_once _ SG) as (E1 & E2 & E3).
  assert (Pm : Permutation
    (sort_reverse (key_lt path_betweenness)
       (path_candidates_fp P R (build_body df)
          (betweenness_centrality_fp P (build_body df))))
    (map (path_entry_fp P R (betweenness_centrality_fp P (build_body df)))
       (filter (fun e => Qltb float_0_1
                  (edge_score_fp P
                     (betweenness_centrality_fp P (build_body df)) e))
          (edges (build_body df))))).
  { rewrite <- path_candidates_fp_map. apply sort_reverse_perm. }
  split; [|split; [|split]].
  - repeat split; auto.
    + now apply edges_edge_attr.
    + apply betweenness_fp_keys.
      pose proof (edges_edge_attr _ _ _ _ SG H) as Ha.
      unfold edge_attr in Ha.
      destruct (edge_ref (build_body df) u v) as [r|] eqn:Er;
        [|discriminate].
      apply (simple_graph_edge_nodes _ _ _ _ SG Er).
    + apply betweenness_fp_keys.
      pose proof (edges_edge_attr _ _ _ _ SG H) as Ha.
      unfold edge_attr in Ha.
      destruct (edge_ref (build_body df) u v) as [r|] eqn:Er;
        [|discriminate].
      apply (simple_graph_edge_nodes _ _ _ _ SG Er).
  - exact Pm.
  - apply key_sort_desc.
  - intros p Hp. apply (Permutation_in _ Pm) in Hp.
    apply in_map_iff in Hp. destruct Hp as ([[u v] a] & <- & He).
    apply filter_In in He. destruct He as [He Hs].
    apply Qltb_lt in Hs. simpl. repeat split; try assumption.
    exists a. split; [now apply edges_edge_attr|].
    split; [reflexivity|]. split; [apply HR | reflexivity].
Qed.

Lemma C6_witness :
  exists res,
    analyze_disaster_spread_fp binary64 (plain_run (fun _ => []) 0)
      (build_body ring_df) ring_df = Some res /\
    map path_to (res_potential_spread_paths res) = [Some "L1"; Some "L2"] /\
    map path_betweenness (res_potential_spread_paths res) =
      [7205759403792795 # 72057594037927936;
       7205759403792795 # 72057594037927936] /\
    StronglySorted (fun x y => (path_betweenness y <= path_betweenness x)%Q)
      (res_potential_spread_paths res).
Proof.
  eexists. split; [vm_compute; reflexivity|].
  split; [reflexivity|]. split; [reflexivity|].
  apply (C6_spread_paths binary64 (plain_run (fun _ => []) 0)
           (build_body ring_df) ring_df).
  - apply plain_run_order.
  - reflexivity.
  - vm_compute. reflexivity.
Defined.

(** ** Empty input, missing fields *)

(** C3 fails as stated: for the empty frame the function returns the
    message string and not a report. *)
Lemma C3_counterexample :
  generate_link_analysis_report (fun _ => []) 0 (mkDF [] []) =
    Some (Message "No disaster data available for analysis.") /\
  ~ exists r,
      generate_link_analysis_report (fun _ => []) 0 (mkDF [] []) =
        Some (Generated r) /\
      locations_analyzed r = 0.
Proof.
  split; [reflexivity|].
  intros (r & H & _). discriminate.
Qed.

(** C3, amended. When the record collection is empty the function raises no
    error and returns the message "No disaster data available for
    analysis." instead of a report. *)
Theorem C3_empty_input_message
    (detect : Graph -> list (list node)) (now : Z) (df : DataFrame) :
  rows df = [] ->
  generate_link_analysis_report detect now df =
    Some (Message "No disaster data available for analysis.").
Proof.
  intro H. unfold generate_link_analysis_report, df_empty. rewrite H.
  now destruct (columns df).
Qed.

Lemma C3_witness :
  rows (mkDF full_columns []) = [] /\
  generate_link_analysis_report (fun _ => []) 0 (mkDF full_columns []) =
    Some (Message "No disaster data available for analysis.").
Proof.
  split; [reflexivity|].
  apply (C3_empty_input_message (fun _ => []) 0 (mkDF full_columns [])).
  reflexivity.
Defined.

Lemma has_column_In df c : has_column df c = true <-> In c (columns df).
Proof. apply lmem_string_In. Qed.

Lemma analyze_total detect G df :
  has_column df "location" = true ->
  has_column df "alert_level" = true ->
  exists res, analyze_disaster_spread detect G df = Some res.
Proof.
  intros H1 H2. unfold analyze_disaster_spread. rewrite H1, H2. simpl. eauto.
Qed.

(** C9 fails as stated: a record without [disaster_type] is not skipped.
    Its location is counted and the report differs from the report of the
    well-formed records alone. *)
Lemma C9_counterexample :
  exists r r',
    generate_link_analysis_report (fun _ => []) 0 partial_df =
      Some (Generated r) /\
    generate_link_analysis_report (fun _ => []) 0
      (without_malformed partial_df) = Some (Generated r') /\
    locations_analyzed r = 3 /\
    locations_analyzed r' = 2 /\
    In None (disaster_types_analyzed r).
Proof.
  do 2 eexists. split; [reflexivity|]. split; [reflexivity|].
  split; [reflexivity|]. split; [reflexivity|].
  simpl. auto.
Qed.

(** C9, amended. The check is made on the columns of the whole frame.  If a
    required column is absent, the function returns the message "Missing
    required columns: [...]" that names exactly the absent required columns
    and nothing is analyzed.  If the three columns are present, a report is
    produced from all records: none is skipped, the locations and disaster
    types of every record are counted, and the report has no count of
    skipped records. *)
Theorem C9_missing_columns
    (detect : Graph -> list (list node)) (now : Z) (df : DataFrame) :
  df_empty df = false ->
  let missing :=
    filter (fun c => negb (has_column df c)) required_columns in
  (forall c, In c missing <-> In c required_columns /\ ~ In c (columns df)) /\
  (missing <> [] ->
   generate_link_analysis_report detect now df =
     Some (Message (String.append "Missing required columns: "
                                  (repr_list missing)))) /\
  (missing = [] ->
   exists r,
     generate_link_analysis_report detect now df = Some (Generated r) /\
     locations_analyzed r = length (unique (map location (rows df))) /\
     disaster_types_analyzed r = unique (map disaster_type (rows df))).
Proof.
  intros He missing. split; [|split].
  - intro c. unfold missing. rewrite filter_In, negb_true_iff.
    rewrite <- has_column_In.
    destruct (has_column df c); intuition congruence.
  - intro Hm. unfold generate_link_analysis_report. rewrite He.
    fold missing. destruct missing; [contradiction | reflexivity].
  - intro Hm. unfold generate_link_analysis_report. rewrite He.
    fold missing. rewrite Hm.
    assert (Hc : forall c, In c required_columns -> has_column df c = true).
    { intros c Hc. destruct (has_column df c) eqn:E; [reflexivity|].
      assert (Hin : In c missing).
      { unfold missing. apply filter_In. now rewrite E. }
      rewrite Hm in Hin. contradiction. }
    assert (H1 : has_column df "location" = true)
      by (apply Hc; simpl; auto).
    assert (H2 : has_column df "disaster_type" = true)
      by (apply Hc; simpl; auto).
    assert (H3 : has_column df "alert_level" = true)
      by (apply Hc; simpl; auto).
    rewrite (build_location_graph_total df H1 H2).
    destruct (analyze_total detect (build_body df) df H1 H3) as [res Hr].
    rewrite Hr. eexists. split; [reflexivity|]. simpl. auto.
Qed.

Lemma C9_witness :
  df_empty no_alert_df = false /\
  generate_link_analysis_report (fun _ => []) 0 no_alert_df =
    Some (Message "Missing required columns: ['alert_level']").
Proof.
  split; [reflexivity|].
  apply (C9_missing_columns (fun _ => []) 0 no_alert_df); [reflexivity|].
  discriminate.
Defined.

(** ** Nodes and the alert-level table *)

(** C10 fails as stated: a document without a [location] field puts the
    node NaN into the graph, and [groupby] makes no group for it, although
    the frame has the three columns. *)
Lemma C10_counterexample :
  exists G levels,
    has_column nameless_df "location" = true /\
    has_column nameless_df "disaster_type" = true /\
    has_column nameless_df "alert_level" = true /\
    build_location_graph nameless_df = Some G /\
    loc_alert_levels binary64 nameless_df = Some levels /\
    In None (g_node G) /\
    dmem key_eqb levels None = false.
Proof.
  do 2 eexists. repeat split; try reflexivity. simpl. auto.
Qed.

(** C10, amended. For a frame with the columns location, disaster_type and
    alert_level the graph is built and the mean alert-level table is
    computed (without the columns the lookups raise [KeyError]).  Every
    node of the graph that is a location value, not the NaN of a missing
    field, is a key of the table, with the mean of its group as value;
    the NaN node never is.  So the guard of the risk loop excludes no
    node but the NaN node, and the default 0 of the cluster loop is used
    for no node but the NaN node. *)
Theorem C10_nodes_have_alert_levels (P : Platform) (df : DataFrame) :
  has_column df "location" = true ->
  has_column df "disaster_type" = true ->
  has_column df "alert_level" = true ->
  exists G levels,
    build_location_graph df = Some G /\
    loc_alert_levels P df = Some levels /\
    (forall n, In n (g_node G) <-> In n (map location (rows df))) /\
    (forall l, In (Some l) (g_node G) ->
       dget key_eqb levels (Some l) =
         Some (mean_fp P (group_alerts df (Some l))) /\
       member_alert levels (Some l) = mean_fp P (group_alerts df (Some l))) /\
    (dget key_eqb levels None = None /\
     member_alert levels None = Some 0%Q) /\
    (forall n, In n (g_node G) ->
       (dmem key_eqb levels n = true <-> n <> None)).
Proof.
  intros H1 H2 H3.
  exists (build_body df), (alert_levels_fp P df).
  unfold build_location_graph, loc_alert_levels. rewrite H1, H2, H3. simpl.
  split; [reflexivity|]. split; [reflexivity|].
  destruct (build_body_inv df) as [_ Hn].
  assert (Hin : forall n, In n (g_node (build_body df)) <->
                          In n (map location (rows df))).
  { intro n. rewrite Hn. apply unique_In. }
  split; [exact Hin|]. split; [|split].
  - intros l Hl. unfold member_alert. rewrite alert_levels_fp_lookup. simpl.
    apply Hin, lmem_In in Hl. rewrite Hl. split; reflexivity.
  - unfold member_alert. rewrite alert_levels_fp_lookup. split; reflexivity.
  - intros n Hl. unfold dmem. rewrite alert_levels_fp_lookup.
    apply Hin, lmem_In in Hl. rewrite Hl.
    destruct n; simpl; split; congruence.
Qed.

Lemma C10_witness :
  exists G levels,
    build_location_graph scenario_df = Some G /\
    loc_alert_levels binary64 scenario_df = Some levels /\
    forall n, In n (g_node G) ->
      (dmem key_eqb levels n = true <-> n <> None).
Proof.
  destruct (C10_nodes_have_alert_levels binary64 scenario_df
              eq_refl eq_refl eq_refl)
    as (G & levels & HG & HL & _ & _ & _ & H).
  exists G, levels. auto.
Defined.

(** ** Degree centrality *)

Lemma simple_graph_degree G v :
  simple_graph G -> In v (g_node G) ->
  degree G v = length (neighbors G v) /\ degree G v <= length (g_node G) - 1.
Proof.
  intros [Hk Hnd Hnb _ _] Hv. unfold degree, neighbors.
  destruct (dget key_eqb (g_adj G) v) as [nb|] eqn:E.
  2:{ apply dget_None_keys in E. rewrite Hk in E. contradiction. }
  destruct (Hnb _ _ E) as [N1 N2].
  assert (Hself : dmem key_eqb nb v = false).
  { unfold dmem. destruct (dget key_eqb nb v) eqn:Ev; [|reflexivity].
    apply dget_Some_In in Ev. apply (in_map fst) in Ev. simpl in Ev.
    destruct (N2 _ Ev) as [Hne _]. contradiction. }
  rewrite Hself, Nat.add_0_r. split; [reflexivity|].
  assert (L : length (v :: map fst nb) <= length (g_node G)).
  { apply NoDup_incl_length.
    - constructor; [|assumption]. intro H. destruct (N2 _ H). contradiction.
    - intros x [<-|Hx]; [assumption | apply (N2 _ Hx)]. }
  simpl in L. rewrite length_map in L. lia.
Qed.




(** ** The assembled report *)

Lemma generate_Generated detect now df r :
  generate_link_analysis_report detect now df = Some (Generated r) ->
  exists res,
    build_location_graph df = Some (build_body df) /\
    analyze_disaster_spread detect (build_body df) df = Some res /\
    r = mkReport now
          (length (unique (map location (rows df))))
          (unique (map disaster_type (rows df)))
          (firstn 5 (res_high_risk_locations res))
          (res_disaster_clusters res)
          (firstn 10 (res_potential_spread_paths res))
          "disaster_network.png".
Proof.
  unfold generate_link_analysis_report.
  destruct (df_empty df); [discriminate|].
  destruct (filter (fun col => negb (has_column df col)) required_columns);
    [|discriminate].
  destruct (build_location_graph df) as [G|] eqn:EG; [|discriminate].
  pose proof (build_location_graph_Some _ _ EG) as ->.
  destruct (analyze_disaster_spread detect (build_body df) df) as [res|];
    [|discriminate].
  intro H. inversion H. exists res. auto.
Qed.

(** C7, the failing input.  The six records of [pairs_df] form three
    pairs of locations, which the Louvain method returns as three
    communities; the records of location C have no alert level, so the
    mean of C and the average of its cluster are NaN.  Every comparison
    with that key is false, so whatever order the sort leaves, the three
    clusters of size 2 with the averages 1, NaN and 3 are not in
    descending order of (size, average alert level); when the sort takes
    the list for sorted, as it does for these three, the cluster of
    average 1 stays before the cluster of average 3. *)
Theorem C7_clusters_left_unsorted
    (srt : list Cluster -> list Cluster) (now : Z) :
  (forall l, Permutation (srt l) l) ->
  exists communities r c0 c1 c2,
    louvain_communities 10 order_a (build_body pairs_df) = Some communities /\
    generate_link_analysis_report_fp (with_sort binary64 srt)
      (plain_run (fun _ => communities) now) pairs_df = Some (Generated r) /\
    Permutation (disaster_clusters r) [c0; c1; c2] /\
    (cluster_size c0 = 2 /\ cluster_size c1 = 2 /\ cluster_size c2 = 2) /\
    (cluster_avg_alert_level c0 = Some 1%Q /\
     cluster_avg_alert_level c1 = None /\
     cluster_avg_alert_level c2 = Some 3%Q) /\
    ~ StronglySorted cluster_before (disaster_clusters r) /\
    exists r',
      generate_link_analysis_report_fp binary64
        (plain_run (fun _ => communities) now) pairs_df =
        Some (Generated r') /\
      disaster_clusters r' = [c0; c1; c2].
Proof.
  intro Hsrt.
  exists [[Some "B"; Some "A"]; [Some "D"; Some "C"]; [Some "F"; Some "E"]].
  eexists.
  exists (mkCluster 0 [Some "B"; Some "A"] 2 (Some 1%Q)),
         (mkCluster 1 [Some "D"; Some "C"] 2 None),
         (mkCluster 2 [Some "F"; Some "E"] 2 (Some 3%Q)).
  split; [vm_compute; reflexivity|].
  split; [vm_compute; reflexivity|].
  cbn [disaster_clusters].
  split; [apply Hsrt|].
  split; [repeat split|]. split; [repeat split|].
  split.
  - intro S.
    assert (H0 : In (mkCluster 0 [Some "B"; Some "A"] 2 (Some 1%Q))
                   (srt [mkCluster 0 [Some "B"; Some "A"] 2 (Some 1%Q);
                         mkCluster 1 [Some "D"; Some "C"] 2 None;
                         mkCluster 2 [Some "F"; Some "E"] 2 (Some 3%Q)])).
    { eapply Permutation_in; [symmetry; apply Hsrt | simpl; auto]. }
    assert (H1 : In (mkCluster 1 [Some "D"; Some "C"] 2 None)
                   (srt [mkCluster 0 [Some "B"; Some "A"] 2 (Some 1%Q);
                         mkCluster 1 [Some "D"; Some "C"] 2 None;
                         mkCluster 2 [Some "F"; Some "E"] 2 (Some 3%Q)])).
    { eapply Permutation_in; [symmetry; apply Hsrt | simpl; auto]. }
    destruct (StronglySorted_In_pair _ _ _ _ S H0 H1) as [B|B];
      [discriminate| |];
      destruct B as [B|[_ (a & b & Ea & Eb & _)]]; simpl in *;
      try lia; discriminate.
  - eexists. split; [vm_compute; reflexivity | reflexivity].
Qed.

Lemma C7_witness :
  exists communities r,
    louvain_communities 10 order_a (build_body pairs_df) = Some communities /\
    generate_link_analysis_report_fp
      (with_sort binary64 (@rev Cluster))
      (plain_run (fun _ => communities) 0) pairs_df = Some (Generated r) /\
    ~ StronglySorted cluster_before (disaster_clusters r).
Proof.
  destruct (C7_clusters_left_unsorted (@rev Cluster) 0)
    as (communities & r & c0 & c1 & c2 & H1 & H2 & _ & _ & _ & H3 & _).
  - intro l. symmetry. apply Permutation_rev.
  - exists communities, r. auto.
Defined.

(** ** Two runs on the same input *)




(** ** Betweenness centrality *)




(* ================================================================== *)
(** * Further properties of the engine *)

(** ** Edges and the disaster types shared by two locations *)

Lemma set_add_In (d x : cell) (s : list cell) :
  In x (set_add key_eqb d s) <-> x = d \/ In x s.
Proof.
  unfold set_add. destruct (lmem key_eqb d s) eqn:E.
  - apply lmem_In in E. intuition congruence.
  - rewrite in_app_iff. simpl. intuition congruence.
Qed.

Lemma bump_edge_complete G done u v d r :
  graph_inv G done -> graph_complete G done ->
  edge_ref G u v = Some r ->
  graph_complete (bump_edge G u v d) ((u, v, d) :: done).
Proof.
  intros [[Hk Hnd Hnb Hsym Hinj] Hattr] Hc Hr.
  destruct (Hsym _ _ _ Hr) as [_ Hlt].
  destruct (nth_error (g_store G) r) as [a|] eqn:Ea.
  2:{ apply nth_error_None in Ea. lia. }
  unfold bump_edge. rewrite Hr.
  intros u' v' d' [E|Hin]; unfold edge_ref; simpl.
  - inversion E; subst u' v' d'. exists r. eexists.
    split; [exact Hr|]. split; [apply store_update_same; exact Ea|].
    simpl. apply set_add_In. now left.
  - destruct (Hc _ _ _ Hin) as (r' & a' & Hr' & Ha' & Hd').
    exists r'. destruct (Nat.eq_dec r' r) as [->|Hne].
    + eexists. split; [exact Hr'|].
      split; [apply store_update_same; exact Ea|].
      simpl. apply set_add_In. right. congruence.
    + exists a'. split; [exact Hr'|]. split; [|assumption].
      now rewrite store_update_other.
Qed.

Lemma add_edge_complete G done u v d :
  graph_inv G done -> graph_complete G done ->
  In u (g_node G) -> In v (g_node G) ->
  edge_ref G u v = None ->
  graph_complete (add_edge G u v (mkAttr 1 [d])) ((u, v, d) :: done).
Proof.
  intros [[Hk Hnd Hnb Hsym Hinj] Hattr] Hc Hu Hv Hr.
  unfold add_edge.
  rewrite (add_node_present G u) by assumption.
  rewrite (add_node_present G v) by assumption.
  rewrite Hr.
  set (r := length (g_store G)).
  assert (Hku : In u (map fst (g_adj G))) by now rewrite Hk.
  assert (Hkv : In v (map fst (set_nbr (g_adj G) u v r)))
    by now rewrite set_nbr_keys, Hk.
  assert (Href : forall u' v',
    adj_ref (set_nbr (set_nbr (g_adj G) u v r) v u r) u' v' =
    if key_eqb u' v && key_eqb v' u then Some r
    else if key_eqb u' u && key_eqb v' v then Some r
    else edge_ref G u' v').
  { intros. rewrite adj_ref_set_nbr by assumption.
    rewrite adj_ref_set_nbr by assumption. reflexivity. }
  intros u' v' d' [E|Hin]; unfold edge_ref; simpl.
  - inversion E; subst u' v' d'. exists r, (mkAttr 1 [d]).
    split; [|split].
    + rewrite Href, !key_eqb_refl. simpl.
      now destruct (key_eqb u v && key_eqb v u).
    + rewrite nth_error_app2 by (unfold r; lia).
      unfold r. now rewrite Nat.sub_diag.
    + now left.
  - destruct (Hc _ _ _ Hin) as (r' & a' & Hr' & Ha' & Hd').
    exists r', a'. split; [|split; [|assumption]].
    + rewrite Href.
      destruct (key_eqb u' v && key_eqb v' u) eqn:E1.
      { apply andb_true_iff in E1. destruct E1 as [A B].
        apply key_eqb_eq in A, B. subst u' v'.
        apply Hsym in Hr'. destruct Hr' as [Hr' _]. congruence. }
      destruct (key_eqb u' u && key_eqb v' v) eqn:E2; [|exact Hr'].
      apply andb_true_iff in E2. destruct E2 as [A B].
      apply key_eqb_eq in A, B. subst u' v'. congruence.
    + rewrite nth_error_app1; [assumption|].
      apply nth_error_Some. congruence.
Qed.

Lemma connect_complete G done u v d :
  graph_inv G done -> graph_complete G done ->
  In u (g_node G) -> In v (g_node G) ->
  graph_complete (connect d G u v) ((u, v, d) :: done).
Proof.
  intros Hinv Hc Hu Hv. unfold connect, has_edge.
  destruct (edge_ref G u v) as [r|] eqn:E.
  - now apply (bump_edge_complete G done u v d r).
  - now apply add_edge_complete.
Qed.

Lemma fold_connect_complete W :
  forall done G,
  graph_inv G done -> graph_complete G done ->
  fresh_from done W ->
  (forall u v d, In (u, v, d) W -> In u (g_node G) /\ In v (g_node G)) ->
  graph_complete (fold_left connect_step W G) (rev W ++ done).
Proof.
  induction W as [|[[u v] d] t IH]; intros done G Hinv Hc Hf Hn; simpl.
  - assumption.
  - destruct Hf as (Hfr & Huv & Hf).
    destruct (Hn u v d (or_introl eq_refl)) as [Hu Hv].
    destruct (connect_inv G done u v d Hinv Hu Hv Huv Hfr) as [Hinv1 Hnode1].
    pose proof (connect_complete G done u v d Hinv Hc Hu Hv) as Hc1.
    rewrite <- app_assoc. simpl.
    apply IH; try assumption.
    intros u' v' d' H. rewrite Hnode1. apply (Hn u' v' d'). now right.
Qed.

Lemma build_body_complete df :
  graph_complete (build_body df) (rev (work_list df)).
Proof.
  rewrite build_body_fold.
  destruct (initial_graph_inv _ (unique_NoDup (map location (rows df))))
    as [H0 N0].
  rewrite <- (app_nil_r (rev (work_list df))).
  apply fold_connect_complete.
  - assumption.
  - intros u v d [].
  - apply work_list_fresh.
  - intros u v d H. rewrite N0. apply work_list_In in H. destruct H as [_ H].
    apply pairs_In in H. destruct H.
    split; eapply affected_locations_In; eauto.
Qed.

Lemma pairs_iff (l : list cell) x y :
  NoDup l ->
  (In (x, y) (pairs l) \/ In (y, x) (pairs l)) <->
  (x <> y /\ In x l /\ In y l).
Proof.
  induction l as [|a t IH]; simpl; intro ND; [tauto|].
  inversion ND as [|? ? Ha NDt]; subst.
  rewrite !in_app_iff, !in_map_iff. split.
  - intros [[(z & E & Hz)|H]|[(z & E & Hz)|H]].
    + inversion E; subst. split; [|auto]. intros ->. contradiction.
    + apply or_introl with (B := In (y, x) (pairs t)) in H.
      apply (IH NDt) in H. tauto.
    + inversion E; subst. split; [|auto]. intros ->. contradiction.
    + apply or_intror with (A := In (x, y) (pairs t)) in H.
      apply (IH NDt) in H. tauto.
  - intros (Hne & [Hx|Hx] & [Hy|Hy]).
    + congruence.
    + subst a. left. left. exists y. auto.
    + subst a. right. left. exists x. auto.
    + destruct (proj2 (IH NDt)) as [H|H]; [tauto | left | right]; now right.
Qed.

Lemma cell_eqb_true (a d : cell) :
  cell_eqb a d = true <-> a = d /\ is_some d = true.
Proof.
  destruct a as [x|], d as [y|]; simpl; split; try intros [H1 H2];
    try discriminate; try intro H.
  - apply String.eqb_eq in H. subst. auto.
  - inversion H1. apply String.eqb_refl.
Qed.

Lemma has_record_true df loc d :
  has_record df loc d = true <->
  exists r, In r (rows df) /\ location r = loc /\ disaster_type r = d.
Proof.
  unfold has_record. rewrite existsb_exists. split.
  - intros (r & Hr & H). apply andb_true_iff in H. destruct H as [A B].
    apply key_eqb_eq in A, B. eauto.
  - intros (r & Hr & A & B). exists r. split; [assumption|].
    apply andb_true_iff. split; now apply key_eqb_eq.
Qed.

Lemma affected_locations_iff df d x :
  In x (affected_locations df d) <->
  is_some d = true /\ has_record df x d = true.
Proof.
  unfold affected_locations. rewrite unique_In, in_map_iff, has_record_true.
  split.
  - intros (r & E & H). apply filter_In in H. destruct H as [H1 H2].
    apply cell_eqb_true in H2. destruct H2. eauto.
  - intros (Hd & r & Hr & E1 & E2). exists r. split; [assumption|].
    apply filter_In. split; [assumption|]. now apply cell_eqb_true.
Qed.

Lemma shared_types_In df u v d :
  In d (shared_types df u v) <->
  is_some d = true /\ has_record df u d = true /\ has_record df v d = true.
Proof.
  unfold shared_types. rewrite filter_In, unique_In, !andb_true_iff.
  split; [tauto|]. intros (H1 & H2 & H3). split; [|tauto].
  apply has_record_true in H2. destruct H2 as (r & Hr & _ & E).
  apply in_map_iff. eauto.
Qed.

Lemma shared_types_NoDup df u v : NoDup (shared_types df u v).
Proof. apply NoDup_filter, unique_NoDup. Qed.

Lemma shared_types_sym df u v d :
  In d (shared_types df u v) -> In d (shared_types df v u).
Proof. rewrite !shared_types_In. tauto. Qed.

(** The pair/type combinations the builder goes through are the pairs of
    distinct locations with the types they share. *)
Lemma recorded_work_list df u v d :
  recorded (rev (work_list df)) u v d <->
  u <> v /\ In d (shared_types df u v).
Proof.
  unfold recorded. rewrite <- !in_rev, !work_list_In.
  rewrite shared_types_In.
  pose proof (pairs_iff (affected_locations df d) u v
                (unique_NoDup _)) as P.
  rewrite !affected_locations_iff in P.
  split.
  - intros [[Hd H]|[Hd H]].
    + apply or_introl with (B := In (v, u) (pairs (affected_locations df d)))
        in H. apply P in H. tauto.
    + apply or_intror with (A := In (u, v) (pairs (affected_locations df d)))
        in H. apply P in H. tauto.
  - intros (Hne & Hd & Hu & Hv).
    assert (Hin : In d (unique (map disaster_type (rows df)))).
    { apply unique_In. apply has_record_true in Hu.
      destruct Hu as (r & Hr & _ & E). apply in_map_iff. eauto. }
    destruct (proj2 P) as [H|H]; [tauto | left | right]; auto.
Qed.

(** The types stored on an edge of the built graph are the shared types of
    its endpoints, and two locations are adjacent exactly when they are
    distinct and share a type. *)
Lemma build_body_edges df u v :
  (forall a, edge_attr (build_body df) u v = Some a ->
     u <> v /\ attr_ok a /\
     forall d, In d (disasters a) <-> In d (shared_types df u v)) /\
  (has_edge (build_body df) u v = true <->
   u <> v /\ shared_types df u v <> []).
Proof.
  destruct (build_body_inv df) as [[SG Hattr] _].
  pose proof (build_body_complete df) as Hc.
  pose proof SG as [Hk Hnd Hnb Hsym Hinj].
  assert (A : forall a, edge_attr (build_body df) u v = Some a ->
     u <> v /\ attr_ok a /\
     forall d, In d (disasters a) <-> In d (shared_types df u v)).
  { intros a Ha. unfold edge_attr in Ha.
    destruct (edge_ref (build_body df) u v) as [r|] eqn:Er; [|discriminate].
    destruct (Hattr _ _ _ _ Er Ha) as [Hok Hrec].
    assert (Hne : u <> v).
    { unfold edge_ref, adj_ref in Er.
      destruct (dget key_eqb (g_adj (build_body df)) u) as [nb|] eqn:Eu;
        [|discriminate].
      destruct (Hnb _ _ Eu) as [_ Hv]. apply dget_Some_In in Er.
      apply (in_map fst) in Er. simpl in Er. destruct (Hv _ Er). congruence. }
    split; [assumption|]. split; [assumption|].
    intro d. split.
    - intro Hd. apply Hrec in Hd. now apply recorded_work_list in Hd.
    - intro Hd.
      assert (R : recorded (rev (work_list df)) u v d)
        by (apply recorded_work_list; auto).
      destruct R as [R|R]; destruct (Hc _ _ _ R) as (r' & a' & Hr' & Ha' & Hd').
      + congruence.
      + apply Hsym in Hr'. destruct Hr' as [Hr' _]. congruence. }
  split; [exact A|].
  unfold has_edge. split.
  - destruct (edge_ref (build_body df) u v) as [r|] eqn:Er; [|discriminate].
    intros _. destruct (Hsym _ _ _ Er) as [_ Hl].
    destruct (nth_error (g_store (build_body df)) r) as [a|] eqn:Ea.
    2:{ apply nth_error_None in Ea. lia. }
    destruct (A a) as (Hne & (Hw & _ & H1) & Hd).
    { unfold edge_attr. now rewrite Er. }
    split; [assumption|]. intro E.
    destruct (disasters a) as [|d0 t] eqn:Ed; [simpl in Hw; lia|].
    specialize (Hd d0). rewrite E in Hd. simpl in Hd. tauto.
  - intros [Hne Hs].
    destruct (shared_types df u v) as [|d t] eqn:Ed; [contradiction|].
    assert (R : recorded (rev (work_list df)) u v d).
    { apply recorded_work_list. rewrite Ed. simpl. auto. }
    destruct R as [R|R]; destruct (Hc _ _ _ R) as (r' & a' & Hr' & _).
    + now rewrite Hr'.
    + apply Hsym in Hr'. destruct Hr' as [Hr' _]. now rewrite Hr'.
Qed.

(** ** The built graph *)

(** X1. The graph [build_location_graph] returns is a simple undirected
    graph on the distinct values of the location column: its nodes are
    these values in the order of their first appearance; no node is
    adjacent to itself; [G[u][v]] and [G[v][u]] are one and the same
    attribute dictionary; edges join nodes only; a node has at most
    [n - 1] neighbours. *)
Theorem X1_built_graph_is_simple (df : DataFrame) (G : Graph) :
  build_location_graph df = Some G ->
  g_node G = unique (map location (rows df)) /\
  NoDup (g_node G) /\
  map fst (g_adj G) = g_node G /\
  (forall u, has_edge G u u = false) /\
  (forall u v, edge_ref G u v = edge_ref G v u) /\
  (forall u v, has_edge G u v = true -> In u (g_node G) /\ In v (g_node G)) /\
  (forall u, In u (g_node G) ->
     degree G u = length (neighbors G u) /\
     degree G u <= length (g_node G) - 1).
Proof.
  intro HG. apply build_location_graph_Some in HG. subst G.
  destruct (build_body_inv df) as [[SG _] Hn].
  split; [exact Hn|]. split; [apply (sg_nodup _ SG)|].
  split; [apply (sg_keys _ SG)|]. split; [|split; [|split]].
  - intro u. unfold has_edge.
    destruct (edge_ref (build_body df) u u) as [r|] eqn:E; [|reflexivity].
    destruct (simple_graph_edge_nodes _ _ _ _ SG E) as [Hne _].
    now contradiction Hne.
  - intros u v. now apply simple_graph_ref_sym.
  - intros u v. unfold has_edge.
    destruct (edge_ref (build_body df) u v) as [r|] eqn:E; [|discriminate].
    intros _. apply (simple_graph_edge_nodes _ _ _ _ SG E).
  - intros u Hu. now apply simple_graph_degree.
Qed.

Lemma X1_witness :
  exists G,
    build_location_graph scenario_df = Some G /\
    g_node G = [Some "A"; Some "B"; Some "C"] /\
    forall u v, edge_ref G u v = edge_ref G v u.
Proof.
  exists scenario_graph. split; [reflexivity|].
  destruct (X1_built_graph_is_simple scenario_df scenario_graph eq_refl)
    as (H1 & _ & _ & _ & H2 & _).
  split; [exact H1 | exact H2].
Defined.

Lemma shared_types_perm df1 df2 u v :
  (forall l d, has_record df1 l d = has_record df2 l d) ->
  Permutation (shared_types df1 u v) (shared_types df2 u v).
Proof.
  intro H. apply NoDup_Permutation; try apply shared_types_NoDup.
  intro d. rewrite !shared_types_In, !H. tauto.
Qed.

Lemma attr_shared_types df u v a :
  edge_attr (build_body df) u v = Some a ->
  Permutation (disasters a) (shared_types df u v) /\
  weight a = Z.of_nat (length (shared_types df u v)).
Proof.
  intro Ha. destruct (build_body_edges df u v) as [A _].
  destruct (A a Ha) as (_ & (Hw & ND & _) & Hd).
  assert (P : Permutation (disasters a) (shared_types df u v)).
  { apply NoDup_Permutation; [assumption | apply shared_types_NoDup | exact Hd]. }
  split; [exact P|]. rewrite Hw. f_equal. now apply Permutation_length.
Qed.

(** X2. In the built graph two locations are joined exactly when they are
    distinct and some disaster type (NaN apart) is recorded for both.  The
    types stored on the edge are then the types recorded for both, each
    once, and its weight is their number. *)
Theorem X2_edges_are_shared_types (df : DataFrame) (G : Graph) (u v : node) :
  build_location_graph df = Some G ->
  (has_edge G u v = true <-> u <> v /\ shared_types df u v <> []) /\
  (forall a, edge_attr G u v = Some a ->
     Permutation (disasters a) (shared_types df u v) /\
     weight a = Z.of_nat (length (shared_types df u v))) /\
  (forall d, In d (shared_types df u v) <->
     exists s r1 r2,
       d = Some s /\ In r1 (rows df) /\ In r2 (rows df) /\
       location r1 = u /\ disaster_type r1 = d /\
       location r2 = v /\ disaster_type r2 = d).
Proof.
  intro HG. apply build_location_graph_Some in HG. subst G.
  split; [apply build_body_edges|]. split; [apply attr_shared_types|].
  intro d. rewrite shared_types_In, !has_record_true. split.
  - intros (Hd & (r1 & H1 & L1 & D1) & (r2 & H2 & L2 & D2)).
    destruct d as [s|]; [|discriminate].
    exists s, r1, r2. tauto.
  - intros (s & r1 & r2 & -> & H1 & H2 & L1 & D1 & L2 & D2).
    split; [reflexivity|]. split; eauto.
Qed.

Lemma X2_witness :
  exists G,
    build_location_graph scenario_df = Some G /\
    (has_edge G (Some "A") (Some "C") = true <->
     Some "A" <> Some "C" /\
     shared_types scenario_df (Some "A") (Some "C") <> []) /\
    has_edge G (Some "B") (Some "C") = false /\
    shared_types scenario_df (Some "B") (Some "C") = [].
Proof.
  exists scenario_graph. split; [reflexivity|].
  split; [|split; reflexivity].
  apply (X2_edges_are_shared_types scenario_df scenario_graph
           (Some "A") (Some "C") eq_refl).
Defined.

(** X3. The built graph depends on the set of (location, disaster type)
    combinations in the frame only, not on the order of the documents, on
    how often a combination occurs, or on the alert levels: two frames
    with the same combinations give graphs with the same adjacency, and
    equal weights and the same types on corresponding edges. *)
Theorem X3_graph_of_combinations (df1 df2 : DataFrame) (G1 G2 : Graph) :
  build_location_graph df1 = Some G1 ->
  build_location_graph df2 = Some G2 ->
  (forall l d, has_record df1 l d = has_record df2 l d) ->
  forall u v,
    has_edge G1 u v = has_edge G2 u v /\
    forall a1 a2,
      edge_attr G1 u v = Some a1 -> edge_attr G2 u v = Some a2 ->
      weight a1 = weight a2 /\
      Permutation (disasters a1) (disasters a2).
Proof.
  intros H1 H2 H u v.
  apply build_location_graph_Some in H1, H2. subst G1 G2.
  pose proof (shared_types_perm df1 df2 u v H) as P.
  split.
  - destruct (build_body_edges df1 u v) as [_ E1].
    destruct (build_body_edges df2 u v) as [_ E2].
    assert (I : has_edge (build_body df1) u v = true <->
                has_edge (build_body df2) u v = true).
    { rewrite E1, E2. split; intros [Hne Hs]; (split; [assumption|]);
        intro E; apply Hs; rewrite E in P.
      - symmetry in P. now apply Permutation_nil.
      - now apply Permutation_nil. }
    destruct (has_edge (build_body df1) u v),
             (has_edge (build_body df2) u v); try reflexivity.
    + symmetry. now apply I.
    + now apply I.
  - intros a1 a2 A1 A2.
    destruct (attr_shared_types _ _ _ _ A1) as [P1 W1].
    destruct (attr_shared_types _ _ _ _ A2) as [P2 W2].
    split.
    + rewrite W1, W2. f_equal. now apply Permutation_length.
    + rewrite P1, P. symmetry. exact P2.
Qed.

Lemma X3_witness :
  exists G1 G2,
    build_location_graph scenario_df = Some G1 /\
    build_location_graph scenario_again_df = Some G2 /\
    g_node G1 <> g_node G2 /\
    forall u v, has_edge G1 u v = has_edge G2 u v.
Proof.
  do 2 eexists. split; [reflexivity|]. split; [reflexivity|].
  split; [discriminate|].
  intros u v.
  refine (proj1 (X3_graph_of_combinations scenario_df scenario_again_df
                   _ _ eq_refl eq_refl _ u v)).
  intros l d.
  unfold has_record, scenario_df, scenario_again_df, record.
  cbn [rows existsb location disaster_type].
  destruct (key_eqb (Some "A") l), (key_eqb (Some "B") l),
           (key_eqb (Some "C") l), (key_eqb (Some "flood") d),
           (key_eqb (Some "earthquake") d); reflexivity.
Defined.

(** ** The widths of the drawn edges *)

Lemma collect_map {X Y : Type} (f : X -> option Y) (g : X -> Y) (l : list X) :
  (forall x, In x l -> f x = Some (g x)) ->
  collect (map f l) = Some (map g l).
Proof.
  induction l as [|x t IH]; simpl; intro H; [reflexivity|].
  rewrite (H x) by now left. rewrite IH; [reflexivity|].
  intros y Hy. apply H. now right.
Qed.

Lemma max_of_bounds (l : list Z) :
  forall x,
  (x <= max_of x l)%Z /\
  (forall y, In y l -> (y <= max_of x l)%Z) /\
  In (max_of x l) (x :: l).
Proof.
  unfold max_of. induction l as [|y t IH]; intro x; simpl.
  - split; [lia|]. split; [contradiction | now left].
  - destruct (IH (Z.max x y)) as (H1 & H2 & H3).
    split; [lia|]. split.
    + intros z [<-|Hz]; [lia | now apply H2].
    + destruct H3 as [H3|H3]; [|now right; right].
      rewrite <- H3. destruct (Z.max_spec x y) as [[_ ->]|[_ ->]]; auto.
Qed.

Lemma build_body_weights df e :
  In e (edges (build_body df)) ->
  edge_attr (build_body df) (fst (fst e)) (snd (fst e)) = Some (snd e) /\
  (1 <= weight (snd e))%Z.
Proof.
  destruct e as [[u v] a]. simpl. intro He.
  pose proof (edges_edge_attr _ _ _ _ (build_body_simple df) He) as Ha.
  split; [exact Ha|].
  destruct (build_body_edges df u v) as [A _].
  destruct (A a Ha) as (_ & (_ & _ & H1) & _). exact H1.
Qed.

Lemma width_bounds (w m : Z) :
  (1 <= w <= m)%Z ->
  (2 < 2 + 3 * (inject_Z w / inject_Z m) <= 5)%Q.
Proof.
  intros [H1 H2].
  assert (Hm : (0 < inject_Z m)%Q).
  { change 0%Q with (inject_Z 0). rewrite <- Zlt_Qlt. lia. }
  assert (Hw : (0 < inject_Z w)%Q).
  { change 0%Q with (inject_Z 0). rewrite <- Zlt_Qlt. lia. }
  assert (L : (0 < inject_Z w / inject_Z m)%Q).
  { apply Qlt_shift_div_l; [assumption|]. now rewrite Qmult_0_l. }
  assert (U : (inject_Z w / inject_Z m <= 1)%Q).
  { apply Qle_shift_div_r; [assumption|]. rewrite Qmult_1_l.
    rewrite <- Zle_Qle. lia. }
  split.
  - rewrite <- (Qplus_0_r 2) at 1. apply Qplus_lt_r.
    rewrite <- (Qmult_0_r 3). apply Qmult_lt_l; [reflexivity | exact L].
  - change 5%Q with (2 + 3 * 1)%Q. apply Qplus_le_r.
    apply Qmult_le_l; [reflexivity | exact U].
Qed.

Lemma width_of_max (m : Z) :
  (1 <= m)%Z -> (2 + 3 * (inject_Z m / inject_Z m) == 5)%Q.
Proof.
  intro H. field. change 0%Q with (inject_Z 0).
  rewrite inject_Z_injective. lia.
Qed.

(** X4. On a built graph the computation of the edge widths in
    [visualize_disaster_network] raises nothing: every edge has a weight,
    and the largest weight is at least 1, so the division by it is
    defined.  The function returns the file name it was given.  Every
    edge gets a width above 2 and at most 5, and when the graph has an
    edge, some edge, one of largest weight, gets width 5. *)
Theorem X4_edge_widths (df : DataFrame) (G : Graph) (output_file : string) :
  build_location_graph df = Some G ->
  exists widths,
    visualize_disaster_network G output_file = Some (widths, output_file) /\
    length widths = length (edges G) /\
    (forall w, In w widths -> (2 < w <= 5)%Q) /\
    (edges G <> [] -> exists w, In w widths /\ (w == 5)%Q).
Proof.
  intro HG. apply build_location_graph_Some in HG. subst G.
  unfold visualize_disaster_network, edge_weights.
  rewrite (collect_map _ (fun e => weight (snd e))).
  2:{ intros e He. destruct (build_body_weights df e He) as [-> _].
      reflexivity. }
  set (ws := map (fun e => weight (snd e)) (edges (build_body df))).
  assert (Hws : forall w, In w ws -> (1 <= w)%Z).
  { intros w Hw. apply in_map_iff in Hw. destruct Hw as (e & <- & He).
    apply (build_body_weights df e He). }
  set (m := match ws with [] => 1%Z | w :: t => max_of w t end).
  assert (Hm : (forall w, In w ws -> (w <= m)%Z) /\
               (ws <> [] -> In m ws)).
  { unfold m. destruct ws as [|w t]; [split; [intros w []|congruence]|].
    destruct (max_of_bounds t w) as (H1 & H2 & H3).
    split; [|auto]. intros y [<-|Hy]; auto. }
  destruct Hm as [Hle Hin].
  rewrite (collect_map _ (fun w => (2 + 3 * (inject_Z w / inject_Z m))%Q)).
  2:{ intros w Hw. unfold true_div.
      destruct (m =? 0)%Z eqn:E; [|reflexivity].
      apply Z.eqb_eq in E. specialize (Hws w Hw). specialize (Hle w Hw). lia. }
  eexists. split; [reflexivity|]. split; [|split].
  - unfold ws. now rewrite !length_map.
  - intros q Hq. apply in_map_iff in Hq. destruct Hq as (w & <- & Hw).
    apply width_bounds. auto.
  - intro Hne.
    assert (Hn : ws <> []).
    { unfold ws. destruct (edges (build_body df)); [contradiction|discriminate]. }
    exists (2 + 3 * (inject_Z m / inject_Z m))%Q. split.
    + apply in_map_iff. exists m. auto.
    + apply width_of_max. apply Hws. auto.
Qed.

Lemma X4_witness :
  exists widths,
    visualize_disaster_network scenario_graph "disaster_network.png" =
      Some (widths, "disaster_network.png") /\
    length widths = 2 /\
    forall w, In w widths -> (2 < w <= 5)%Q.
Proof.
  destruct (X4_edge_widths scenario_df scenario_graph "disaster_network.png"
              eq_refl) as (widths & H1 & H2 & H3 & _).
  exists widths. auto.
Defined.

(** ** The risk list *)

Lemma degree_centrality_In G loc cent :
  simple_graph G -> In (loc, cent) (degree_centrality G) ->
  In loc (g_node G) /\
  (0 <= cent <= 1)%Q /\
  (1 < length (g_node G) -> (0 < cent)%Q -> neighbors G loc <> []).
Proof.
  intros SG H. pose proof SG as [Hk _ _ _ _].
  unfold degree_centrality in H.
  destruct (length (g_node G) <=? 1) eqn:E.
  - apply Nat.leb_le in E. apply in_map_iff in H.
    destruct H as (n & Hn & Hin). inversion Hn; subst.
    split; [assumption|]. split; [split; discriminate | intro; lia].
  - apply Nat.leb_gt in E. rewrite Hk in H. apply in_map_iff in H.
    destruct H as (n & Hn & Hin). inversion Hn; subst n cent. clear Hn.
    destruct (simple_graph_degree G loc SG Hin) as [Hd Hb].
    set (n := length (g_node G)) in *.
    assert (Hx : (0 < Qnat n - 1)%Q).
    { rewrite Qnat_minus_1 by lia. apply Qnat_pos. lia. }
    assert (Hx0 : ~ (Qnat n - 1 == 0)%Q).
    { intro H0. rewrite H0 in Hx. now apply (Qlt_irrefl 0). }
    assert (Ec : (Qnat (degree G loc) * (1 / (Qnat n - 1)) ==
                  Qnat (degree G loc) / (Qnat n - 1))%Q) by (now field).
    split; [assumption|]. split; [split|].
    + rewrite Ec. apply Qle_shift_div_l; [assumption|]. rewrite Qmult_0_l.
      change 0%Q with (Qnat 0). apply Qnat_le. lia.
    + rewrite Ec. apply Qle_shift_div_r; [assumption|]. rewrite Qmult_1_l.
      rewrite Qnat_minus_1 by lia. now apply Qnat_le.
    + intros _ Hpos Hnil. rewrite Hd, Hnil in Hpos. simpl in Hpos.
      unfold Qnat in Hpos. simpl in Hpos. rewrite Qmult_0_l in Hpos.
      now apply (Qlt_irrefl 0).
Qed.

Lemma degree_centrality_keys G :
  simple_graph G -> map fst (degree_centrality G) = g_node G.
Proof.
  intros [Hk _ _ _ _]. unfold degree_centrality.
  destruct (length (g_node G) <=? 1); rewrite ?Hk, map_map; simpl;
    apply map_id.
Qed.

Lemma NoDup_map_filter {X Y : Type} (f : X -> Y) (p : X -> bool) (l : list X) :
  NoDup (map f l) -> NoDup (map f (filter p l)).
Proof.
  induction l as [|x t IH]; simpl; intro ND; [constructor|].
  inversion ND as [|? ? Hx NDt]; subst.
  destruct (p x); simpl; [|now apply IH].
  constructor; [|now apply IH].
  rewrite in_map_iff. intros (y & E & Hy). apply filter_In in Hy.
  apply Hx. rewrite <- E. apply in_map. tauto.
Qed.

Lemma product_above_half (c a : Q) :
  (0 <= c <= 1)%Q -> (1 # 2 < c * a)%Q -> (0 < c)%Q /\ (1 # 2 < a)%Q.
Proof.
  intros [H0 H1] H.
  assert (Hc : (0 < c)%Q).
  { destruct (Qlt_le_dec 0 c) as [L|L]; [assumption|].
    assert (E : (c == 0)%Q) by (now apply Qle_antisym).
    rewrite E, Qmult_0_l in H. discriminate. }
  split; [assumption|].
  destruct (Qlt_le_dec (1 # 2) a) as [L|L]; [assumption|].
  exfalso.
  assert (Ha : (0 < a)%Q).
  { destruct (Qlt_le_dec 0 a) as [L'|L']; [assumption|].
    assert (N : (c * a <= 0)%Q).
    { rewrite <- (Qmult_0_r c). apply Qmult_le_l; assumption. }
    exfalso. apply (Qlt_irrefl (1 # 2)).
    eapply Qlt_le_trans; [exact H|]. eapply Qle_trans; [exact N|].
    discriminate. }
  assert (U : (c * a <= 1 * a)%Q).
  { apply Qmult_le_compat_r; [assumption | now apply Qlt_le_weak]. }
  rewrite Qmult_1_l in U.
  apply (Qlt_irrefl (1 # 2)).
  eapply Qlt_le_trans; [exact H|]. eapply Qle_trans; eassumption.
Qed.



(** ** The spread-path list *)

(** X6. Every entry of the spread-path list joins two distinct locations
    that are adjacent nodes of the graph; its shared disasters are the
    disaster types recorded for both locations, each once; its connection
    strength is their number and at least 1.  No pair of locations is
    listed twice, in either direction, and the list is no longer than the
    edge list. *)
Theorem X6_spread_path_entries
    (detect : Graph -> list (list node)) (df : DataFrame) (G : Graph)
    (res : Results) :
  build_location_graph df = Some G ->
  analyze_disaster_spread detect G df = Some res ->
  let paths := res_potential_spread_paths res in
  (forall p, In p paths ->
     path_from p <> path_to p /\
     In (path_from p) (g_node G) /\ In (path_to p) (g_node G) /\
     has_edge G (path_from p) (path_to p) = true /\
     Permutation (path_shared_disasters p)
                 (shared_types df (path_from p) (path_to p)) /\
     path_connection_strength p =
       Z.of_nat (length (path_shared_disasters p)) /\
     (1 <= path_connection_strength p)%Z) /\
  NoDup (map (fun p => (path_from p, path_to p)) paths) /\
  (forall p q, In p paths -> In q paths ->
     ~ (path_from p = path_to q /\ path_to p = path_from q)) /\
  length paths <= length (edges G).
Proof.
  intros HG H. apply build_location_graph_Some in HG. subst G.
  apply analyze_Some in H. subst res. cbv zeta. simpl.
  pose proof (build_body_simple df) as SG.
  set (G := build_body df) in *.
  set (b := betweenness_centrality G).
  destruct (edges_once _ SG) as (E1 & E2 & _).
  assert (P : Permutation
    (sort_reverse (key_lt path_betweenness) (path_candidates G b))
    (map (path_entry b)
       (filter (fun e => Qltb (1 # 10) (edge_score b e)) (edges G)))).
  { rewrite <- path_candidates_map. apply sort_reverse_perm. }
  assert (Hp : forall p,
    In p (sort_reverse (key_lt path_betweenness) (path_candidates G b)) ->
    exists a, In (path_from p, path_to p, a) (edges G) /\
              path_shared_disasters p = disasters a /\
              path_connection_strength p = weight a).
  { intros p Hp. apply (Permutation_in _ P) in Hp.
    apply in_map_iff in Hp. destruct Hp as ([[u v] a] & <- & He).
    apply filter_In in He. destruct He as [He _]. simpl. eauto. }
  split; [|split; [|split]].
  - intros p Hin. destruct (Hp p Hin) as (a & He & Hd & Hw).
    pose proof (edges_edge_attr _ _ _ _ SG He) as Ha.
    destruct (attr_shared_types df _ _ a Ha) as [Pa Wa].
    destruct (build_body_edges df (path_from p) (path_to p)) as [A _].
    destruct (A a Ha) as (Hne & (Hw' & _ & H1) & _).
    assert (Hr : exists r, edge_ref G (path_from p) (path_to p) = Some r).
    { unfold edge_attr in Ha. fold G in Ha.
      destruct (edge_ref G (path_from p) (path_to p)); [eauto|discriminate]. }
    destruct Hr as [r Hr].
    destruct (simple_graph_edge_nodes _ _ _ _ SG Hr) as (_ & Hu & Hv).
    repeat split; try assumption.
    + unfold has_edge. now rewrite Hr.
    + now rewrite Hd.
    + now rewrite Hw, Hd.
    + now rewrite Hw.
  - eapply Permutation_NoDup.
    { apply Permutation_map. symmetry. exact P. }
    rewrite map_map. simpl.
    apply (NoDup_map_filter endpoints). exact E1.
  - intros p q Hin Hiq [F1 F2].
    destruct (Hp p Hin) as (a & He & _). destruct (Hp q Hiq) as (a' & He' & _).
    rewrite F1, F2 in He. apply (E2 _ _ _ a He'). exact He.
  - rewrite (Permutation_length P), length_map. apply filter_length_le.
Qed.

Lemma X6_witness :
  exists res,
    analyze_disaster_spread (fun _ => []) scenario_graph scenario_df =
      Some res /\
    length (res_potential_spread_paths res) = 2 /\
    forall p, In p (res_potential_spread_paths res) ->
      (1 <= path_connection_strength p)%Z.
Proof.
  eexists. split; [reflexivity|]. split; [reflexivity|].
  destruct (X6_spread_path_entries (fun _ => []) scenario_df scenario_graph _
              eq_refl eq_refl) as [H _].
  intros p Hp. apply (H p Hp).
Defined.
(** ** The alert levels of a group *)

Lemma group_alerts_In df loc a :
  In a (group_alerts df loc) <->
  exists r, In r (rows df) /\ location r = loc /\ alert_level r = Some a.
Proof.
  unfold group_alerts. rewrite in_flat_map. split.
  - intros (r & Hr & H). key_dec (location r) loc; [|contradiction].
    destruct (alert_level r) as [a0|] eqn:Ea; [|contradiction].
    destruct H as [<-|[]]. eauto.
  - intros (r & Hr & <- & Ea). exists r. split; [assumption|].
    rewrite key_eqb_refl, Ea. now left.
Qed.

(** ** Sizes of the report *)

Lemma risk_list_length G levels :
  simple_graph G ->
  length (sort_reverse (key_lt risk_score)
            (risk_candidates (degree_centrality G) levels)) <=
  length (g_node G).
Proof.
  intro SG. rewrite (Permutation_length (sort_reverse_perm _ _ _)).
  rewrite <- (length_map risk_location), risk_candidates_locations.
  rewrite length_map.
  rewrite <- (degree_centrality_keys G SG), length_map.
  apply filter_length_le.
Qed.

Lemma path_list_length G b :
  length (sort_reverse (key_lt path_betweenness) (path_candidates G b)) <=
  length (edges G).
Proof.
  rewrite (Permutation_length (sort_reverse_perm _ _ _)).
  rewrite path_candidates_map, length_map. apply filter_length_le.
Qed.

Lemma cluster_list_length communities levels :
  length (sort_reverse cluster_key_ltb
            (cluster_candidates communities levels)) <=
  length communities.
Proof.
  rewrite (Permutation_length (sort_reverse_perm _ _ _)).
  unfold cluster_candidates.
  assert (H : forall k,
    length (flat_map (fun ic : nat * list node =>
        let (i, community_list) := ic in
        if 1 <? length community_list then
          [mkCluster i community_list (length community_list)
             (np_mean (map (member_alert levels) community_list))]
        else [])
      (enumerate_from k communities)) <= length communities).
  { induction communities as [|c t IH]; intro k; simpl; [lia|].
    rewrite length_app. specialize (IH (S k)).
    destruct (1 <? length c); simpl; lia. }
  apply H.
Qed.

(** X8. A generated report lists at most 5 high-risk locations and at most
    10 spread paths, and never more than there are locations and edges;
    it has at most one cluster for each community found.  The number of
    locations it gives is the number of nodes of the graph; neither this
    number nor the number of disaster types exceeds the number of
    records. *)
Theorem X8_report_sizes
    (detect : Graph -> list (list node)) (now : Z) (df : DataFrame)
    (r : Report) :
  generate_link_analysis_report detect now df = Some (Generated r) ->
  exists G,
    build_location_graph df = Some G /\
    locations_analyzed r = length (g_node G) /\
    length (high_risk_locations r) <= Nat.min 5 (locations_analyzed r) /\
    length (potential_spread_paths r) <= Nat.min 10 (length (edges G)) /\
    length (disaster_clusters r) <= length (detect G) /\
    length (disaster_types_analyzed r) <= length (rows df) /\
    locations_analyzed r <= length (rows df).
Proof.
  intro H. apply generate_Generated in H.
  destruct H as (res & HG & HA & ->).
  exists (build_body df). split; [exact HG|].
  apply analyze_Some in HA. subst res.
  cbn [locations_analyzed high_risk_locations potential_spread_paths
       disaster_clusters disaster_types_analyzed timestamp
       visualization_path res_high_risk_locations res_disaster_clusters
       res_potential_spread_paths].
  destruct (build_body_inv df) as [[SG _] Hn].
  assert (U : forall l : list cell, length (unique l) <= length l).
  { intro l. apply NoDup_incl_length; [apply unique_NoDup|].
    intros x Hx. now apply unique_In. }
  split; [now rewrite Hn|].
  split; [|split; [|split; [|split]]].
  - rewrite length_firstn. rewrite <- Hn.
    pose proof (risk_list_length (build_body df) (alert_levels df) SG). lia.
  - rewrite length_firstn.
    pose proof (path_list_length (build_body df)
                  (betweenness_centrality (build_body df))). lia.
  - apply cluster_list_length.
  - rewrite <- (length_map disaster_type). apply U.
  - rewrite <- (length_map location (rows df)). apply U.
Qed.

Lemma X8_witness :
  exists r,
    generate_link_analysis_report (fun _ => []) 0 path5_df =
      Some (Generated r) /\
    locations_analyzed r = 5 /\
    length (high_risk_locations r) <= 5 /\
    length (potential_spread_paths r) <= 10.
Proof.
  eexists. split; [reflexivity|]. split; [reflexivity|].
  destruct (X8_report_sizes (fun _ => []) 0 path5_df _ eq_refl)
    as (G & _ & _ & H1 & H2 & _).
  split; [eapply Nat.le_trans; [exact H1 | apply Nat.le_min_l]|].
  eapply Nat.le_trans; [exact H2 | apply Nat.le_min_l].
Defined.

(** ** Frames in which no two locations share a disaster type *)

Lemma edges_from_empty store adj :
  forall seen,
  (forall n nb, In (n, nb) adj -> nb = []) ->
  edges_from store seen adj = [].
Proof.
  induction adj as [|[n nb] t IH]; intros seen H; simpl; [reflexivity|].
  rewrite (H n nb) by now left. simpl. apply IH.
  intros n' nb' Hin. apply (H n'). now right.
Qed.

Lemma no_shared_types_no_edges df :
  (forall u v, u <> v -> shared_types df u v = []) ->
  (forall u v, has_edge (build_body df) u v = false) /\
  (forall n nb, In (n, nb) (g_adj (build_body df)) -> nb = []) /\
  edges (build_body df) = [].
Proof.
  intro H.
  assert (A : forall u v, has_edge (build_body df) u v = false).
  { intros u v. destruct (has_edge (build_body df) u v) eqn:E; [|reflexivity].
    apply build_body_edges in E. destruct E as [Hne Hs].
    now rewrite (H u v Hne) in Hs. }
  assert (B : forall n nb, In (n, nb) (g_adj (build_body df)) -> nb = []).
  { intros n nb Hin. pose proof (build_body_simple df) as SG.
    pose proof (simple_graph_In_adj _ _ _ SG Hin) as En.
    destruct nb as [|[x r] t]; [reflexivity|].
    destruct (sg_nbrs _ SG n _ En) as [ND _].
    specialize (A n x). unfold has_edge, edge_ref, adj_ref in A.
    rewrite En in A. simpl in A. rewrite key_eqb_refl in A. discriminate. }
  split; [exact A|]. split; [exact B|].
  now apply edges_from_empty.
Qed.

(** X9. When no disaster type is recorded for two different locations the
    graph has no edge and the analysis finds no spread path; if the frame
    names more than one location, every degree centrality is 0 and no
    location is high-risk, however high the alert levels are. *)
Theorem X9_no_shared_types
    (detect : Graph -> list (list node)) (df : DataFrame) (G : Graph)
    (res : Results) :
  build_location_graph df = Some G ->
  analyze_disaster_spread detect G df = Some res ->
  (forall u v, u <> v -> shared_types df u v = []) ->
  edges G = [] /\
  (forall u v, has_edge G u v = false) /\
  res_potential_spread_paths res = [] /\
  (1 < length (g_node G) -> res_high_risk_locations res = []).
Proof.
  intros HG H Hs. apply build_location_graph_Some in HG. subst G.
  apply analyze_Some in H. subst res. simpl.
  destruct (no_shared_types_no_edges df Hs) as (A & B & E).
  pose proof (build_body_simple df) as SG.
  split; [exact E|]. split; [exact A|]. split.
  - unfold path_candidates. rewrite E. reflexivity.
  - intro Hn.
    destruct (sort_reverse (key_lt risk_score)
      (risk_candidates (degree_centrality (build_body df)) (alert_levels df)))
      as [|e t] eqn:El; [reflexivity|].
    exfalso.
    assert (He : In e (risk_candidates (degree_centrality (build_body df))
                         (alert_levels df))).
    { eapply Permutation_in; [apply sort_reverse_perm|].
      rewrite El. now left. }
    apply risk_candidates_In in He.
    destruct He as (loc & cent & alert & Hin & _ & Hsc & _).
    destruct (degree_centrality_In _ loc cent SG Hin) as (Hl & Hb & Hnb).
    destruct (product_above_half cent alert Hb Hsc) as [Hc _].
    apply (Hnb Hn Hc). unfold neighbors.
    destruct (dget key_eqb (g_adj (build_body df)) loc) as [nb|] eqn:En;
      [|reflexivity].
    apply dget_Some_In in En. now apply B in En.
Qed.

Lemma X9_witness :
  exists G res,
    build_location_graph separate_df = Some G /\
    analyze_disaster_spread (fun _ => []) G separate_df = Some res /\
    length (g_node G) = 2 /\
    res_high_risk_locations res = [] /\
    res_potential_spread_paths res = [].
Proof.
  do 2 eexists. split; [reflexivity|]. split; [reflexivity|].
  split; [reflexivity|].
  destruct (X9_no_shared_types (fun _ => []) separate_df _ _
              eq_refl eq_refl) as (_ & _ & H1 & H2).
  - intros u v Hne. unfold shared_types, has_record, separate_df, record.
    cbn [rows map disaster_type location unique unique_from lmem existsb
         filter is_some].
    change (key_eqb (Some "earthquake") (Some "flood")) with false.
    cbn [orb negb filter unique_from lmem existsb is_some andb].
    key_dec (Some "A") u; key_dec (Some "B") u; key_dec (Some "A") v;
      key_dec (Some "B") v; try congruence; reflexivity.
  - split; [apply H2; simpl; lia | exact H1].
Defined.

(** ** Betweenness is never negative *)

Lemma nonneg_dset (d : list (node * Q)) k q :
  nonneg_table d -> (0 <= q)%Q -> nonneg_table (dset key_eqb d k q).
Proof.
  intros H Hq k' q' E. rewrite dget_dset in E.
  destruct (key_eqb k' k); [inversion E; now subst | eauto].
Qed.

Lemma nonneg_dgetd (d : list (node * Q)) k :
  nonneg_table d -> (0 <= dgetd d k 0)%Q.
Proof.
  intro H. unfold dgetd. destruct (dget key_eqb d k) as [q|] eqn:E.
  - eauto.
  - apply Qle_refl.
Qed.

Lemma nonneg_zeros (l : list node) :
  nonneg_table (map (fun v => (v, 0%Q)) l).
Proof.
  intros k q E. rewrite (dget_table (fun _ => 0%Q)) in E.
  destruct (lmem key_eqb k l); inversion E. apply Qle_refl.
Qed.

Lemma Qplus_nonneg (a b : Q) : (0 <= a)%Q -> (0 <= b)%Q -> (0 <= a + b)%Q.
Proof.
  intros Ha Hb. rewrite <- (Qplus_0_r 0). now apply Qplus_le_compat.
Qed.

Lemma Qdiv_nonneg (a b : Q) : (0 <= a)%Q -> (0 <= b)%Q -> (0 <= a / b)%Q.
Proof.
  intros Ha Hb. unfold Qdiv. apply Qmult_le_0_compat; [assumption|].
  now apply Qinv_le_0_compat.
Qed.

Lemma bfs_visit_sigma v Dv sv st w :
  (0 <= sv)%Q -> nonneg_table (bsigma st) ->
  nonneg_table (bsigma (bfs_visit v Dv sv st w)).
Proof.
  intros Hs H. unfold bfs_visit.
  destruct (dmem key_eqb (bD st) w); cbv zeta;
    match goal with |- context [if ?c then _ else _] => destruct c end;
    cbn [bsigma]; try assumption;
    (apply nonneg_dset; [assumption|]);
    (apply Qplus_nonneg; [now apply nonneg_dgetd | assumption]).
Qed.

Lemma bfs_visits_sigma v Dv sv (ws : list node) :
  (0 <= sv)%Q -> forall st, nonneg_table (bsigma st) ->
  nonneg_table (bsigma (fold_left (bfs_visit v Dv sv) ws st)).
Proof.
  intro Hs. induction ws as [|w ws IH]; intros st H; simpl; [assumption|].
  apply IH. now apply bfs_visit_sigma.
Qed.

Lemma bfs_loop_sigma G fuel :
  forall st, nonneg_table (bsigma st) ->
  nonneg_table (bsigma (bfs_loop fuel G st)).
Proof.
  induction fuel as [|fuel IH]; intros st H; simpl; [assumption|].
  destruct (bQ st) as [|v q]; [assumption|].
  apply IH. apply bfs_visits_sigma; [now apply nonneg_dgetd | exact H].
Qed.

Lemma search_sigma G s :
  nonneg_table (bsigma (single_source_shortest_path_basic G s)).
Proof.
  unfold single_source_shortest_path_basic. apply bfs_loop_sigma. simpl.
  apply nonneg_dset; [apply nonneg_zeros | discriminate].
Qed.

Lemma accumulate_step_nonneg P sigma s acc w :
  nonneg_table sigma ->
  nonneg_table (fst acc) -> nonneg_table (snd acc) ->
  nonneg_table (fst (accumulate_step P sigma s acc w)) /\
  nonneg_table (snd (accumulate_step P sigma s acc w)).
Proof.
  intros Hs. destruct acc as [B delta]. simpl. intros HB Hd.
  unfold accumulate_step.
  set (coeff := ((1 + dgetd delta w 0) / dgetd sigma w 0)%Q).
  assert (Hc : (0 <= coeff)%Q).
  { apply Qdiv_nonneg; [|now apply nonneg_dgetd].
    apply Qplus_nonneg; [discriminate | now apply nonneg_dgetd]. }
  assert (Hf : forall l dl, nonneg_table dl ->
    nonneg_table (fold_left (fun dl v =>
        dset key_eqb dl v (dgetd dl v 0 + dgetd sigma v 0 * coeff)%Q) l dl)).
  { induction l as [|v l IH]; intros dl H; simpl; [assumption|].
    apply IH. apply nonneg_dset; [assumption|].
    apply Qplus_nonneg; [now apply nonneg_dgetd|].
    apply Qmult_le_0_compat; [now apply nonneg_dgetd | assumption]. }
  specialize (Hf (dgetd P w []) delta Hd).
  destruct (cell_eqb w s); simpl; split; try assumption.
  apply nonneg_dset; [assumption|].
  apply Qplus_nonneg; now apply nonneg_dgetd.
Qed.

Lemma accumulate_nonneg B b s :
  nonneg_table (bsigma b) -> nonneg_table B ->
  nonneg_table (fst (accumulate_basic B b s)).
Proof.
  intros Hs HB. unfold accumulate_basic.
  assert (K : forall l acc,
    nonneg_table (fst acc) -> nonneg_table (snd acc) ->
    nonneg_table (fst (fold_left (accumulate_step (bP b) (bsigma b) s) l acc))).
  { induction l as [|w l IH]; intros acc H1 H2; simpl; [assumption|].
    destruct (accumulate_step_nonneg (bP b) (bsigma b) s acc w Hs H1 H2).
    now apply IH. }
  apply K; simpl; [assumption | apply nonneg_zeros].
Qed.

Lemma brandes_sums_nonneg G : nonneg_table (brandes_sums G).
Proof.
  unfold brandes_sums.
  assert (K : forall l B, nonneg_table B ->
    nonneg_table (fold_left (fun betweenness s =>
        fst (accumulate_basic betweenness
               (single_source_shortest_path_basic G s) s)) l B)).
  { induction l as [|s l IH]; intros B HB; simpl; [assumption|].
    apply IH. apply accumulate_nonneg; [apply search_sigma | assumption]. }
  apply K, nonneg_zeros.
Qed.

Lemma betweenness_lookup G v :
  In v (g_node G) ->
  exists sum,
    dget key_eqb (brandes_sums G) v = Some sum /\
    (0 <= sum)%Q /\
    exists c,
      dget key_eqb (betweenness_centrality G) v = Some c /\
      (0 <= c)%Q /\ ((sum == 0)%Q -> (c == 0)%Q).
Proof.
  intro Hv.
  destruct (dgetd_present (brandes_sums G) v 0%Q (brandes_sums_keys G v Hv))
    as (sum & E & _).
  exists sum. split; [exact E|].
  pose proof (brandes_sums_nonneg G v sum E) as H0.
  split; [exact H0|].
  unfold betweenness_centrality, betweenness_with.
  rewrite rescale_lookup, E. simpl.
  set (n := length (g_node G)).
  destruct (n <=? 2) eqn:En.
  - exists sum. split; [reflexivity|]. auto.
  - apply Nat.leb_gt in En. eexists. split; [reflexivity|]. split.
    + apply Qmult_le_0_compat; [assumption|].
      apply Qdiv_nonneg; [discriminate|].
      apply Qmult_le_0_compat.
      * rewrite Qnat_minus_1 by lia. change 0%Q with (Qnat 0).
        apply Qnat_le. lia.
      * rewrite Qnat_minus_2 by lia. change 0%Q with (Qnat 0).
        apply Qnat_le. lia.
    + intro Z. rewrite Z. apply Qmult_0_l.
Qed.

(** ** A node with at most one neighbour lies between no two others *)

Lemma adjacent_ref G v x :
  simple_graph G ->
  (adjacent G v x <-> exists r, edge_ref G v x = Some r).
Proof.
  intros [Hk Hnd Hnb _ _]. unfold adjacent, neighbors, edge_ref, adj_ref.
  destruct (dget key_eqb (g_adj G) v) as [nb|] eqn:E.
  - destruct (Hnb _ _ E) as [ND _]. split.
    + intro H. apply in_map_iff in H. destruct H as ([x' r] & <- & Hin).
      exists r. now apply In_dget.
    + intros [r Hr]. apply dget_Some_In in Hr.
      change x with (fst (x, r)). now apply in_map.
  - split; [intros [] | intros [r Hr]; discriminate].
Qed.

Lemma adjacent_sym G v x :
  simple_graph G -> adjacent G v x -> adjacent G x v.
Proof.
  intros SG H. apply (adjacent_ref G v x SG) in H. destruct H as [r Hr].
  apply (sg_sym G SG) in Hr. destruct Hr as [Hr _].
  apply (adjacent_ref G x v SG). eauto.
Qed.

Lemma adjacent_irrefl G v : simple_graph G -> ~ adjacent G v v.
Proof.
  intros SG H. apply (adjacent_ref G v v SG) in H. destruct H as [r Hr].
  destruct (simple_graph_edge_nodes _ _ _ _ SG Hr) as [Hne _].
  now apply Hne.
Qed.

Lemma leaf_neighbour G w :
  length (neighbors G w) <= 1 ->
  exists u, forall x, adjacent G w x -> x = u.
Proof.
  unfold adjacent. destruct (neighbors G w) as [|[u r] [|p t]]; simpl; intro H.
  - exists None. intros x [].
  - exists u. intros x [E|[]]. now symmetry.
  - lia.
Qed.

Section Leaf.
Variable G : Graph.
Variables u w : node.
Hypothesis G_simple : simple_graph G.
Hypothesis w_leaf : forall x, adjacent G w x -> x = u.

Lemma leaf_seen_from v : adjacent G v w -> v = u.
Proof. intro H. apply w_leaf. now apply adjacent_sym. Qed.

Lemma leaf_visit v Dv sv st x :
  adjacent G v x ->
  dget key_eqb (bD st) v = Some Dv ->
  leaf_inv u w st ->
  leaf_inv u w (bfs_visit v Dv sv st x) /\
  dget key_eqb (bD (bfs_visit v Dv sv st x)) v = Some Dv.
Proof.
  intros Hadj Hv [K1 K2].
  assert (Hvx : v <> x) by (intros ->; now apply (adjacent_irrefl G x)).
  assert (Hpred : forall v', In w (dgetd (dset key_eqb (bP st) x
                     (dgetd (bP st) x [] ++ [v])) v' []) -> v = w).
  { intros v' Hin. rewrite dgetd_dset in Hin.
    destruct (key_eqb v' x); [|now apply K1 in Hin].
    apply in_app_or in Hin. destruct Hin as [Hin|[E|[]]]; [|assumption].
    now apply K1 in Hin. }
  destruct (dget key_eqb (bD st) x) as [d|] eqn:Ex.
  - destruct (Nat.eq_dec d (Dv + 1)) as [Ed|Ed].
    2:{ rewrite (bfs_visit_old _ _ _ _ _ d) by assumption.
        split; [split|]; assumption. }
    subst d.
    assert (Eg : dgetd (bD st) x 0 = Dv + 1) by (unfold dgetd; now rewrite Ex).
    unfold bfs_visit, dmem. rewrite Ex. cbv iota beta zeta.
    rewrite Eg, Nat.eqb_refl.
    cbn [bD bP]. split; [split|]; try assumption.
    intros v' Hin. apply Hpred in Hin. subst v.
    assert (Hxu : x = u) by now apply w_leaf.
    destruct K2 as (du & Hu & Hw).
    { apply dget_Some_In in Hv. change w with (fst (w, Dv)).
      now apply in_map. }
    subst x. rewrite Hv in Hw. rewrite Ex in Hu.
    inversion Hw. inversion Hu. lia.
  - rewrite bfs_visit_new by assumption. unfold discover. cbn [bD bP].
    assert (Hvget : dget key_eqb (dset key_eqb (bD st) x (Dv + 1)) v =
                    Some Dv).
    { rewrite dget_dset. key_dec v x; [contradiction | assumption]. }
    split; [split|]; cbn [bD bP]; try assumption.
    + intros v' Hin. apply Hpred in Hin. subst v.
      assert (Hxu : x = u) by now apply w_leaf.
      destruct K2 as (du & Hu & _).
      { apply dget_Some_In in Hv. change w with (fst (w, Dv)).
        now apply in_map. }
      subst x. congruence.
    + intro Hin. apply dset_keys_In in Hin. destruct Hin as [Hw|Hin].
      * subst x. assert (Hvu : v = u) by now apply leaf_seen_from.
        subst v. exists Dv. split; [assumption|].
        rewrite dget_dset. now rewrite key_eqb_refl.
      * destruct (K2 Hin) as (du & Hu & Hw). exists du.
        rewrite !dget_dset.
        key_dec u x; [congruence|]. key_dec w x; [congruence|]. auto.
Qed.

Lemma leaf_visits v Dv sv (xs : list node) :
  forall st,
  (forall x, In x xs -> adjacent G v x) ->
  dget key_eqb (bD st) v = Some Dv ->
  leaf_inv u w st ->
  leaf_inv u w (fold_left (bfs_visit v Dv sv) xs st).
Proof.
  induction xs as [|x xs IH]; intros st Hx Hv K; simpl; [assumption|].
  destruct (leaf_visit v Dv sv st x) as [K' Hv']; auto.
  { apply Hx. now left. }
  apply IH; auto. intros y Hy. apply Hx. now right.
Qed.

Lemma leaf_loop fuel :
  forall st,
  bfs_inv G st -> leaf_inv u w st ->
  leaf_inv u w (bfs_loop fuel G st).
Proof.
  induction fuel as [|fuel IH]; intros st J K; simpl; [assumption|].
  destruct (bQ st) as [|v q] eqn:EQ; [assumption|].
  assert (Hv : In v (map fst (bD st))).
  { destruct J as (_ & He & _). apply He. rewrite EQ.
    apply in_or_app. right. now left. }
  destruct (dgetd_present (bD st) v 0 Hv) as (Dv & E1 & E2).
  rewrite E2.
  assert (J1 : bfs_inv G
    (mkBFS (bS st ++ [v]) (bP st) (bsigma st) (bD st) q)).
  { destruct J as (ND & He & Hn). rewrite EQ in *.
    unfold bfs_inv. simpl. rewrite <- app_assoc. simpl. auto. }
  assert (Hnb : forall x, In x (map fst (neighbors G v)) -> In x (g_node G)).
  { intros x Hx. apply (adjacent_ref G v x G_simple) in Hx.
    destruct Hx as [r Hr].
    apply (simple_graph_edge_nodes _ _ _ _ G_simple Hr). }
  apply IH.
  - apply bfs_visits_inv; assumption.
  - apply leaf_visits; try assumption.
    intros x Hx. exact Hx.
Qed.

Lemma leaf_search s :
  In s (g_node G) -> w <> s ->
  forall v, ~ In w (dgetd (bP (single_source_shortest_path_basic G s)) v []).
Proof.
  intros Hs Hws. unfold single_source_shortest_path_basic.
  apply leaf_loop.
  - unfold bfs_inv. simpl. split; [|split].
    + repeat constructor. intros [].
    + tauto.
    + intros y [<-|[]]. assumption.
  - split; simpl.
    + intros v. unfold dgetd.
      rewrite (dget_table (fun _ => @nil node)).
      destruct (lmem key_eqb v (g_node G)); intros [].
    + intros [E|[]]. congruence.
Qed.

End Leaf.

Lemma zero_at_dgetd (d : list (node * Q)) w :
  zero_at d w -> (dgetd d w 0 == 0)%Q.
Proof.
  intro H. unfold dgetd. destruct (dget key_eqb d w) as [q|] eqn:E.
  - now apply H.
  - reflexivity.
Qed.

Lemma fold_dset_other {V : Type} (f : list (node * V) -> node -> V)
    (l : list node) (w : node) :
  ~ In w l ->
  forall dl,
  dget key_eqb (fold_left (fun dl v => dset key_eqb dl v (f dl v)) l dl) w =
  dget key_eqb dl w.
Proof.
  induction l as [|v l IH]; intros Hw dl; simpl; [reflexivity|].
  rewrite IH by (intro H; apply Hw; now right).
  rewrite dget_dset. key_dec w v; [|reflexivity].
  exfalso. apply Hw. now left.
Qed.

Lemma accumulate_step_leaf P sigma s w acc w' :
  w <> None ->
  (w = s \/ forall v, ~ In w (dgetd P v [])) ->
  zero_at (fst acc) w /\ (w <> s -> zero_at (snd acc) w) ->
  zero_at (fst (accumulate_step P sigma s acc w')) w /\
  (w <> s -> zero_at (snd (accumulate_step P sigma s acc w')) w).
Proof.
  intros Hn Hw. destruct acc as [B delta]. simpl. intros [HB Hd].
  unfold accumulate_step.
  set (coeff := ((1 + dgetd delta w' 0) / dgetd sigma w' 0)%Q).
  set (delta' := fold_left (fun dl v =>
        dset key_eqb dl v (dgetd dl v 0 + dgetd sigma v 0 * coeff)%Q)
      (dgetd P w' []) delta).
  assert (Hd' : w <> s -> zero_at delta' w).
  { intros Hne q Hq. destruct Hw as [Hw|Hw]; [contradiction|].
    unfold delta' in Hq.
    rewrite (fold_dset_other
               (fun dl v => (dgetd dl v 0 + dgetd sigma v 0 * coeff)%Q))
      in Hq by apply Hw.
    now apply (Hd Hne). }
  destruct (cell_eqb w' s) eqn:Ec; simpl; split; try assumption.
  intros q Hq. rewrite dget_dset in Hq. key_dec w w'.
  - subst w'. rewrite (cell_eqb_key w s Hn) in Ec. apply key_eqb_neq in Ec.
    inversion Hq. change (dgetd B w 0 + dgetd delta' w 0 == 0)%Q.
    rewrite (zero_at_dgetd B w HB), (zero_at_dgetd delta' w (Hd' Ec)).
    reflexivity.
  - now apply HB.
Qed.

Lemma accumulate_leaf B b s w :
  w <> None ->
  (w = s \/ forall v, ~ In w (dgetd (bP b) v [])) ->
  zero_at B w -> zero_at (fst (accumulate_basic B b s)) w.
Proof.
  intros Hn Hw HB. unfold accumulate_basic.
  assert (K : forall l acc,
    zero_at (fst acc) w /\ (w <> s -> zero_at (snd acc) w) ->
    zero_at (fst (fold_left (accumulate_step (bP b) (bsigma b) s) l acc)) w).
  { induction l as [|w' l IH]; intros acc H; simpl; [apply H|].
    apply IH. now apply accumulate_step_leaf. }
  apply K. simpl. split; [assumption|].
  intros _ q Hq. rewrite (dget_table (fun _ => 0%Q)) in Hq.
  destruct (lmem key_eqb w (bS b)); inversion Hq. reflexivity.
Qed.

Lemma brandes_sums_leaf G w :
  simple_graph G -> w <> None -> length (neighbors G w) <= 1 ->
  zero_at (brandes_sums G) w.
Proof.
  intros SG Hn Hl. destruct (leaf_neighbour G w Hl) as [u Hu].
  unfold brandes_sums.
  assert (K : forall l B,
    (forall s, In s l -> In s (g_node G)) -> zero_at B w ->
    zero_at (fold_left (fun betweenness s =>
        fst (accumulate_basic betweenness
               (single_source_shortest_path_basic G s) s)) l B) w).
  { induction l as [|s l IH]; intros B Hs HB; simpl; [assumption|].
    apply IH; [intros s' H; apply Hs; now right|].
    apply accumulate_leaf; [assumption| |assumption].
    destruct (cell_eq_dec w s) as [E|E]; [now left | right].
    apply (leaf_search G u w SG Hu s); [apply Hs; now left | assumption]. }
  apply K; [auto|].
  intros q Hq. rewrite (dget_table (fun _ => 0%Q)) in Hq.
  destruct (lmem key_eqb w (g_node G)); inversion Hq. reflexivity.
Qed.

(** X10. The betweenness table has an entry for every node, and no entry
    is negative.  A location name with at most one neighbour has
    betweenness 0: no shortest path between two other nodes passes through
    it.  The NaN node, which stands for the records without a location,
    is excepted: the accumulation compares it with the source by [!=],
    does not recognise it as its own source and adds its dependency to
    its own entry, so that with one neighbour B it gets 1. *)
Theorem X10_betweenness_sign_and_leaves (G : Graph) (v : node) :
  simple_graph G -> In v (g_node G) ->
  (exists c,
     dget key_eqb (betweenness_centrality G) v = Some c /\
     (0 <= c)%Q /\
     (v <> None -> length (neighbors G v) <= 1 -> (c == 0)%Q)) /\
  (length (neighbors (build_body nameless_df) None) = 1 /\
   dget key_eqb (betweenness_centrality (build_body nameless_df)) None =
     Some 1%Q).
Proof.
  intros SG Hv. split; [|split; reflexivity].
  destruct (betweenness_lookup G v Hv) as (sum & Es & _ & c & Ec & H0 & Hz).
  exists c. split; [exact Ec|]. split; [exact H0|].
  intros Hn Hl. apply Hz. exact (brandes_sums_leaf G v SG Hn Hl sum Es).
Qed.

Lemma X10_witness :
  simple_graph scenario_graph /\
  exists c,
    dget key_eqb (betweenness_centrality scenario_graph) (Some "B") =
      Some c /\
    (c == 0)%Q.
Proof.
  assert (SG : simple_graph scenario_graph)
    by exact (build_body_simple scenario_df).
  split; [exact SG|].
  destruct (X10_betweenness_sign_and_leaves scenario_graph (Some "B") SG)
    as [(c & H1 & _ & H2) _].
  - simpl. auto.
  - exists c. split; [exact H1|]. apply H2; [discriminate | simpl; lia].
Defined.

(** X11. Every reported spread path whose two ends are location names has
    an end with at least two neighbours in the graph: the two betweenness
    values add up to more than 0.1, and a location name joined to one
    other location only has betweenness 0.  A path with the NaN node at
    one end is not bound by this: the frame of one record without a
    location and one of B reports the path from NaN to B. *)
Theorem X11_spread_paths_pass_a_hub
    (detect : Graph -> list (list node)) (df : DataFrame) (G : Graph)
    (res : Results) :
  build_location_graph df = Some G ->
  analyze_disaster_spread detect G df = Some res ->
  (forall p, In p (res_potential_spread_paths res) ->
     path_from p <> None -> path_to p <> None ->
     2 <= length (neighbors G (path_from p)) \/
     2 <= length (neighbors G (path_to p))) /\
  (exists res0 p0,
     analyze_disaster_spread (fun _ => []) (build_body nameless_df)
       nameless_df = Some res0 /\
     res_potential_spread_paths res0 = [p0] /\
     path_from p0 = None /\ path_to p0 = Some "B" /\
     length (neighbors (build_body nameless_df) None) = 1 /\
     length (neighbors (build_body nameless_df) (Some "B")) = 1).
Proof.
  intros HG H. split.
  2:{ do 2 eexists. split; [vm_compute; reflexivity|].
      repeat split; reflexivity. }
  apply build_location_graph_Some in HG. subst G.
  apply analyze_Some in H. subst res. simpl.
  pose proof (build_body_simple df) as SG.
  set (G := build_body df) in *.
  intros p Hp.
  eapply Permutation_in in Hp; [|apply sort_reverse_perm].
  rewrite path_candidates_map in Hp. apply in_map_iff in Hp.
  destruct Hp as ([[a b] data] & <- & He). apply filter_In in He.
  destruct He as [He Hs]. apply Qltb_lt in Hs. unfold edge_score in Hs.
  simpl in *. intros Ma Mb.
  destruct (le_lt_dec (length (neighbors G a)) 1) as [La|La]; [|left; lia].
  destruct (le_lt_dec (length (neighbors G b)) 1) as [Lb|Lb]; [|right; lia].
  exfalso.
  pose proof (edges_edge_attr _ _ _ _ SG He) as Ha. unfold edge_attr in Ha.
  destruct (edge_ref G a b) as [r|] eqn:Er; [|discriminate].
  destruct (simple_graph_edge_nodes _ _ _ _ SG Er) as (_ & Na & Nb).
  assert (Z : forall y, In y (g_node G) -> y <> None ->
                length (neighbors G y) <= 1 ->
                (dgetd (betweenness_centrality G) y 0 == 0)%Q).
  { intros y Hy My Ly.
    destruct (betweenness_lookup G y Hy) as (sum & Es & _ & c & Ec & _ & Hz).
    unfold dgetd. rewrite Ec. apply Hz.
    exact (brandes_sums_leaf G y SG My Ly sum Es). }
  rewrite (Z a Na Ma La), (Z b Nb Mb Lb) in Hs. discriminate.
Qed.

Lemma X11_witness :
  exists res,
    analyze_disaster_spread (fun _ => []) scenario_graph scenario_df =
      Some res /\
    forall p, In p (res_potential_spread_paths res) ->
      path_from p <> None -> path_to p <> None ->
      2 <= length (neighbors scenario_graph (path_from p)) \/
      2 <= length (neighbors scenario_graph (path_to p)).
Proof.
  eexists. split; [reflexivity|].
  apply (proj1 (X11_spread_paths_pass_a_hub (fun _ => []) scenario_df
                  scenario_graph _ eq_refl eq_refl)).
Defined.

(** ** The cluster list *)

Lemma cluster_candidates_from (levels : list (cell * fval))
    (communities : list (list node)) :
  forall k,
  let cs :=
    flat_map (fun ic : nat * list node =>
        let (i, community_list) := ic in
        if 1 <? length community_list then
          [mkCluster i community_list (length community_list)
             (np_mean (map (member_alert levels) community_list))]
        else [])
      (enumerate_from k communities) in
  map cluster_locations cs = filter (fun c => 1 <? length c) communities /\
  (forall i, In i (map cluster_id cs) -> k <= i) /\
  NoDup (map cluster_id cs).
Proof.
  induction communities as [|c t IH]; intro k; cbv zeta; simpl.
  - split; [reflexivity|]. split; [intros i []|constructor].
  - destruct (IH (S k)) as (H1 & H2 & H3). cbv zeta in H1, H2, H3.
    destruct (1 <? length c); simpl.
    + split; [now rewrite H1|]. split.
      * intros i [<-|Hi]; [lia|]. apply H2 in Hi. lia.
      * constructor; [|assumption]. intro Hk. apply H2 in Hk. lia.
    + split; [assumption|]. split; [|assumption].
      intros i Hi. apply H2 in Hi. lia.
Qed.

Lemma NoDup_flat_map_filter {X : Type} (p : list X -> bool)
    (l : list (list X)) :
  NoDup (concat l) -> NoDup (concat (filter p l)).
Proof.
  induction l as [|a t IH]; simpl; intro ND; [constructor|].
  apply NoDup_app_remove_l in ND as NDt.
  destruct (p a); simpl; [|now apply IH].
  apply NoDup_app.
  - now apply NoDup_app_remove_r in ND.
  - now apply IH.
  - intros x Hx Hy.
    assert (Hin : In x (concat t)).
    { apply in_concat in Hy. destruct Hy as (y & Hy & Hxy).
      apply filter_In in Hy. apply in_concat. exists y. tauto. }
    clear Hy. revert x Hx Hin. clear - ND.
    induction a as [|z a IHa]; simpl in *; intros x Hx Hin; [contradiction|].
    inversion ND as [|? ? Hz ND']; subst.
    destruct Hx as [<-|Hx]; [|eauto].
    apply Hz. apply in_or_app. now right.
Qed.

Lemma concat_filter_length {X : Type} (l : list (list X)) :
  2 * length (filter (fun c => 1 <? length c) l) <=
    length (concat (filter (fun c => 1 <? length c) l)) /\
  length (concat (filter (fun c => 1 <? length c) l)) <= length (concat l).
Proof.
  induction l as [|a t [IH1 IH2]]; simpl; [lia|].
  destruct (1 <? length a) eqn:E; simpl; rewrite ?length_app.
  - apply Nat.ltb_lt in E. lia.
  - lia.
Qed.

(** X12. The clusters of the analysis have pairwise different ids.  When
    the communities found are pairwise disjoint, no location belongs to
    two clusters or is listed twice in one; when, besides, every member of
    a community is a node of the graph, the clusters hold at most as many
    locations as the graph has nodes, and there are at most half as many
    clusters as nodes. *)
Theorem X12_clusters_are_disjoint
    (detect : Graph -> list (list node)) (G : Graph) (df : DataFrame)
    (res : Results) :
  analyze_disaster_spread detect G df = Some res ->
  let clusters := res_disaster_clusters res in
  NoDup (map cluster_id clusters) /\
  (NoDup (concat (detect G)) ->
   NoDup (flat_map cluster_locations clusters) /\
   (incl (concat (detect G)) (g_node G) ->
    2 * length clusters <= length (flat_map cluster_locations clusters) /\
    length (flat_map cluster_locations clusters) <= length (g_node G))).
Proof.
  intro H. apply analyze_Some in H. subst res. cbv zeta. simpl.
  set (cands := cluster_candidates (detect G) (alert_levels df)).
  assert (P : Permutation (sort_reverse cluster_key_ltb cands) cands)
    by apply sort_reverse_perm.
  destruct (cluster_candidates_from (alert_levels df) (detect G) 0)
    as (H1 & _ & H3). cbv zeta in H1, H3. fold (cluster_candidates (detect G)
    (alert_levels df)) in H1, H3. fold cands in H1, H3.
  assert (F : flat_map cluster_locations cands =
              concat (filter (fun c => 1 <? length c) (detect G))).
  { now rewrite flat_map_concat_map, H1. }
  assert (PF : Permutation
    (flat_map cluster_locations (sort_reverse cluster_key_ltb cands))
    (flat_map cluster_locations cands)).
  { now apply Permutation_flat_map. }
  split.
  - eapply Permutation_NoDup; [|exact H3].
    apply Permutation_map. symmetry. exact P.
  - intro ND. split.
    + eapply Permutation_NoDup; [symmetry; exact PF|].
      rewrite F. now apply NoDup_flat_map_filter.
    + intro Hincl.
      rewrite (Permutation_length PF), (Permutation_length P), F.
      destruct (concat_filter_length (detect G)) as [L1 L2].
      split.
      * rewrite <- (length_map cluster_locations), H1. exact L1.
      * eapply Nat.le_trans; [exact L2|].
        now apply NoDup_incl_length.
Qed.

Lemma X12_witness :
  exists res,
    analyze_disaster_spread (fun _ => [[Some "A"; Some "B"]; [Some "C"]])
      scenario_graph scenario_df = Some res /\
    length (res_disaster_clusters res) = 1 /\
    NoDup (flat_map cluster_locations (res_disaster_clusters res)).
Proof.
  eexists. split; [reflexivity|]. split; [reflexivity|].
  destruct (X12_clusters_are_disjoint
              (fun _ => [[Some "A"; Some "B"]; [Some "C"]])
              scenario_graph scenario_df _ eq_refl) as [_ H].
  apply H. simpl.
  repeat (constructor; [simpl; intuition discriminate|]). constructor.
Defined.

(** ** Degrees in terms of the frame *)

Lemma neighbours_linked df v :
  Permutation (map fst (neighbors (build_body df) v)) (linked_locations df v).
Proof.
  pose proof (build_body_simple df) as SG.
  destruct (build_body_inv df) as [_ Hn].
  apply NoDup_Permutation.
  - unfold neighbors.
    destruct (dget key_eqb (g_adj (build_body df)) v) as [nb|] eqn:E;
      [|constructor].
    apply (sg_nbrs _ SG v nb E).
  - apply NoDup_filter, unique_NoDup.
  - intro u. fold (adjacent (build_body df) v u).
    rewrite (adjacent_ref _ v u SG).
    unfold linked_locations. rewrite filter_In, <- Hn, andb_true_iff.
    rewrite negb_true_iff, key_eqb_neq.
    destruct (build_body_edges df v u) as [_ He]. unfold has_edge in He.
    split.
    + intros [r Hr].
      destruct (simple_graph_edge_nodes _ _ _ _ SG Hr) as (_ & _ & Hu).
      rewrite Hr in He. destruct (proj1 He eq_refl) as [Hne Hs].
      split; [assumption|]. split; [congruence|].
      destruct (shared_types df v u); [contradiction | reflexivity].
    + intros (_ & Hne & Hs).
      destruct (edge_ref (build_body df) v u) as [r|]; [eauto|].
      assert (F : false = true); [|discriminate].
      apply He. split; [congruence|].
      destruct (shared_types df v u); discriminate.
Qed.



(** ** Lists addressed by position *)

Lemma nset_length {X : Type} (l : list X) i x :
  length (nset l i x) = length l.
Proof.
  revert i. induction l as [|y t IH]; intros [|i]; simpl; auto.
Qed.

Lemma nth_nset {X : Type} (l : list X) i j x d :
  nth j (nset l i x) d =
  if (j =? i) && (i <? length l) then x else nth j l d.
Proof.
  revert i j. induction l as [|y t IH]; intros i j; simpl.
  - destruct i, j; simpl; try reflexivity. now rewrite andb_false_r.
  - destruct i as [|i], j as [|j]; simpl; try reflexivity.
    rewrite IH. reflexivity.
Qed.

Lemma nth_nset_same {X : Type} (l : list X) i x d :
  i < length l -> nth i (nset l i x) d = x.
Proof.
  intro H. rewrite nth_nset, Nat.eqb_refl.
  apply Nat.ltb_lt in H. now rewrite H.
Qed.

Lemma nth_nset_other {X : Type} (l : list X) i j x d :
  j <> i -> nth j (nset l i x) d = nth j l d.
Proof.
  intro H. rewrite nth_nset. apply Nat.eqb_neq in H. now rewrite H.
Qed.

Lemma Forall2_indexed {X Y : Type} (R : X -> Y -> Prop) (dx : X) (dy : Y)
    (a : list X) (b : list Y) :
  length a = length b ->
  (forall c, c < length a -> R (nth c a dx) (nth c b dy)) ->
  Forall2 R a b.
Proof.
  revert b. induction a as [|x a IH]; intros [|y b] L H; simpl in L;
    try discriminate; constructor.
  - apply (H 0). simpl. lia.
  - apply IH; [lia|]. intros c Hc. apply (H (S c)). simpl. lia.
Qed.

Lemma Forall2_at {X Y : Type} (R : X -> Y -> Prop) (dx : X) (dy : Y)
    (a : list X) (b : list Y) :
  Forall2 R a b ->
  forall c, c < length a -> R (nth c a dx) (nth c b dy).
Proof.
  induction 1 as [|x y a b Hxy _ IH]; intros c Hc; simpl in *; [lia|].
  destruct c as [|c]; [assumption|]. apply IH. lia.
Qed.

Lemma in_concat_nth {X : Type} (l : list (list X)) (x : X) :
  In x (concat l) <-> exists c, c < length l /\ In x (nth c l []).
Proof.
  rewrite in_concat. split.
  - intros (p & Hp & Hx). destruct (In_nth l p [] Hp) as (c & Hc & E).
    exists c. rewrite E. auto.
  - intros (c & Hc & Hx). exists (nth c l []). split; [|assumption].
    now apply nth_In.
Qed.

Lemma NoDup_concat_indexed {X : Type} (l : list (list X)) :
  (forall c, c < length l -> NoDup (nth c l [])) ->
  (forall c c' x, c < length l -> c' < length l ->
     In x (nth c l []) -> In x (nth c' l []) -> c = c') ->
  NoDup (concat l).
Proof.
  induction l as [|a t IH]; simpl; intros H1 H2; [constructor|].
  apply NoDup_app.
  - apply (H1 0). lia.
  - apply IH.
    + intros c Hc. apply (H1 (S c)). lia.
    + intros c c' x Hc Hc' Hx Hx'.
      assert (E : S c = S c') by (apply (H2 (S c) (S c') x); auto; lia).
      lia.
  - intros x Hx Hin. apply in_concat_nth in Hin.
    destruct Hin as (c & Hc & Hxc).
    assert (E : 0 = S c) by (apply (H2 0 (S c) x); auto; lia).
    discriminate.
Qed.

Lemma NoDup_concat_parts {X : Type} (l : list (list X)) :
  NoDup (concat l) ->
  (forall c, c < length l -> NoDup (nth c l [])) /\
  (forall c c' x, c < length l -> c' < length l ->
     In x (nth c l []) -> In x (nth c' l []) -> c = c').
Proof.
  induction l as [|a t IH]; simpl; intro ND.
  - split; intros; lia.
  - pose proof (NoDup_app_remove_l _ _ ND) as NDt.
    pose proof (NoDup_app_remove_r _ _ ND) as NDa.
    destruct (IH NDt) as [I1 I2].
    assert (D : forall x, In x a -> ~ In x (concat t)).
    { clear - ND. induction a as [|z a IHa]; simpl in *; [tauto|].
      inversion ND as [|? ? Hz ND']; subst.
      intros x [<-|Hx]; [|eauto].
      intro H. apply Hz. apply in_or_app. now right. }
    split.
    + intros [|c] Hc; [assumption|]. apply I1. lia.
    + intros [|c] [|c'] x Hc Hc' Hx Hx'; try reflexivity.
      * exfalso. apply (D x Hx). apply in_concat_nth. exists c'.
        split; [lia | assumption].
      * exfalso. apply (D x Hx'). apply in_concat_nth. exists c.
        split; [lia | assumption].
      * f_equal. apply (I2 c c' x); auto; lia.
Qed.

Lemma nonempty_true {X : Type} (l : list X) : nonempty l = true <-> l <> [].
Proof. destruct l; simpl; split; congruence. Qed.

Lemma concat_filter_nonempty {X : Type} (l : list (list X)) (x : X) :
  In x (concat (filter nonempty l)) <-> In x (concat l).
Proof.
  rewrite !in_concat. split.
  - intros (p & Hp & Hx). apply filter_In in Hp. exists p. tauto.
  - intros (p & Hp & Hx). exists p. split; [|assumption].
    apply filter_In. split; [assumption|]. destruct p; [contradiction|].
    reflexivity.
Qed.

Lemma Forall2_filter_nonempty {X Y : Type} (R : list X -> list Y -> Prop)
    (a : list (list X)) (b : list (list Y)) :
  Forall2 (fun p q => (p = [] <-> q = []) /\ (q <> [] -> R p q)) a b ->
  Forall2 R (filter nonempty a) (filter nonempty b).
Proof.
  induction 1 as [|p q a b [Hpq HR] _ IH]; simpl; [constructor|].
  destruct p as [|x p], q as [|y q]; simpl.
  - assumption.
  - destruct Hpq as [Hpq _]. now specialize (Hpq eq_refl).
  - destruct Hpq as [_ Hpq]. now specialize (Hpq eq_refl).
  - constructor; [|assumption]. apply HR. discriminate.
Qed.

Lemma lmem_nat_In (u : nat) (s : list nat) :
  lmem Nat.eqb u s = true <-> In u s.
Proof.
  induction s as [|y t IH]; simpl; [split; [discriminate|tauto]|].
  rewrite orb_true_iff, IH, Nat.eqb_eq. intuition congruence.
Qed.

Lemma set_add_nat_In (u x : nat) (s : list nat) :
  In x (set_add Nat.eqb u s) <-> x = u \/ In x s.
Proof.
  unfold set_add. destruct (lmem Nat.eqb u s) eqn:E.
  - apply lmem_nat_In in E. intuition congruence.
  - rewrite in_app_iff. simpl. intuition congruence.
Qed.

Lemma set_add_nat_NoDup (u : nat) (s : list nat) :
  NoDup s -> NoDup (set_add Nat.eqb u s).
Proof.
  intro ND. unfold set_add.
  destruct (lmem Nat.eqb u s) eqn:E; [assumption|].
  apply NoDup_app; [assumption | repeat constructor; auto |].
  intros x Hx [<-|[]]. apply lmem_nat_In in Hx. congruence.
Qed.

Lemma set_add_NoDup (d : cell) (s : list cell) :
  NoDup s -> NoDup (set_add key_eqb d s).
Proof.
  intro ND. unfold set_add. destruct (lmem key_eqb d s) eqn:E; [assumption|].
  apply lmem_not_In in E.
  apply NoDup_app; [assumption | repeat constructor; auto |].
  intros x Hx [<-|[]]. contradiction.
Qed.

Lemma fold_set_add (com : list cell) :
  forall s,
  (NoDup s -> NoDup (fold_left (fun s x => set_add key_eqb x s) com s)) /\
  (forall x, In x (fold_left (fun s x => set_add key_eqb x s) com s) <->
             In x com \/ In x s).
Proof.
  induction com as [|y com IH]; intro s; simpl.
  - split; [auto | tauto].
  - destruct (IH (set_add key_eqb y s)) as [I1 I2]. split.
    + intro ND. apply I1. now apply set_add_NoDup.
    + intro x. rewrite I2, set_add_In. intuition congruence.
Qed.

(** ** One move of the Louvain method *)

Lemma level_inv_fields g st st' :
  lv_node2com st' = lv_node2com st ->
  lv_partition st' = lv_partition st ->
  lv_inner st' = lv_inner st ->
  level_inv g st -> level_inv g st'.
Proof.
  intros E1 E2 E3 [A B C D]. split; rewrite ?E1, ?E2, ?E3; assumption.
Qed.

Lemma relocate_inv g st u best Stot2 :
  members_ok g -> level_inv g st ->
  u < length (w_members g) -> best < length (w_members g) ->
  best <> nth u (lv_node2com st) 0 ->
  level_inv g (relocate g st u best Stot2).
Proof.
  intros [_ Mdis _] [[A1 A2] [B1 B2] C D] Hu Hb Hne.
  set (n := length (w_members g)) in *.
  set (com_u := nth u (lv_node2com st) 0) in *.
  assert (Hcu : com_u < n) by (apply A2; assumption).
  assert (N2C : forall u', nth u' (nset (lv_node2com st) u best) 0 =
                           if u' =? u then best else nth u' (lv_node2com st) 0).
  { intro u'. rewrite nth_nset. rewrite A1.
    apply Nat.ltb_lt in Hu. now rewrite Hu, andb_true_r. }
  unfold relocate. fold com_u. fold (members g u).
  split; cbn [lv_node2com lv_partition lv_inner].
  - split; [now rewrite nset_length|].
    intros u' Hu'. rewrite N2C. destruct (u' =? u); auto.
  - rewrite !nset_length. auto.
  - intros c Hc u'. rewrite N2C.
    rewrite nth_nset, nset_length, B2.
    apply Nat.ltb_lt in Hb as Hb'. rewrite Hb', andb_true_r.
    destruct (Nat.eqb_spec c best) as [->|Hcb].
    + rewrite set_add_nat_In, nth_nset_other by assumption.
      rewrite C by assumption.
      destruct (Nat.eqb_spec u' u) as [->|Hu'].
      * intuition.
      * intuition congruence.
    + rewrite nth_nset, B2.
      apply Nat.ltb_lt in Hcu as Hcu'. rewrite Hcu', andb_true_r.
      destruct (Nat.eqb_spec c com_u) as [->|Hcc].
      * rewrite filter_In, C by assumption.
        rewrite negb_true_iff, Nat.eqb_neq.
        destruct (Nat.eqb_spec u' u) as [->|Hu'].
        -- split; [tauto|]. intros [_ E]. congruence.
        -- tauto.
      * rewrite C by assumption.
        destruct (Nat.eqb_spec u' u) as [->|Hu'].
        -- fold com_u. split; intros [H1 H2]; congruence.
        -- tauto.
  - intros c Hc.
    rewrite nth_nset, nset_length, B1.
    apply Nat.ltb_lt in Hb as Hb'. rewrite Hb', andb_true_r.
    destruct (Nat.eqb_spec c best) as [->|Hcb].
    + rewrite nth_nset_other by assumption.
      destruct (D best Hb) as [ND Hin].
      destruct (fold_set_add (members g u) (nth best (lv_partition st) []))
        as [F1 F2].
      split; [now apply F1|].
      intro x. rewrite F2, Hin. split.
      * intros [Hx|(u' & Hu' & E & Hx)].
        -- exists u. rewrite N2C, Nat.eqb_refl. auto.
        -- exists u'. rewrite N2C.
           destruct (Nat.eqb_spec u' u) as [->|_]; auto.
      * intros (u' & Hu' & E & Hx). rewrite N2C in E.
        destruct (Nat.eqb_spec u' u) as [->|_]; [now left|].
        right. eauto.
    + rewrite nth_nset, B1.
      apply Nat.ltb_lt in Hcu as Hcu'. rewrite Hcu', andb_true_r.
      destruct (Nat.eqb_spec c com_u) as [->|Hcc].
      * destruct (D com_u Hcu) as [ND Hin].
        split; [now apply NoDup_filter|].
        intro x. rewrite filter_In, Hin, negb_true_iff, lmem_not_In.
        split.
        -- intros [(u' & Hu' & E & Hx) Hnot]. exists u'. rewrite N2C.
           destruct (Nat.eqb_spec u' u) as [->|_]; [contradiction|]. auto.
        -- intros (u' & Hu' & E & Hx). rewrite N2C in E.
           destruct (Nat.eqb_spec u' u) as [->|Hneq]; [congruence|].
           split; [eauto|]. intro Hxu. apply Hneq.
           now apply (Mdis u' u x).
      * destruct (D c Hc) as [ND Hin]. split; [assumption|].
        intro x. rewrite Hin. split.
        -- intros (u' & Hu' & E & Hx). exists u'. rewrite N2C.
           destruct (Nat.eqb_spec u' u) as [->|_]; [|auto].
           fold com_u in E. congruence.
        -- intros (u' & Hu' & E & Hx). rewrite N2C in E.
           destruct (Nat.eqb_spec u' u) as [->|_]; [congruence|]. eauto.
Qed.

Lemma wset_keys (d : list (nat * Q)) k v k' :
  In k' (map fst (wset d k v)) -> k' = k \/ In k' (map fst d).
Proof.
  induction d as [|[k0 v0] t IH]; simpl.
  - intros [<-|[]]. now left.
  - destruct (k =? k0) eqn:E; simpl.
    + intros [<-|H]; auto.
    + intros [<-|H]; auto. destruct (IH H); auto.
Qed.

Lemma neighbor_weights_keys nbrs node2com c :
  In c (map fst (neighbor_weights nbrs node2com)) ->
  exists j, c = nth j node2com 0.
Proof.
  unfold neighbor_weights.
  assert (K : forall l acc,
    (forall c, In c (map fst acc) -> exists j, c = nth j node2com 0) ->
    forall c, In c (map fst (fold_left (fun weights (p : nat * Q) =>
        let c := nth (fst p) node2com 0 in
        wset weights c (wgetd weights c + snd p)%Q) l acc)) ->
    exists j, c = nth j node2com 0).
  { induction l as [|p l IH]; intros acc Hacc c0 Hc; simpl in Hc; [auto|].
    apply (IH _) in Hc; [assumption|].
    intros c1 H1. apply wset_keys in H1. destruct H1 as [->|H1]; eauto. }
  apply K. intros c0 [].
Qed.

Lemma best_choice (gain : nat * Q -> Q) (l : list (nat * Q)) :
  forall b,
  snd (fold_left (fun (b : Q * nat) p =>
         if Qltb (fst b) (gain p) then (gain p, fst p) else b) l b) = snd b \/
  In (snd (fold_left (fun (b : Q * nat) p =>
         if Qltb (fst b) (gain p) then (gain p, fst p) else b) l b))
     (map fst l).
Proof.
  induction l as [|p l IH]; intro b; simpl; [now left|].
  destruct (IH (if Qltb (fst b) (gain p) then (gain p, fst p) else b))
    as [E|H].
  - rewrite E. destruct (Qltb (fst b) (gain p)); simpl; auto.
  - auto.
Qed.

Lemma move_node_cases g m st u :
  exists best Stot2,
    (exists j, best = nth j (lv_node2com st) 0) /\
    move_node g m st u =
    if best =? nth u (lv_node2com st) 0 then
      mkLevel (lv_node2com st) Stot2 (lv_partition st) (lv_inner st)
              (lv_improvement st) (lv_nb_moves st)
    else relocate g st u best Stot2.
Proof.
  unfold move_node. cbv zeta.
  match goal with
  | |- context [fold_left ?f ?l (0%Q, ?c)] =>
      set (best := fold_left f l (0%Q, c)) in *;
      assert (Hb : snd best = c \/ In (snd best) (map fst l))
  end.
  { unfold best.
    match goal with
    | |- context [fold_left (fun b p => if Qltb (fst b) (@?gain p) then _ else b)
                    ?l ?b0] =>
        exact (best_choice gain l b0)
    end. }
  match goal with
  | |- context [nset ?s (snd best) (nth (snd best) ?s 0 + ?d)%Q] =>
      exists (snd best), (nset s (snd best) (nth (snd best) s 0 + d)%Q)
  end.
  split; [|reflexivity].
  destruct Hb as [E|H]; [eauto|].
  match type of H with
  | In _ (map fst (match ?o with Some _ => ?a | None => ?a ++ _ end)) =>
      assert (H' : snd best = nth u (lv_node2com st) 0 \/
                   In (snd best) (map fst a))
  end.
  { match type of H with
    | In _ (map fst (match ?o with Some _ => _ | None => _ end)) =>
        destruct o
    end; [now right|].
    rewrite map_app in H. apply in_app_or in H.
    destruct H as [H|[H|[]]]; [now right | left; now symmetry]. }
  destruct H' as [E|H']; [eauto|].
  now apply neighbor_weights_keys in H'.
Qed.

Lemma move_node_inv g m st u :
  members_ok g -> u < length (w_members g) ->
  level_inv g st -> level_inv g (move_node g m st u).
Proof.
  intros M Hu I.
  destruct (move_node_cases g m st u) as (best & Stot2 & [j Hj] & ->).
  destruct (Nat.eqb_spec best (nth u (lv_node2com st) 0)) as [E|E].
  - revert I. now apply level_inv_fields.
  - apply relocate_inv; try assumption.
    subst best. destruct I as [[A1 A2] _ _ _].
    destruct (Nat.lt_ge_cases j (length (w_members g))) as [L|L].
    + now apply A2.
    + rewrite nth_overflow by lia. lia.
Qed.

Lemma sweep_inv fuel g m rand_nodes :
  members_ok g ->
  (forall u, In u rand_nodes -> u < length (w_members g)) ->
  forall st st',
  level_inv g st ->
  sweep fuel g m rand_nodes st = Some st' ->
  level_inv g st'.
Proof.
  intros M Hr. induction fuel as [|fuel IH]; intros st st' I H; simpl in H;
    [discriminate|].
  set (st0 := mkLevel (lv_node2com st) (lv_Stot st) (lv_partition st)
                      (lv_inner st) (lv_improvement st) 0) in *.
  assert (I0 : level_inv g st0) by (revert I; now apply level_inv_fields).
  assert (K : forall l s, (forall u, In u l -> u < length (w_members g)) ->
    level_inv g s -> level_inv g (fold_left (move_node g m) l s)).
  { induction l as [|u l IHl]; intros s Hl Is; simpl; [assumption|].
    apply IHl; [intros; apply Hl; now right|].
    apply move_node_inv; auto. apply Hl. now left. }
  specialize (K rand_nodes st0 Hr I0).
  destruct (0 <? lv_nb_moves (fold_left (move_node g m) rand_nodes st0)).
  - eapply IH; eassumption.
  - inversion H. now subst.
Qed.

(** ** The levels of the Louvain method *)

Lemma level_pre_members_ok V g P : level_pre V g P -> members_ok g.
Proof.
  intros [Hadj (ND & Hcov & Hne) HF].
  pose proof (Forall2_length HF) as HL.
  pose proof (Forall2_at _ [] [] _ _ HF) as Hat.
  destruct (NoDup_concat_parts _ ND) as [_ Hdis].
  split; [assumption| |].
  - intros u u' x Hu Hu' Hx Hx'. rewrite <- HL in Hu, Hu'.
    apply (Hdis u u' x); auto; [now apply Hat | now apply Hat].
  - intros u Hu E. rewrite <- HL in Hu.
    assert (Hp : nth u P [] <> []).
    { rewrite Forall_forall in Hne. apply Hne. now apply nth_In. }
    destruct (nth u P []) as [|x t] eqn:Ep; [contradiction|].
    assert (Hx : In x (members g u)).
    { unfold members. apply Hat; [assumption|]. rewrite Ep. now left. }
    rewrite E in Hx. contradiction.
Qed.

Lemma level_pre_cover V g P x :
  level_pre V g P ->
  ((exists u, u < length (w_members g) /\ In x (members g u)) <-> In x V).
Proof.
  intros [_ (_ & Hcov & _) HF].
  pose proof (Forall2_length HF) as HL.
  pose proof (Forall2_at _ [] [] _ _ HF) as Hat.
  rewrite <- Hcov, in_concat_nth. split.
  - intros (u & Hu & Hx). exists u. rewrite HL. split; [assumption|].
    apply Hat; [lia | exact Hx].
  - intros (u & Hu & Hx). exists u. rewrite <- HL. split; [assumption|].
    apply Hat; assumption.
Qed.

Lemma nth_singletons (n c : nat) :
  c < n -> nth c (map (fun u => [u]) (seq 0 n)) [] = [c].
Proof.
  intro H. rewrite (nth_indep _ [] [0]) by (now rewrite length_map, length_seq).
  rewrite (map_nth (fun u => [u]) (seq 0 n) 0 c).
  now rewrite seq_nth.
Qed.

Lemma level_init V g P :
  level_pre V g P ->
  level_inv g
    (mkLevel (seq 0 (length (w_adj g))) (w_degrees g) P
             (map (fun u => [u]) (seq 0 (length (w_adj g)))) false 1).
Proof.
  intros [Hadj (ND & Hcov & Hne) HF]. rewrite Hadj.
  pose proof (Forall2_length HF) as HL.
  pose proof (Forall2_at _ [] [] _ _ HF) as Hat.
  destruct (NoDup_concat_parts _ ND) as [Hnd _].
  split; cbn [lv_node2com lv_partition lv_inner].
  - rewrite length_seq. split; [reflexivity|].
    intros u Hu. now rewrite seq_nth.
  - now rewrite length_map, length_seq.
  - intros c Hc u. rewrite nth_singletons by assumption. simpl. split.
    + intros [<-|[]]. split; [assumption | now rewrite seq_nth].
    + intros [Hu E]. rewrite seq_nth in E by assumption. now left.
  - intros c Hc. rewrite <- HL in Hc. split; [now apply Hnd|].
    intro x. rewrite (Hat c Hc x). fold (members g c). split.
    + intro Hx. exists c. rewrite seq_nth by lia. split; [lia | auto].
    + intros (u & Hu & E & Hx). rewrite seq_nth in E by assumption.
      now subst.
Qed.

Lemma level_result V g st :
  members_ok g ->
  (forall x, (exists u, u < length (w_members g) /\ In x (members g u)) <->
             In x V) ->
  level_inv g st ->
  partition_of V (filter nonempty (lv_partition st)) /\
  Forall2 (linked g) (filter nonempty (lv_partition st))
          (filter nonempty (lv_inner st)).
Proof.
  intros [_ Mdis Mne] Hcov [[A1 A2] [B1 B2] C D].
  set (n := length (w_members g)) in *.
  split; [split; [|split]|].
  - apply NoDup_flat_map_filter. apply NoDup_concat_indexed.
    + intros c Hc. rewrite B1 in Hc. apply (D c Hc).
    + intros c c' x Hc Hc' Hx Hx'. rewrite B1 in Hc, Hc'.
      apply (D c Hc) in Hx. apply (D c' Hc') in Hx'.
      destruct Hx as (u & Hu & E & Hxu), Hx' as (u' & Hu' & E' & Hxu').
      assert (u = u') by now apply (Mdis u u' x).
      congruence.
  - intro x. rewrite concat_filter_nonempty, in_concat_nth, <- Hcov. split.
    + intros (c & Hc & Hx). rewrite B1 in Hc. apply (D c Hc) in Hx.
      destruct Hx as (u & Hu & _ & Hx). eauto.
    + intros (u & Hu & Hx). exists (nth u (lv_node2com st) 0).
      rewrite B1. split; [now apply A2|].
      apply (D _ (A2 u Hu)). eauto.
  - apply Forall_forall. intros p Hp. apply filter_In in Hp.
    now apply nonempty_true.
  - apply Forall2_filter_nonempty.
    apply (Forall2_indexed _ [] []); [congruence|].
    intros c Hc. rewrite B1 in Hc.
    destruct (D c Hc) as [_ Dc]. pose proof (C c Hc) as Cc.
    split; [split|].
    + intro E. destruct (nth c (lv_inner st) []) as [|u t] eqn:Ei;
        [reflexivity|]. exfalso.
      assert (Hu : In u (u :: t)) by now left.
      apply Cc in Hu. destruct Hu as [Hu Eu].
      destruct (members g u) as [|x m] eqn:Em; [now apply (Mne u Hu)|].
      assert (Hx : In x (nth c (lv_partition st) [])).
      { apply Dc. exists u. rewrite Em. simpl. auto. }
      rewrite E in Hx. contradiction.
    + intro E. destruct (nth c (lv_partition st) []) as [|x t] eqn:Ep;
        [reflexivity|]. exfalso.
      assert (Hx : In x (x :: t)) by now left.
      apply Dc in Hx. destruct Hx as (u & Hu & Eu & _).
      assert (Hin : In u (nth c (lv_inner st) [])) by (apply Cc; auto).
      rewrite E in Hin. contradiction.
    + intro Hne. split; [assumption|]. split.
      * intros u Hu. now apply Cc in Hu.
      * intro x. rewrite Dc. split.
        -- intros (u & Hu & Eu & Hx). exists u. split; [|assumption].
           apply Cc. auto.
        -- intros (u & Hu & Hx). apply Cc in Hu. destruct Hu. eauto.
Qed.

Lemma one_level_post V fuel rand_nodes g m P P' I' imp :
  level_pre V g P ->
  (forall u, In u rand_nodes -> u < length (w_adj g)) ->
  one_level fuel rand_nodes g m P = Some (P', I', imp) ->
  partition_of V P' /\ Forall2 (linked g) P' I'.
Proof.
  intros Pre Hr H. unfold one_level in H.
  destruct (sweep fuel g m rand_nodes _) as [st|] eqn:Es; [|discriminate].
  inversion H; subst. clear H.
  pose proof (level_pre_members_ok V g P Pre) as M.
  apply (level_result V g st M).
  - intro x. now apply (level_pre_cover V g P).
  - eapply sweep_inv; [exact M | | apply (level_init V g P Pre) | exact Es].
    rewrite <- (lp_adj _ _ _ Pre). exact Hr.
Qed.

Lemma fold_left_length {X E : Type} (f : list X -> E -> list X) (l : list E) :
  (forall a e, length (f a e) = length a) ->
  forall a, length (fold_left f l a) = length a.
Proof.
  intro H. induction l as [|e l IH]; intro a; simpl; [reflexivity|].
  now rewrite IH, H.
Qed.

Lemma w_add_edge_length adj u v w :
  length (w_add_edge adj u v w) = length adj.
Proof. unfold w_add_edge. now rewrite !nset_length. Qed.

Lemma gen_members_In g (part : list nat) :
  forall acc x,
  In x (fold_left (fun nodes node =>
          fold_left (fun s x => set_add key_eqb x s)
                    (nth node (w_members g) []) nodes) part acc) <->
  In x acc \/ exists u, In u part /\ In x (members g u).
Proof.
  induction part as [|u part IH]; intros acc x; simpl.
  - split; [auto | intros [H|(u & [] & _)]; assumption].
  - rewrite IH. destruct (fold_set_add (nth u (w_members g) []) acc)
      as [_ F]. rewrite F. fold (members g u). split.
    + intros [[H|H]|(u' & Hu' & Hx)]; eauto.
    + intros [H|(u' & [<-|Hu'] & Hx)]; eauto.
Qed.

Lemma gen_members_linked g P I :
  Forall2 (linked g) P I ->
  Forall2 (fun part mem => forall x, In x part <-> In x mem) P
    (w_members (gen_graph g I)).
Proof.
  intro HF. unfold gen_graph. cbn [w_members].
  induction HF as [|part inn P' I' (_ & _ & Hl) _ IH]; simpl; constructor.
  - intro x. rewrite Hl, gen_members_In. simpl. tauto.
  - exact IH.
Qed.

Lemma gen_graph_pre V g P I :
  partition_of V P -> Forall2 (linked g) P I ->
  level_pre V (gen_graph g I) P.
Proof.
  intros HP HF. split; [|assumption|now apply gen_members_linked].
  unfold gen_graph. cbn [w_adj w_members].
  rewrite fold_left_length.
  - now rewrite !length_map.
  - intros a [[n1 n2] wt]. apply w_add_edge_length.
Qed.

Lemma louvain_loop_partition V rng m :
  (forall level n u, In u (rng level n) -> u < n) ->
  forall fuel level g mod_ P I cs,
  partition_of V P -> Forall2 (linked g) P I ->
  louvain_loop fuel rng level g m mod_ P I = Some cs ->
  partition_of V cs.
Proof.
  intro Hr. induction fuel as [|fuel IH];
    intros level g mod_ P I cs HP HF H; simpl in H; [discriminate|].
  destruct (Qle_bool (modularity g I - mod_) louvain_threshold).
  { inversion H. now subst. }
  pose proof (gen_graph_pre V g P I HP HF) as Pre.
  destruct (one_level fuel _ (gen_graph g I) m P)
    as [[[P' I'] imp]|] eqn:E1; [|discriminate].
  destruct (one_level_post V _ _ _ _ _ _ _ _ Pre (Hr _ _) E1) as [HP' HF'].
  destruct imp.
  - eapply IH; eassumption.
  - inversion H. now subst.
Qed.

Lemma concat_singletons {X : Type} (l : list X) :
  concat (map (fun u => [u]) l) = l.
Proof. induction l as [|x l IH]; simpl; congruence. Qed.

Lemma singletons_partition (V : list node) :
  NoDup V -> partition_of V (map (fun u => [u]) V).
Proof.
  intro ND. unfold partition_of. rewrite concat_singletons.
  split; [assumption|]. split; [tauto|].
  apply Forall_forall. intros c Hc. apply in_map_iff in Hc.
  destruct Hc as (u & <- & _). discriminate.
Qed.

Lemma working_graph_pre G :
  NoDup (g_node G) ->
  level_pre (g_node G) (working_graph G) (map (fun u => [u]) (g_node G)).
Proof.
  intro ND. split.
  - unfold working_graph. cbn [w_adj w_members].
    rewrite fold_left_length.
    + now rewrite !length_map.
    + intros a [[u v] data]. apply w_add_edge_length.
  - now apply singletons_partition.
  - unfold working_graph. cbn [w_members].
    clear ND. induction (g_node G) as [|u l IH]; simpl; constructor;
      [tauto | exact IH].
Qed.

Lemma louvain_partition fuel rng G cs :
  NoDup (g_node G) ->
  (forall level n u, In u (rng level n) -> u < n) ->
  louvain_communities fuel rng G = Some cs ->
  partition_of (g_node G) cs.
Proof.
  intros ND Hr H. unfold louvain_communities in H.
  destruct (forallb _ (g_adj G)).
  { inversion H. now apply singletons_partition. }
  pose proof (working_graph_pre G ND) as Pre.
  destruct (one_level fuel _ (working_graph G) _ _)
    as [[[P1 I1] imp]|] eqn:E1; [|discriminate].
  destruct (one_level_post _ _ _ _ _ _ _ _ _ Pre (Hr _ _) E1) as [HP HF].
  eapply louvain_loop_partition; eassumption.
Qed.

(** ** What the Louvain method returns *)

(** X14. Whatever order the shuffles leave the nodes in, and whenever the
    loops end within the rounds allowed, [louvain_communities] returns a
    partition of the nodes of the graph: the communities are non-empty
    and pairwise disjoint, no node occurs twice in one, and together they
    hold exactly the nodes. *)
Theorem X14_louvain_returns_a_partition
    (fuel : nat) (rng : nat -> nat -> list nat) (G : Graph)
    (cs : list (list node)) :
  NoDup (g_node G) ->
  (forall level n, Permutation (rng level n) (seq 0 n)) ->
  louvain_communities fuel rng G = Some cs ->
  NoDup (concat cs) /\
  (forall x, In x (concat cs) <-> In x (g_node G)) /\
  (forall c, In c cs -> c <> []) /\
  length cs <= length (g_node G).
Proof.
  intros ND Hr H.
  destruct (louvain_partition fuel rng G cs ND) as (H1 & H2 & H3);
    [|assumption|].
  { intros level n u Hu. apply (Permutation_in _ (Hr level n)) in Hu.
    apply in_seq in Hu. lia. }
  split; [assumption|]. split; [assumption|].
  rewrite Forall_forall in H3. split; [assumption|].
  assert (L : length cs <= length (concat cs)).
  { clear - H3. induction cs as [|c cs IH]; simpl; [lia|].
    rewrite length_app.
    assert (c <> []) by (apply H3; now left).
    assert (length cs <= length (concat cs))
      by (apply IH; intros; apply H3; now right).
    destruct c; [contradiction | simpl; lia]. }
  eapply Nat.le_trans; [exact L|].
  apply NoDup_incl_length; [assumption|].
  intros x Hx. now apply H2.
Qed.

Lemma X14_witness :
  exists cs,
    louvain_communities 10 order_a (build_body path5_df) = Some cs /\
    length cs = 2 /\
    NoDup (concat cs).
Proof.
  eexists. split; [vm_compute; reflexivity|]. split; [reflexivity|].
  refine (proj1 (X14_louvain_returns_a_partition 10 order_a
                   (build_body path5_df) _ _ _ _)).
  - apply (sg_nodup _ (build_body_simple path5_df)).
  - intros level n. apply Permutation_refl.
  - vm_compute. reflexivity.
Defined.

Lemma sorted_clusters_locations communities levels :
  Permutation
    (flat_map cluster_locations
       (sort_reverse cluster_key_ltb (cluster_candidates communities levels)))
    (concat (filter (fun c => 1 <? length c) communities)) /\
  length (sort_reverse cluster_key_ltb (cluster_candidates communities levels))
    = length (filter (fun c => 1 <? length c) communities).
Proof.
  destruct (cluster_candidates_from levels communities 0) as (H1 & _ & _).
  cbv zeta in H1. fold (cluster_candidates communities levels) in H1.
  pose proof (sort_reverse_perm _ cluster_key_ltb
                (cluster_candidates communities levels)) as P.
  split.
  - rewrite <- H1, <- flat_map_concat_map. now apply Permutation_flat_map.
  - rewrite (Permutation_length P), <- (length_map cluster_locations), H1.
    reflexivity.
Qed.

(** X15. In a report whose communities come from a run of the Louvain
    method on the built graph, no location belongs to two clusters; every
    clustered location is a location of the frame; and there are at most
    half as many clusters as locations. *)
Theorem X15_report_clusters_of_louvain
    (fuel : nat) (rng : nat -> nat -> list nat) (now : Z) (df : DataFrame)
    (G : Graph) (cs : list (list node)) (r : Report) :
  (forall level n, Permutation (rng level n) (seq 0 n)) ->
  build_location_graph df = Some G ->
  louvain_communities fuel rng G = Some cs ->
  generate_link_analysis_report (fun _ => cs) now df = Some (Generated r) ->
  NoDup (flat_map cluster_locations (disaster_clusters r)) /\
  (forall c x, In c (disaster_clusters r) -> In x (cluster_locations c) ->
     In x (map location (rows df))) /\
  2 * length (disaster_clusters r) <= locations_analyzed r.
Proof.
  intros Hr HG HL H. apply build_location_graph_Some in HG. subst G.
  apply generate_Generated in H. destruct H as (res & _ & HA & ->).
  apply analyze_Some in HA. subst res.
  cbn [disaster_clusters res_disaster_clusters locations_analyzed].
  destruct (build_body_inv df) as [[SG _] Hn].
  destruct (louvain_partition fuel rng _ cs (sg_nodup _ SG)) as (H1 & H2 & _);
    [|assumption|].
  { intros level n u Hu. apply (Permutation_in _ (Hr level n)) in Hu.
    apply in_seq in Hu. lia. }
  destruct (sorted_clusters_locations cs (alert_levels df)) as [P L].
  destruct (concat_filter_length cs) as [L1 L2].
  split; [|split].
  - eapply Permutation_NoDup; [symmetry; exact P|].
    now apply NoDup_flat_map_filter.
  - intros c x Hc Hx.
    assert (Hin : In x (flat_map cluster_locations
      (sort_reverse cluster_key_ltb (cluster_candidates cs (alert_levels df))))).
    { apply in_flat_map. eauto. }
    apply (Permutation_in _ P) in Hin.
    assert (Hcs : In x (concat cs)).
    { apply in_concat in Hin. destruct Hin as (p & Hp & Hxp).
      apply filter_In in Hp. apply in_concat. exists p. tauto. }
    apply H2 in Hcs. rewrite Hn in Hcs.
    exact (proj1 (unique_In _ _) Hcs).
  - rewrite L, <- Hn.
    eapply Nat.le_trans; [exact L1|]. eapply Nat.le_trans; [exact L2|].
    apply NoDup_incl_length; [assumption|].
    intros x Hx. now apply H2.
Qed.

Lemma X15_witness :
  exists cs r,
    louvain_communities 10 order_a (build_body path5_df) = Some cs /\
    generate_link_analysis_report (fun _ => cs) 0 path5_df =
      Some (Generated r) /\
    length (disaster_clusters r) = 2 /\
    NoDup (flat_map cluster_locations (disaster_clusters r)).
Proof.
  do 2 eexists. split; [vm_compute; reflexivity|].
  split; [vm_compute; reflexivity|]. split; [reflexivity|].
  refine (proj1 (X15_report_clusters_of_louvain 10 order_a 0 path5_df
                   (build_body path5_df) _ _ _ eq_refl _ _)).
  - intros level n. apply Permutation_refl.
  - vm_compute. reflexivity.
  - vm_compute. reflexivity.
Defined.

(** X16. When no disaster type is recorded for two different locations,
    the Louvain method returns every location as a community of its own,
    whatever the shuffle and the number of rounds allowed, and the report
    has no cluster and no spread path. *)
Theorem X16_no_shared_types_no_clusters
    (fuel : nat) (rng : nat -> nat -> list nat) (now : Z) (df : DataFrame)
    (G : Graph) :
  build_location_graph df = Some G ->
  (forall u v, u <> v -> shared_types df u v = []) ->
  louvain_communities fuel rng G = Some (map (fun u => [u]) (g_node G)) /\
  forall cs r,
    louvain_communities fuel rng G = Some cs ->
    generate_link_analysis_report (fun _ => cs) now df = Some (Generated r) ->
    disaster_clusters r = [] /\ potential_spread_paths r = [].
Proof.
  intros HG Hs. apply build_location_graph_Some in HG. subst G.
  destruct (no_shared_types_no_edges df Hs) as (_ & B & E).
  assert (HL : louvain_communities fuel rng (build_body df) =
               Some (map (fun u => [u]) (g_node (build_body df)))).
  { unfold louvain_communities.
    assert (F : forallb (fun a : node * list (node * nat) =>
                  match snd a with [] => true | _ => false end)
                  (g_adj (build_body df)) = true).
    { apply forallb_forall. intros [n nb] Hin. simpl.
      now rewrite (B n nb Hin). }
    now rewrite F. }
  split; [exact HL|].
  intros cs r Hcs H. rewrite HL in Hcs. inversion Hcs. subst cs. clear Hcs.
  apply generate_Generated in H. destruct H as (res & _ & HA & ->).
  apply analyze_Some in HA. subst res.
  cbn [disaster_clusters res_disaster_clusters potential_spread_paths
       res_potential_spread_paths].
  split.
  - destruct (sorted_clusters_locations
                (map (fun u => [u]) (g_node (build_body df)))
                (alert_levels df)) as [_ L].
    assert (Z : filter (fun c : list node => 1 <? length c)
                  (map (fun u => [u]) (g_node (build_body df))) = []).
    { clear. induction (g_node (build_body df)) as [|u l IH]; simpl; auto. }
    rewrite Z in L. now apply length_zero_iff_nil in L.
  - unfold path_candidates. rewrite E. reflexivity.
Qed.

Lemma X16_witness :
  louvain_communities 0 order_a (build_body separate_df) =
    Some [[Some "A"]; [Some "B"]].
Proof.
  refine (proj1 (X16_no_shared_types_no_clusters 0 order_a 0 separate_df
                   (build_body separate_df) eq_refl _)).
  intros u v Hne. unfold shared_types, has_record, separate_df, record.
  cbn [rows map disaster_type location unique unique_from lmem existsb
       filter is_some].
  change (key_eqb (Some "earthquake") (Some "flood")) with false.
  cbn [orb negb filter unique_from lmem existsb is_some andb].
  key_dec (Some "A") u; key_dec (Some "B") u; key_dec (Some "A") v;
    key_dec (Some "B") v; try congruence; reflexivity.
Defined.

(** ** Ties in the sorted lists *)

Lemma cluster_ids_increasing (levels : list (cell * fval))
    (communities : list (list node)) :
  forall k,
  let cs :=
    flat_map (fun ic : nat * list node =>
        let (i, community_list) := ic in
        if 1 <? length community_list then
          [mkCluster i community_list (length community_list)
             (np_mean (map (member_alert levels) community_list))]
        else [])
      (enumerate_from k communities) in
  StronglySorted lt (map cluster_id cs) /\
  Forall (fun i => k <= i) (map cluster_id cs).
Proof.
  induction communities as [|c t IH]; intro k; cbv zeta; simpl.
  - split; constructor.
  - destruct (IH (S k)) as (H1 & H2). cbv zeta in H1, H2.
    assert (H3 : Forall (fun i => k <= i) (map cluster_id
      (flat_map (fun ic : nat * list node =>
        let (i, community_list) := ic in
        if 1 <? length community_list then
          [mkCluster i community_list (length community_list)
             (np_mean (map (member_alert levels) community_list))]
        else [])
      (enumerate_from (S k) t)))).
    { revert H2. apply Forall_impl. intros; lia. }
    destruct (1 <? length c); simpl.
    + split.
      * constructor; [assumption|]. revert H2. apply Forall_impl.
        intros; lia.
      * constructor; [lia | assumption].
    + split; assumption.
Qed.

Lemma StronglySorted_map_filter {X : Type} (f : X -> nat) (p : X -> bool)
    (l : list X) :
  StronglySorted lt (map f l) -> StronglySorted lt (map f (filter p l)).
Proof.
  induction l as [|x t IH]; simpl; intro S; [constructor|].
  inversion S as [|? ? St Hx]; subst.
  destruct (p x); simpl; [|now apply IH].
  constructor; [now apply IH|].
  apply Forall_forall. intros i Hi. rewrite Forall_forall in Hx.
  apply Hx. apply in_map_iff in Hi. destruct Hi as (y & <- & Hy).
  apply filter_In in Hy. apply in_map. tauto.
Qed.

(** X17. Ties keep their order, as [list.sort] is stable also with
    [reverse=True]: spread paths of equal betweenness stand in the order
    in which [G.edges()] lists their edges; and when no cluster average is
    NaN, which is the case when every record has an alert level, clusters
    of equal size and equal average stand in the order of the communities,
    so by increasing id.  (With a NaN average the comparisons of the sort
    contradict each other, and nothing is said of the order.) *)
Theorem X17_ties_keep_their_order
    (P : Platform) (R : Run) (G : Graph) (df : DataFrame) (res : Results) :
  analyze_disaster_spread_fp P R G df = Some res ->
  let candidates :=
    cluster_candidates_fp P (run_detect R G) (alert_levels_fp P df) in
  (forall q,
     filter (fun p => Qeq_bool (path_betweenness p) q)
            (res_potential_spread_paths res) =
     filter (fun p => Qeq_bool (path_betweenness p) q)
            (map (path_entry_fp P R (betweenness_centrality_fp P G))
               (filter (fun e => Qltb float_0_1
                          (edge_score_fp P (betweenness_centrality_fp P G) e))
                       (edges G)))) /\
  (has_alert_levels df = true -> averages_are_numbers candidates = true) /\
  (averages_are_numbers candidates = true ->
   forall k a,
     filter (same_key k a) (res_disaster_clusters res) =
     filter (same_key k a) candidates /\
     StronglySorted lt
       (map cluster_id (filter (same_key k a) (res_disaster_clusters res)))).
Proof.
  intro H. apply analyze_fp_Some in H. destruct H as [_ ->].
  cbv zeta. simpl. split; [|split].
  - intro q. rewrite <- path_candidates_fp_map. apply key_sort_stable.
  - intro Ha. apply averages_are_numbers_Forall.
    now apply cluster_candidates_fp_numeric.
  - intros Hn k a.
    destruct (sort_clusters_sorted P _ Hn) as [-> _].
    assert (E : filter (same_key k a)
        (sort_reverse cluster_key_ltb
           (cluster_candidates_fp P (run_detect R G) (alert_levels_fp P df))) =
      filter (same_key k a)
        (cluster_candidates_fp P (run_detect R G) (alert_levels_fp P df))).
    { apply sort_reverse_filter. intros x y Hlt Hx.
      unfold same_key in *. apply andb_true_iff in Hx.
      destruct Hx as [Hs Ha]. apply Nat.eqb_eq in Hs.
      destruct (cluster_size y =? k) eqn:Ey; [|reflexivity]. simpl.
      apply Nat.eqb_eq in Ey. unfold cluster_key_ltb in Hlt.
      assert (Es : (cluster_size y =? cluster_size x) = true)
        by (apply Nat.eqb_eq; congruence).
      rewrite Es in Hlt. unfold fval_ltb in Hlt.
      destruct (cluster_avg_alert_level y) as [vy|]; [|discriminate].
      destruct (cluster_avg_alert_level x) as [vx|]; [|discriminate].
      destruct a as [va|]; [|reflexivity].
      apply Qltb_lt in Hlt. apply Qeq_bool_iff in Ha.
      destruct (Qeq_bool vy va) eqn:Ev; [|reflexivity].
      apply Qeq_bool_iff in Ev. rewrite Ev, Ha in Hlt.
      exfalso. now apply (Qlt_irrefl va). }
    split; [exact E|]. rewrite E.
    apply StronglySorted_map_filter.
    apply (cluster_ids_increasing_fp P (alert_levels_fp P df)
             (run_detect R G) 0).
Qed.

Lemma X17_witness :
  exists res,
    analyze_disaster_spread_fp binary64
      (plain_run (fun _ => [[Some "E"; Some "F"]; [Some "A"; Some "B"];
                            [Some "C"; Some "D"]]) 0)
      (build_body six_df) six_df = Some res /\
    map cluster_id (res_disaster_clusters res) = [1; 2; 0] /\
    map cluster_id
      (filter (same_key 2 (Some (7 # 2))) (res_disaster_clusters res)) =
      [1; 2] /\
    forall k a,
      StronglySorted lt
        (map cluster_id (filter (same_key k a) (res_disaster_clusters res))).
Proof.
  eexists. split; [vm_compute; reflexivity|].
  split; [reflexivity|]. split; [reflexivity|].
  intros k a.
  apply (X17_ties_keep_their_order binary64
           (plain_run (fun _ => [[Some "E"; Some "F"]; [Some "A"; Some "B"];
                                 [Some "C"; Some "D"]]) 0)
           (build_body six_df) six_df _ eq_refl).
  reflexivity.
Defined.

(** ** Where a NaN average comes from *)

Lemma all_numbers_None (l : list fval) :
  all_numbers l = None <-> In None l.
Proof.
  induction l as [|[q|] t IH]; simpl.
  - split; [discriminate | contradiction].
  - destruct (all_numbers t) as [t'|].
    + split; [discriminate|]. intros [H|H]; [discriminate|].
      now apply IH in H.
    + split; [|reflexivity]. intros _. right. now apply IH.
  - split; [auto | reflexivity].
Qed.

Lemma np_mean_None (l : list fval) :
  l <> [] -> (np_mean l = None <-> In None l).
Proof.
  intro Hne. unfold np_mean.
  destruct (all_numbers l) as [qs|] eqn:E.
  - split.
    + intro H. destruct qs as [|q qs]; [|discriminate].
      destruct l as [|[x|] t]; simpl in E; try contradiction;
        try discriminate.
      destruct (all_numbers t); discriminate.
    + intro H. apply all_numbers_None in H. congruence.
  - split; [|reflexivity]. intros _. now apply all_numbers_None.
Qed.

Lemma member_alert_None df loc :
  member_alert (alert_levels df) loc = None <->
  loc <> None /\ In loc (map location (rows df)) /\ group_alerts df loc = [].
Proof.
  unfold member_alert. rewrite alert_levels_lookup.
  destruct (is_some loc) eqn:S; simpl.
  - destruct (lmem key_eqb loc (map location (rows df))) eqn:L.
    + apply lmem_In in L. unfold mean.
      destruct (group_alerts df loc) as [|a t]; split;
        try discriminate; try tauto.
      * intros _. split; [|auto]. intros ->. discriminate.
      * intros (_ & _ & H). discriminate.
    + apply lmem_not_In in L. split; [discriminate | tauto].
  - split; [discriminate|]. intros [H _]. destruct loc; [discriminate|].
    now contradiction H.
Qed.

(** X18. The average of a cluster is NaN exactly when one of its
    locations, a location named in the frame, has no alert level in any
    of its records; every location in the high-risk list has an alert
    level in some record. *)
Theorem X18_nan_averages
    (detect : Graph -> list (list node)) (G : Graph) (df : DataFrame)
    (res : Results) :
  analyze_disaster_spread detect G df = Some res ->
  (forall c, In c (res_disaster_clusters res) ->
     (cluster_avg_alert_level c = None <->
      exists loc,
        In loc (cluster_locations c) /\ loc <> None /\
        In loc (map location (rows df)) /\
        forall r, In r (rows df) -> location r = loc ->
                  alert_level r = None)) /\
  (forall e, In e (res_high_risk_locations res) ->
     exists r a, In r (rows df) /\ location r = risk_location e /\
                 alert_level r = Some a).
Proof.
  intro H. apply analyze_Some in H. subst res. simpl.
  assert (GA : forall loc, group_alerts df loc = [] <->
    forall r, In r (rows df) -> location r = loc -> alert_level r = None).
  { intro loc. split.
    - intros E r Hr Hl. destruct (alert_level r) as [a|] eqn:Ea;
        [|reflexivity].
      assert (Hin : In a (group_alerts df loc))
        by (apply group_alerts_In; eauto).
      rewrite E in Hin. contradiction.
    - intro Hall. destruct (group_alerts df loc) as [|a t] eqn:E;
        [reflexivity|].
      assert (Hin : In a (group_alerts df loc)) by (rewrite E; now left).
      apply group_alerts_In in Hin. destruct Hin as (r & Hr & Hl & Ha).
      rewrite (Hall r Hr Hl) in Ha. discriminate. }
  split.
  - intros c Hc.
    eapply Permutation_in in Hc; [|apply sort_reverse_perm].
    apply cluster_candidates_In in Hc.
    destruct Hc as (i & comm & _ & Hl & ->). simpl.
    rewrite np_mean_None.
    2:{ destruct comm; simpl in *; [lia | discriminate]. }
    rewrite in_map_iff. split.
    + intros (loc & Hm & Hin). apply member_alert_None in Hm.
      destruct Hm as (H1 & H2 & H3). exists loc.
      repeat split; try assumption. now apply GA.
    + intros (loc & Hin & H1 & H2 & H3). exists loc. split; [|assumption].
      apply member_alert_None. repeat split; try assumption. now apply GA.
  - intros e He.
    eapply Permutation_in in He; [|apply sort_reverse_perm].
    apply risk_candidates_In in He.
    destruct He as (loc & cent & alert & _ & Hlev & _ & ->). simpl in *.
    rewrite alert_levels_lookup in Hlev.
    destruct (is_some loc && lmem key_eqb loc (map location (rows df)));
      [|discriminate].
    inversion Hlev as [Hm]. unfold mean in Hm.
    destruct (group_alerts df loc) as [|a t] eqn:E; [discriminate|].
    assert (Hin : In a (group_alerts df loc)) by (rewrite E; now left).
    apply group_alerts_In in Hin. destruct Hin as (r' & Hr' & Hl' & Ha).
    eauto.
Qed.

Lemma X18_witness :
  exists res,
    analyze_disaster_spread
      (fun _ => [[Some "B"; Some "A"]; [Some "D"; Some "C"];
                 [Some "F"; Some "E"]])
      (build_body pairs_df) pairs_df = Some res /\
    forall c, In c (res_disaster_clusters res) ->
      cluster_avg_alert_level c = None ->
      exists loc, In loc (cluster_locations c) /\
        forall r, In r (rows pairs_df) -> location r = loc ->
                  alert_level r = None.
Proof.
  eexists. split; [reflexivity|].
  destruct (X18_nan_averages
              (fun _ => [[Some "B"; Some "A"]; [Some "D"; Some "C"];
                         [Some "F"; Some "E"]])
              (build_body pairs_df) pairs_df _ eq_refl) as [H _].
  intros c Hc Hn. destruct (proj1 (H c Hc) Hn) as (loc & H1 & _ & _ & H2).
  eauto.
Defined.

(** ** Complete graphs *)

Section Complete.
Variable G : Graph.
Variable s : node.
Hypothesis G_simple : simple_graph G.
Hypothesis s_node : In s (g_node G).
Hypothesis G_complete :
  forall u v, In u (g_node G) -> In v (g_node G) -> u <> v -> adjacent G u v.

Lemma star_visit_source sv st x :
  adjacent G s x ->
  dget key_eqb (bD st) s = Some 0 ->
  star_inv s st ->
  star_inv s (bfs_visit s 0 sv st x) /\
  dget key_eqb (bD (bfs_visit s 0 sv st x)) s = Some 0 /\
  In x (map fst (bD (bfs_visit s 0 sv st x))) /\
  (forall y, In y (map fst (bD st)) ->
             In y (map fst (bD (bfs_visit s 0 sv st x)))).
Proof.
  intros Hadj Hs [K1 K2].
  assert (Hsx : s <> x) by (intros ->; now apply (adjacent_irrefl G x)).
  assert (Hpred : forall v y, In y (dgetd (dset key_eqb (bP st) x
                     (dgetd (bP st) x [] ++ [s])) v []) -> y = s).
  { intros v y Hin. rewrite dgetd_dset in Hin.
    destruct (key_eqb v x); [|now apply K1 in Hin].
    apply in_app_or in Hin. destruct Hin as [Hin|[E|[]]]; [|now symmetry].
    now apply K1 in Hin. }
  destruct (dget key_eqb (bD st) x) as [d|] eqn:Ex.
  - assert (Hx : In x (map fst (bD st))).
    { apply dget_Some_In in Ex. change x with (fst (x, d)). now apply in_map. }
    destruct (Nat.eq_dec d (0 + 1)) as [Ed|Ed].
    2:{ rewrite (bfs_visit_old _ _ _ _ _ d) by assumption.
        repeat split; auto. }
    subst d.
    assert (Eg : dgetd (bD st) x 0 = 0 + 1) by (unfold dgetd; now rewrite Ex).
    unfold bfs_visit, dmem. rewrite Ex. cbv iota beta zeta.
    rewrite Eg, Nat.eqb_refl. cbn [bD bP]. repeat split; auto.
  - rewrite bfs_visit_new by assumption. unfold discover. cbn [bD bP].
    split; [split|]; cbn [bD bP].
    + exact Hpred.
    + intros y d Hd. rewrite dget_dset in Hd. key_dec y x.
      * inversion Hd. subst y. key_dec x s; [congruence | reflexivity].
      * now apply K2.
    + split; [|split].
      * rewrite dget_dset. key_dec s x; [contradiction | assumption].
      * apply dset_keys_In. now left.
      * intros y Hy. apply dset_keys_In. now right.
Qed.

Lemma star_visits_source sv (xs : list node) :
  forall st,
  (forall x, In x xs -> adjacent G s x) ->
  dget key_eqb (bD st) s = Some 0 ->
  star_inv s st ->
  star_inv s (fold_left (bfs_visit s 0 sv) xs st) /\
  (forall x, In x xs ->
     In x (map fst (bD (fold_left (bfs_visit s 0 sv) xs st)))) /\
  (forall y, In y (map fst (bD st)) ->
     In y (map fst (bD (fold_left (bfs_visit s 0 sv) xs st)))).
Proof.
  induction xs as [|x xs IH]; intros st Hx Hs K; simpl.
  - split; [assumption|]. split; [intros x []|auto].
  - destruct (star_visit_source sv st x) as (K' & Hs' & Hin & Hmono); auto.
    { apply Hx. now left. }
    destruct (IH (bfs_visit s 0 sv st x)) as (K'' & Hall & Hmono'); auto.
    { intros y Hy. apply Hx. now right. }
    split; [assumption|]. split.
    + intros y [<-|Hy]; auto.
    + auto.
Qed.

Lemma star_visits_other v sv (xs : list node) st :
  v <> s ->
  dget key_eqb (bD st) v = Some 1 ->
  (forall y, In y (g_node G) -> In y (map fst (bD st))) ->
  (forall x, In x xs -> In x (g_node G)) ->
  star_inv s st ->
  fold_left (bfs_visit v 1 sv) xs st = st.
Proof.
  intros Hv Dv Hall Hxs [K1 K2].
  induction xs as [|x xs IH]; simpl; [reflexivity|].
  assert (Hx : In x (map fst (bD st))) by (apply Hall, Hxs; now left).
  destruct (dgetd_present (bD st) x 0 Hx) as (d & Ed & _).
  rewrite (bfs_visit_old _ _ _ _ _ d); [|assumption|].
  - apply IH. intros y Hy. apply Hxs. now right.
  - rewrite (K2 x d Ed). destruct (key_eqb x s); simpl; lia.
Qed.

Lemma star_loop fuel :
  forall st,
  bfs_inv G st -> star_inv s st ->
  (bS st = [] /\ bQ st = [s] /\ dget key_eqb (bD st) s = Some 0) \/
  (In s (bS st) /\ forall y, In y (g_node G) -> In y (map fst (bD st))) ->
  star_inv s (bfs_loop fuel G st).
Proof.
  induction fuel as [|fuel IH]; intros st J K Hcase; simpl; [assumption|].
  destruct (bQ st) as [|v q] eqn:EQ; [assumption|].
  assert (Hv : In v (map fst (bD st))).
  { destruct J as (_ & He & _). apply He. rewrite EQ.
    apply in_or_app. right. now left. }
  destruct (dgetd_present (bD st) v 0 Hv) as (Dv & E1 & E2).
  rewrite E2. clear E2.
  assert (J1 : bfs_inv G
    (mkBFS (bS st ++ [v]) (bP st) (bsigma st) (bD st) q)).
  { destruct J as (ND & He & Hn). rewrite EQ in *.
    unfold bfs_inv. simpl. rewrite <- app_assoc. simpl. auto. }
  assert (Hnb : forall x, In x (map fst (neighbors G v)) -> In x (g_node G)).
  { intros x Hx. apply (adjacent_ref G v x G_simple) in Hx.
    destruct Hx as [r Hr].
    apply (simple_graph_edge_nodes _ _ _ _ G_simple Hr). }
  destruct (bfs_visits_inv G v Dv (dgetd (bsigma st) v 0%Q)
              (map fst (neighbors G v))
              (mkBFS (bS st ++ [v]) (bP st) (bsigma st) (bD st) q) Hnb J1)
    as [J2 ES].
  destruct Hcase as [(HS & HQ & HD)|(HS & Hall)].
  - injection HQ as Ev Eq. subst v q.
    rewrite HD in E1. injection E1 as <-.
    destruct (star_visits_source (dgetd (bsigma st) s 0%Q)
                (map fst (neighbors G s))
                (mkBFS (bS st ++ [s]) (bP st) (bsigma st) (bD st) []))
      as (K' & Hin & Hmono); auto.
    apply IH; [assumption | assumption |].
    right. split.
    + rewrite ES. cbn [bS]. apply in_or_app. right. now left.
    + intros y Hy. destruct (cell_eq_dec y s) as [->|Hne].
      * apply Hmono. exact Hv.
      * apply Hin. apply G_complete; auto.
  - assert (Hvs : v <> s).
    { intros ->. destruct J as (ND & _). rewrite EQ in ND.
      apply NoDup_remove_2 in ND. apply ND. apply in_or_app. now left. }
    assert (EDv : Dv = 1).
    { destruct K as [_ K2]. rewrite (K2 v Dv E1).
      key_dec v s; [contradiction | reflexivity]. }
    subst Dv.
    rewrite star_visits_other in *; auto.
    apply IH; [assumption | exact K |].
    right. split; [cbn [bS]; apply in_or_app; now left | exact Hall].
Qed.

Lemma star_search :
  forall v x, In x (dgetd (bP (single_source_shortest_path_basic G s)) v []) ->
              x = s.
Proof.
  unfold single_source_shortest_path_basic.
  apply star_loop.
  - unfold bfs_inv. simpl. split; [|split].
    + repeat constructor. intros [].
    + tauto.
    + intros y [<-|[]]. assumption.
  - split; simpl.
    + intros v x. unfold dgetd.
      rewrite (dget_table (fun _ => @nil node)).
      destruct (lmem key_eqb v (g_node G)); intros [].
    + intros y d. key_dec y s; intro H; inversion H; reflexivity.
  - left. simpl. rewrite key_eqb_refl. auto.
Qed.

End Complete.

Lemma brandes_sums_complete G w :
  simple_graph G -> w <> None ->
  (forall u v, In u (g_node G) -> In v (g_node G) -> u <> v ->
               adjacent G u v) ->
  zero_at (brandes_sums G) w.
Proof.
  intros SG Hw Hc. unfold brandes_sums.
  assert (K : forall l B,
    (forall s, In s l -> In s (g_node G)) -> zero_at B w ->
    zero_at (fold_left (fun betweenness s =>
        fst (accumulate_basic betweenness
               (single_source_shortest_path_basic G s) s)) l B) w).
  { induction l as [|s l IH]; intros B Hs HB; simpl; [assumption|].
    apply IH; [intros s' H; apply Hs; now right|].
    apply accumulate_leaf; [assumption| |assumption].
    destruct (cell_eq_dec w s) as [E|E]; [now left | right].
    intros v Hin. apply E.
    apply (star_search G s SG) in Hin; auto. apply Hs. now left. }
  apply K; [auto|].
  intros q Hq. rewrite (dget_table (fun _ => 0%Q)) in Hq.
  destruct (lmem key_eqb w (g_node G)); inversion Hq. reflexivity.
Qed.

(** X19. When some disaster type is recorded for every location, the
    built graph is complete and every location name has betweenness 0.
    Only the NaN node of the records without a location can have a
    positive betweenness (the accumulation adds its dependency as a source
    to its own entry), so every reported spread path has the NaN node at
    one end, and a frame in which every record has a location reports no
    spread path. *)
Theorem X19_one_type_everywhere
    (detect : Graph -> list (list node)) (df : DataFrame) (G : Graph)
    (res : Results) (d : cell) :
  build_location_graph df = Some G ->
  analyze_disaster_spread detect G df = Some res ->
  everywhere df d ->
  (forall u v, In u (g_node G) -> In v (g_node G) -> u <> v ->
     has_edge G u v = true) /\
  (forall v c, v <> None ->
     dget key_eqb (betweenness_centrality G) v = Some c -> (c == 0)%Q) /\
  (forall p, In p (res_potential_spread_paths res) ->
     path_from p = None \/ path_to p = None) /\
  (~ In None (map location (rows df)) ->
   res_potential_spread_paths res = []).
Proof.
  intros HG H [Hd Hall]. apply build_location_graph_Some in HG. subst G.
  apply analyze_Some in H. subst res. simpl.
  pose proof (build_body_simple df) as SG.
  destruct (build_body_inv df) as [_ Hn].
  set (G := build_body df) in *.
  assert (A : forall u v, In u (g_node G) -> In v (g_node G) -> u <> v ->
                has_edge G u v = true).
  { intros u v Hu Hv Hne. apply build_body_edges. split; [assumption|].
    rewrite Hn in Hu, Hv.
    apply (proj1 (unique_In _ _)) in Hu. apply (proj1 (unique_In _ _)) in Hv.
    assert (Hin : In d (shared_types df u v)).
    { apply shared_types_In. auto. }
    intro E. rewrite E in Hin. contradiction. }
  assert (C : forall u v, In u (g_node G) -> In v (g_node G) -> u <> v ->
                adjacent G u v).
  { intros u v Hu Hv Hne. apply (adjacent_ref G u v SG).
    specialize (A u v Hu Hv Hne). unfold has_edge in A.
    destruct (edge_ref G u v) as [r|]; [eauto | discriminate]. }
  assert (Z : forall v c, v <> None ->
                dget key_eqb (betweenness_centrality G) v = Some c ->
                (c == 0)%Q).
  { intros v c Hv Ec. unfold betweenness_centrality, betweenness_with in Ec.
    rewrite rescale_lookup in Ec.
    destruct (dget key_eqb (brandes_sums G) v) as [sum|] eqn:Es;
      [|discriminate].
    pose proof (brandes_sums_complete G v SG Hv C sum Es) as Hz.
    simpl in Ec. inversion Ec.
    destruct (length (g_node G) <=? 2); [assumption|].
    rewrite Hz. apply Qmult_0_l. }
  assert (D0 : forall y, y <> None ->
                 (dgetd (betweenness_centrality G) y 0 == 0)%Q).
  { intros y Hy. unfold dgetd.
    destruct (dget key_eqb (betweenness_centrality G) y) as [c|] eqn:Ec;
      [now apply (Z y) | reflexivity]. }
  assert (P : forall p,
    In p (sort_reverse (key_lt path_betweenness)
            (path_candidates G (betweenness_centrality G))) ->
    (path_from p = None \/ path_to p = None) /\
    In (path_from p) (g_node G)).
  { intros p Hp.
    eapply Permutation_in in Hp; [|apply sort_reverse_perm].
    rewrite path_candidates_map in Hp. apply in_map_iff in Hp.
    destruct Hp as ([[a b] data] & <- & He). apply filter_In in He.
    destruct He as [He Hs]. apply Qltb_lt in Hs. unfold edge_score in Hs.
    simpl in *.
    pose proof (edges_edge_attr _ _ _ _ SG He) as Ha. unfold edge_attr in Ha.
    destruct (edge_ref G a b) as [r|] eqn:Er; [|discriminate].
    destruct (simple_graph_edge_nodes _ _ _ _ SG Er) as (_ & Na & Nb).
    split; [|assumption].
    destruct a as [a|]; [|now left]. destruct b as [b|]; [|now right].
    exfalso. rewrite !D0 in Hs by discriminate. discriminate. }
  split; [exact A|]. split; [exact Z|]. split; [intros p Hp; now apply P|].
  intro NN.
  destruct (sort_reverse (key_lt path_betweenness)
              (path_candidates G (betweenness_centrality G)))
    as [|p l] eqn:E; [reflexivity|].
  exfalso. destruct (P p (or_introl eq_refl)) as [[E1|E1] Hin].
  - apply NN. rewrite <- E1. rewrite Hn in Hin.
    exact (proj1 (unique_In _ _) Hin).
  - clear Hin.
    assert (Hp : In p (sort_reverse (key_lt path_betweenness)
              (path_candidates G (betweenness_centrality G))))
      by (rewrite E; now left).
    eapply Permutation_in in Hp; [|apply sort_reverse_perm].
    rewrite path_candidates_map in Hp. apply in_map_iff in Hp.
    destruct Hp as ([[a b] data] & <- & He). apply filter_In in He.
    destruct He as [He _]. simpl in E1. subst b.
    pose proof (edges_edge_attr _ _ _ _ SG He) as Ha. unfold edge_attr in Ha.
    destruct (edge_ref G a None) as [r|] eqn:Er; [|discriminate].
    destruct (simple_graph_edge_nodes _ _ _ _ SG Er) as (_ & _ & Nb).
    apply NN. rewrite Hn in Nb. exact (proj1 (unique_In _ _) Nb).
Qed.

Lemma X19_witness :
  exists G res,
    build_location_graph flood_df = Some G /\
    analyze_disaster_spread (fun _ => []) G flood_df = Some res /\
    length (edges G) = 6 /\
    res_potential_spread_paths res = [].
Proof.
  do 2 eexists. split; [reflexivity|]. split; [reflexivity|].
  split; [reflexivity|].
  refine (proj2 (proj2 (proj2
            (X19_one_type_everywhere (fun _ => []) flood_df _ _
               (Some "flood") eq_refl eq_refl _))) _).
  - split; [reflexivity|].
    intros loc Hloc. simpl in Hloc.
    destruct Hloc as [<-|[<-|[<-|[<-|[]]]]]; reflexivity.
  - simpl. intuition discriminate.
Defined.

(** ** The contents of the report *)

Lemma averages_are_numbers_perm l l' :
  Permutation l l' -> averages_are_numbers l = averages_are_numbers l'.
Proof.
  intro H. unfold averages_are_numbers.
  induction H; simpl; try congruence.
  destruct (is_some (cluster_avg_alert_level x)),
           (is_some (cluster_avg_alert_level y)); reflexivity.
Qed.

(** X20. The report holds: the first five entries of the risk list, which
    is in descending order of risk score, so no entry left out has a
    higher score; one cluster summary for every community of more than one
    location and no other, in descending order of (size, average alert
    level) provided no average is NaN, which is the case when every record
    has an alert level; the first ten entries of the spread-path list,
    which is in descending order of betweenness; the number of distinct
    locations; the distinct disaster types. *)
Theorem X20_report_contents
    (P : Platform) (R : Run) (df : DataFrame) (r : Report) :
  sort_is_permutation P ->
  generate_link_analysis_report_fp P R df = Some (Generated r) ->
  exists G res,
    build_location_graph df = Some G /\
    analyze_disaster_spread_fp P R G df = Some res /\
    (high_risk_locations r = firstn 5 (res_high_risk_locations res) /\
     StronglySorted (fun x y => (risk_score y <= risk_score x)%Q)
       (res_high_risk_locations res) /\
     (forall x y, In x (high_risk_locations r) ->
        In y (skipn 5 (res_high_risk_locations res)) ->
        (risk_score y <= risk_score x)%Q)) /\
    (Permutation (disaster_clusters r)
       (cluster_candidates_fp P (run_detect R G) (alert_levels_fp P df)) /\
     (forall c, In c (disaster_clusters r) <->
        exists i community,
          nth_error (run_detect R G) i = Some community /\
          1 < length community /\
          c = mkCluster i community (length community)
                (np_mean_fp P
                   (map (member_alert (alert_levels_fp P df)) community))) /\
     (averages_are_numbers (disaster_clusters r) = true ->
      StronglySorted cluster_before (disaster_clusters r)) /\
     (has_alert_levels df = true ->
      averages_are_numbers (disaster_clusters r) = true)) /\
    (potential_spread_paths r =
       firstn 10 (res_potential_spread_paths res) /\
     StronglySorted (fun x y => (path_betweenness y <= path_betweenness x)%Q)
       (res_potential_spread_paths res) /\
     (forall x y, In x (potential_spread_paths r) ->
        In y (skipn 10 (res_potential_spread_paths res)) ->
        (path_betweenness y <= path_betweenness x)%Q)) /\
    (locations_analyzed r = length (unique (map location (rows df))) /\
     NoDup (unique (map location (rows df))) /\
     forall x, In x (unique (map location (rows df))) <->
               In x (map location (rows df))) /\
    (disaster_types_analyzed r = unique (map disaster_type (rows df)) /\
     NoDup (disaster_types_analyzed r) /\
     forall d, In d (disaster_types_analyzed r) <->
               In d (map disaster_type (rows df))).
Proof.
  intros HP H. apply generate_fp_Generated in H.
  destruct H as (res & HG & HA & ->).
  exists (build_body df), res. split; [exact HG|]. split; [exact HA|].
  apply analyze_fp_Some in HA. destruct HA as [_ ->]. simpl.
  set (cands := cluster_candidates_fp P (run_detect R (build_body df))
                  (alert_levels_fp P df)).
  assert (S1 := key_sort_desc RiskEntry risk_score
    (risk_candidates_fp P (degree_centrality_fp P (build_body df))
       (alert_levels_fp P df))).
  assert (S2 := key_sort_desc SpreadPath path_betweenness
    (path_candidates_fp P R (build_body df)
       (betweenness_centrality_fp P (build_body df)))).
  assert (Pm : Permutation (sort_clusters P cands) cands)
    by now apply sort_clusters_perm.
  split; [|split; [|split; [|split]]].
  - split; [reflexivity|]. split; [exact S1|].
    intros x y Hx Hy.
    exact (StronglySorted_split _ 5 _ x y S1 Hx Hy).
  - split; [exact Pm|]. split; [|split].
    + intro c. unfold cands in Pm |- *.
      rewrite <- cluster_candidates_fp_In. split; intro Hc.
      * eapply Permutation_in; [exact Pm | exact Hc].
      * eapply Permutation_in; [symmetry; exact Pm | exact Hc].
    + intro Ha. rewrite (averages_are_numbers_perm _ _ Pm) in Ha.
      now apply sort_clusters_sorted.
    + intro Ha. rewrite (averages_are_numbers_perm _ _ Pm).
      apply averages_are_numbers_Forall.
      now apply cluster_candidates_fp_numeric.
  - split; [reflexivity|]. split; [exact S2|].
    intros x y Hx Hy.
    exact (StronglySorted_split _ 10 _ x y S2 Hx Hy).
  - split; [reflexivity|]. split; [apply unique_NoDup|].
    intro x. apply unique_In.
  - split; [reflexivity|]. split; [apply unique_NoDup|].
    intro d. apply unique_In.
Qed.

Lemma X20_witness :
  exists r,
    generate_link_analysis_report_fp binary64
      (plain_run (fun _ => [[Some "E"; Some "F"]; [Some "A"; Some "B"];
                            [Some "C"; Some "D"]]) 0) six_df =
      Some (Generated r) /\
    locations_analyzed r = 6 /\
    length (high_risk_locations r) = 5 /\
    map cluster_id (disaster_clusters r) = [1; 2; 0] /\
    StronglySorted cluster_before (disaster_clusters r).
Proof.
  eexists. split; [vm_compute; reflexivity|]. split; [reflexivity|].
  split; [reflexivity|]. split; [reflexivity|].
  destruct (X20_report_contents binary64
              (plain_run (fun _ => [[Some "E"; Some "F"];
                                    [Some "A"; Some "B"];
                                    [Some "C"; Some "D"]]) 0) six_df _
              binary64_sort eq_refl)
    as (G & res & _ & _ & _ & (_ & _ & S & _) & _).
  apply S. reflexivity.
Defined.
